(** * xrand: random integers, jitter and random strings (actforgood/xrand)

    A shallow embedding of [rand.go] and of the parts of Go's [math/rand]
    and [encoding/binary] that it calls, with the properties stated in the
    package's specification.

    Machine model: Go on a 64-bit target, so [int], [int64] and
    [time.Duration] are 64-bit two's complement integers whose arithmetic
    wraps around; [float64] is IEEE 754 binary64 ([spec_float] with
    [prec = 53], [emax = 1024]).  The pseudo-random generator is a stream of
    raw 64-bit outputs, read at a position that every draw advances. *)

From Stdlib Require Import ZArith Lia Bool List QArith Qpower Lqa.
From Stdlib Require Import Strings.Byte Strings.String.
From Stdlib Require Import Floats.SpecFloat.
From stdpp Require Import base list vector.

Local Open Scope Z_scope.

(** ** Machine integers *)

Module Int64.

Definition min_int : Z := - 2 ^ 63.
Definition max_int : Z := 2 ^ 63 - 1.

(** The value an [int64] holds after an operation whose exact result is [z]. *)
Definition wrap (z : Z) : Z := (z + 2 ^ 63) mod 2 ^ 64 - 2 ^ 63.

Definition in_range (z : Z) : Prop := min_int <= z <= max_int.

End Int64.

(** ** float64

    IEEE 754 binary64 arithmetic, every operation rounded to nearest, ties
    to even. *)

Module F64.

Definition prec : Z := 53.
Definition emax : Z := 1024.

Definition float64 : Type := spec_float.

Definition mul : float64 -> float64 -> float64 := SFmul prec emax.
Definition sub : float64 -> float64 -> float64 := SFsub prec emax.
Definition div : float64 -> float64 -> float64 := SFdiv prec emax.
Definition eqb : float64 -> float64 -> bool := SFeqb.
Definition ltb : float64 -> float64 -> bool := SFltb.

(** [float64(n)] for an integer [n]. *)
Definition of_int (n : Z) : float64 := binary_normalize prec emax n 0 false.

Definition zero : float64 := S754_zero false.
Definition one : float64 := of_int 1.
Definition two : float64 := of_int 2.

(** The integer part of a finite float, rounded toward zero. *)
Definition trunc (s : bool) (m : positive) (e : Z) : Z :=
  let a := if 0 <=? e then Z.pos m * 2 ^ e else Z.pos m / 2 ^ (- e) in
  if s then - a else a.

(** [int64(x)]: the fractional part is discarded.  For NaN, the infinities
    and values outside [int64] the Go specification leaves the result to the
    implementation; the value here is the one of the gc compiler on amd64
    (CVTTSD2SQ, the "integer indefinite" 0x8000000000000000). *)
Definition to_int64 (x : float64) : Z :=
  match x with
  | S754_zero _ => 0
  | S754_finite s m e =>
      let t := trunc s m e in
      if (Int64.min_int <=? t) && (t <=? Int64.max_int) then t
      else Int64.min_int
  | S754_infinity _ | S754_nan => Int64.min_int
  end.

End F64.

(** ** Outcomes of a call

    A call either returns a value and the position of the next draw, or
    panics, or is still looping when the iteration budget is used up. *)

Inductive panic : Set :=
| InvalidArgument   (* panic("invalid argument to Intn") and the like *)
| DivideByZero      (* runtime error: integer divide by zero *)
| IndexOutOfRange   (* runtime error: index out of range *)
| MakesliceLen.     (* runtime error: makeslice: len out of range *)

Inductive result (A : Type) : Type :=
| Ok (a : A) (pos : nat)
| Panic (p : panic)
| Diverge.

Arguments Ok {A} a pos.
Arguments Panic {A} p.
Arguments Diverge {A}.

(** A computation reads the generator from the position it is given. *)
Definition M (A : Type) : Type := nat -> result A.

Definition ret {A} (a : A) : M A := fun pos => Ok a pos.

Definition bind {A B} (m : M A) (k : A -> M B) : M B :=
  fun pos =>
    match m pos with
    | Ok a pos' => k a pos'
    | Panic p => Panic p
    | Diverge => Diverge
    end.

Definition throw {A} (p : panic) : M A := fun _ => Panic p.

Notation "'do' x <- m ; k" := (bind m (fun x => k))
  (at level 10, x name, m at level 100, k at level 200).

Definition returns {A} (r : result A) : Prop := exists a pos, r = Ok a pos.
Definition panics {A} (r : result A) : Prop := exists p, r = Panic p.

(** ** The generator behind [globalRand]

    [init] builds [globalRand = mRand.New(&lockedSource{src: mRand.NewSource(seed)})].
    [lockedSource.Int63] takes the lock, calls [src.Int63] and releases the
    lock, so a draw is the next [Int63] of the wrapped source.  The wrapped
    source is math/rand's [rngSource], whose [Int63] is
    [int64(rng.Uint64() & rngMask)]: the stream below is the sequence of its
    [Uint64] outputs. *)

Definition Source : Type := nat -> Z.

Module MathRand.

Definition rngMask : Z := 2 ^ 63 - 1.

Section Rand.
Variable src : Source.

(** [func (ls *lockedSource) Int63() (n int64)] over [rngSource.Int63]. *)
Definition src_Int63 (pos : nat) : Z := Z.land (src pos) rngMask.

(** [func (r *Rand) Int63() int64 { return r.src.Int63() }] *)
Definition Int63 : M Z := fun pos => Ok (src_Int63 pos) (S pos).

(** [func (r *Rand) Int31() int32 { return int32(r.Int63() >> 32) }] *)
Definition Int31 : M Z := do v <- Int63; ret (Z.shiftr v 32).

(** The loop [for v > max { v = r.Int31() }] of [Int31n]. *)
Fixpoint Int31n_loop (fuel : nat) (max v : Z) : M Z :=
  match fuel with
  | O => fun _ => Diverge
  | S fuel' =>
      if v >? max then do v' <- Int31; Int31n_loop fuel' max v'
      else ret v
  end.

(** [func (r *Rand) Int31n(n int32) int32] *)
Definition Int31n (fuel : nat) (n : Z) : M Z :=
  if n <=? 0 then throw InvalidArgument
  else if Z.land n (n - 1) =? 0 then
    do v <- Int31; ret (Z.land v (n - 1))
  else
    let max := 2 ^ 31 - 1 - (2 ^ 31) mod n in
    do v <- Int31;
    do v' <- Int31n_loop fuel max v;
    ret (Z.rem v' n).

(** The loop [for v > max { v = r.Int63() }] of [Int63n]. *)
Fixpoint Int63n_loop (fuel : nat) (max v : Z) : M Z :=
  match fuel with
  | O => fun _ => Diverge
  | S fuel' =>
      if v >? max then do v' <- Int63; Int63n_loop fuel' max v'
      else ret v
  end.

(** [func (r *Rand) Int63n(n int64) int64] *)
Definition Int63n (fuel : nat) (n : Z) : M Z :=
  if n <=? 0 then throw InvalidArgument
  else if Z.land n (n - 1) =? 0 then
    do v <- Int63; ret (Z.land v (n - 1))
  else
    let max := 2 ^ 63 - 1 - (2 ^ 63) mod n in
    do v <- Int63;
    do v' <- Int63n_loop fuel max v;
    ret (Z.rem v' n).

(** [func (r *Rand) Intn(n int) int] *)
Definition Intn (fuel : nat) (n : Z) : M Z :=
  if n <=? 0 then throw InvalidArgument
  else if n <=? 2 ^ 31 - 1 then Int31n fuel n
  else Int63n fuel n.

(** [func (r *Rand) Float64() float64]:
    [again: f := float64(r.Int63()) / (1 << 63); if f == 1 { goto again }; return f].
    The conversion [float64(r.Int63())] rounds a draw of more than 53 bits,
    so that the quotient can be 1. *)
Fixpoint Float64 (fuel : nat) : M F64.float64 :=
  match fuel with
  | O => fun _ => Diverge
  | S fuel' =>
      do v <- Int63;
      let f := F64.div (F64.of_int v) (F64.of_int (2 ^ 63)) in
      if F64.eqb f F64.one then Float64 fuel' else ret f
  end.

End Rand.
End MathRand.

(** ** encoding/binary *)

Definition byte_val (b : Byte.byte) : Z := Z.of_N (Byte.to_N b).

(** [func (littleEndian) Uint64(b []byte) uint64]: [None] is the panic of
    the bounds check [_ = b[7]]. *)
Definition LittleEndian_Uint64 (b : list Byte.byte) : option Z :=
  match b with
  | b0 :: b1 :: b2 :: b3 :: b4 :: b5 :: b6 :: b7 :: _ =>
      Some (Z.lor (Z.lor (Z.lor (Z.lor (Z.lor (Z.lor (Z.lor
              (byte_val b0)
              (Z.shiftl (byte_val b1) 8))
              (Z.shiftl (byte_val b2) 16))
              (Z.shiftl (byte_val b3) 24))
              (Z.shiftl (byte_val b4) 32))
              (Z.shiftl (byte_val b5) 40))
              (Z.shiftl (byte_val b6) 48))
              (Z.shiftl (byte_val b7) 56))
  | _ => None
  end.

(** ** rand.go *)

Module Xrand.

(** What [cRand.Read(b[:])] did to the array [var b [8]byte]: it filled it
    and returned no error, or it returned an error. *)
Inductive read_outcome : Type :=
| ReadOk (b : vec Byte.byte 8)
| ReadErr.

(** [func getRandSeed() int64]; [now] is [time.Now().UnixNano()], and
    [None] is a panic. *)
Definition getRandSeed (read : read_outcome) (now : Z) : option Z :=
  match read with
  | ReadOk b =>
      match LittleEndian_Uint64 (vec_to_list b) with
      | Some u => Some (Int64.wrap (Z.land u (2 ^ 63 - 1)))
      | None => None
      end
  | ReadErr => Some now
  end.

(** A Go [string] is its sequence of bytes; [len] counts them and indexing
    yields a byte. *)
Definition gostring : Type := list Byte.byte.

Definition len {A} (l : list A) : Z := Z.of_nat (length l).

(** [l[i]]; [None] is the index-out-of-range panic. *)
Definition index {A} (l : list A) (i : Z) : option A :=
  if i <? 0 then None else l !! Z.to_nat i.

(** [l[i] = x]; [None] is the index-out-of-range panic. *)
Definition assign {A} (l : list A) (i : Z) (x : A) : option (list A) :=
  if (0 <=? i) && (i <? len l) then Some (<[Z.to_nat i := x]> l) else None.

(** [AlphanumAlphabet] and [DigitsAlphabet]. *)
Definition AlphanumAlphabet : gostring :=
  list_byte_of_string "abcdefghijklmnopqrstuvwxyz0123456789".
Definition DigitsAlphabet : gostring :=
  list_byte_of_string "0123456789".

(** The loop [for x--; x > 0; x >>= 1 { bitsNo++ }] of [countBits], after
    its init statement.  An [int] is shifted to zero in at most 63 rounds. *)
Fixpoint countBits_loop (rounds : nat) (x bitsNo : Z) : Z :=
  match rounds with
  | O => bitsNo
  | S rounds' =>
      if 0 <? x then countBits_loop rounds' (Z.shiftr x 1) (Int64.wrap (bitsNo + 1))
      else bitsNo
  end.

(** [func countBits(x int) int] *)
Definition countBits (x : Z) : Z :=
  countBits_loop 64 (Int64.wrap (x - 1)) 0.

(** [const defaultJitterFactor = 0.2], as the [float64] it is used as. *)
Definition defaultJitterFactor : F64.float64 :=
  S754_finite false 7205759403792794 (-55).

Section Globals.
(** [globalRand], the generator every function of the package draws from. *)
Variable globalRand : Source.

(** [func Intn(n int) int { return globalRand.Intn(n) }] *)
Definition Intn (fuel : nat) (n : Z) : M Z :=
  MathRand.Intn globalRand fuel n.

(** [func IntnBetween(min, max int) int { return globalRand.Intn(max-min) + min }] *)
Definition IntnBetween (fuel : nat) (min max : Z) : M Z :=
  do v <- MathRand.Intn globalRand fuel (Int64.wrap (max - min));
  ret (Int64.wrap (v + min)).

(** [func Float64() float64 { return globalRand.Float64() }] *)
Definition Float64 (fuel : nat) : M F64.float64 :=
  MathRand.Float64 globalRand fuel.

(** [factor := defaultJitterFactor;
     if len(maxFactor) > 0 && maxFactor[0] > 0.0 { factor = maxFactor[0] }] *)
Definition jitterFactor (maxFactor : list F64.float64) : F64.float64 :=
  match maxFactor with
  | f0 :: _ => if F64.ltb F64.zero f0 then f0 else defaultJitterFactor
  | [] => defaultJitterFactor
  end.

(** [time.Duration(randRange * factor * float64(duration))] for the draw [u],
    with [randRange := 2*u - 1].  A compiler that fuses [2*u - 1] into one
    operation computes the same [randRange]: [2*u] is exact. *)
Definition jitterOf (duration : Z) (factor u : F64.float64) : Z :=
  let randRange := F64.sub (F64.mul F64.two u) F64.one in
  F64.to_int64 (F64.mul (F64.mul randRange factor) (F64.of_int duration)).

(** The loop [for newDuration <= 0 { ... }] of [Jitter]. *)
Fixpoint Jitter_loop (fuel : nat) (duration : Z) (factor : F64.float64)
    (newDuration : Z) : M Z :=
  match fuel with
  | O => fun _ => Diverge
  | S fuel' =>
      if newDuration <=? 0 then
        do u <- Float64 fuel';
        let jitter := jitterOf duration factor u in
        Jitter_loop fuel' duration factor (Int64.wrap (duration + jitter))
      else ret newDuration
  end.

(** [func Jitter(duration time.Duration, maxFactor ...float64) time.Duration] *)
Definition Jitter (fuel : nat) (duration : Z) (maxFactor : list F64.float64) : M Z :=
  Jitter_loop fuel duration (jitterFactor maxFactor) 0.

(** The alphabet [String] uses. *)
Definition alphabetOf (alphabet : list gostring) : gostring :=
  match alphabet with
  | a0 :: _ => if 0 <? len a0 then a0 else AlphanumAlphabet
  | [] => AlphanumAlphabet
  end.

(** The loop [for i := 0; i < n; { ... }] of [String]. *)
Fixpoint String_loop (fuel : nat) (n : Z) (a : gostring)
    (alphabetIdxBits alphabetIdxMask alphabetIdxMax : Z)
    (i randomInt63 remaining : Z) (b : list Byte.byte) : M (list Byte.byte) :=
  match fuel with
  | O => fun _ => Diverge
  | S fuel' =>
      if i <? n then
        do dr <- (if remaining =? 0
                  then do r <- MathRand.Int63 globalRand; ret (r, alphabetIdxMax)
                  else ret (randomInt63, remaining));
        let randomInt63 := fst dr in
        let remaining := snd dr in
        let alphabetIdx := Int64.wrap (Z.land randomInt63 alphabetIdxMask) in
        do bi <- (if alphabetIdx <? len a then
                    match index a alphabetIdx with
                    | Some c =>
                        match assign b i c with
                        | Some b' => ret (b', Int64.wrap (i + 1))
                        | None => throw IndexOutOfRange
                        end
                    | None => throw IndexOutOfRange
                    end
                  else ret (b, i));
        String_loop fuel' n a alphabetIdxBits alphabetIdxMask alphabetIdxMax
          (snd bi) (Z.shiftr randomInt63 alphabetIdxBits)
          (Int64.wrap (remaining - 1)) (fst bi)
      else ret b
  end.

(** [func String(n int, alphabet ...string) string] *)
Definition String (fuel : nat) (n : Z) (alphabet : list gostring) : M gostring :=
  let a := alphabetOf alphabet in
  let alphabetIdxBits := countBits (len a) in
  let alphabetIdxMask := Int64.wrap (Int64.wrap (Z.shiftl 1 alphabetIdxBits) - 1) in
  if alphabetIdxBits =? 0 then throw DivideByZero
  else
    let alphabetIdxMax := Z.quot 63 alphabetIdxBits in
    if n <? 0 then throw MakesliceLen
    else
      let b := replicate (Z.to_nat n) Byte.x00 in
      do randomInt63 <- MathRand.Int63 globalRand;
      String_loop fuel n a alphabetIdxBits alphabetIdxMask alphabetIdxMax
        0 randomInt63 alphabetIdxMax b.

End Globals.
End Xrand.

(** ** lockedSource shared by goroutines

    [lockedSource.Int63] is [ls.Lock(); n = ls.src.Int63(); ls.Unlock(); return].
    The wrapped source is not safe for concurrent use: a draw reads the
    state of the generator and then writes the advanced state back, and
    goroutines interleave between any two of these steps.  The state of the
    generator is the position of its next draw; a goroutine that has drawn at
    position [q] returns [MathRand.src_Int63 src q]. *)

Module LockedSource.

(** Where a goroutine is in its call of [Int63]. *)
Inductive pc : Set :=
| AtLock                 (* before ls.Lock() *)
| AtRead                 (* holds the lock; before src.Int63() reads the state *)
| AtWrite (seen : nat)   (* has read the position; before it writes the next one *)
| AtUnlock (q : nat)     (* n is the draw at position q; before ls.Unlock() *)
| Returned (q : nat).    (* has returned the draw at position q *)

Record state : Set := State {
  locked : bool;         (* the sync.Mutex embedded in lockedSource *)
  next : nat;            (* the state of ls.src *)
  goroutines : list pc
}.

(** One step of goroutine [i]; [None] when it cannot step: it is blocked in
    [Lock], or has returned, or does not exist. *)
Definition step_of (s : state) (i : nat) : option state :=
  match goroutines s !! i with
  | Some AtLock =>
      if locked s then None
      else Some (State true (next s) (<[i := AtRead]> (goroutines s)))
  | Some AtRead =>
      Some (State (locked s) (next s) (<[i := AtWrite (next s)]> (goroutines s)))
  | Some (AtWrite seen) =>
      Some (State (locked s) (S seen) (<[i := AtUnlock seen]> (goroutines s)))
  | Some (AtUnlock q) =>
      Some (State false (next s) (<[i := Returned q]> (goroutines s)))
  | Some (Returned _) | None => None
  end.

(** A schedule names the goroutine that takes each step. *)
Fixpoint run (s : state) (schedule : list nat) : option state :=
  match schedule with
  | [] => Some s
  | i :: rest =>
      match step_of s i with
      | Some s' => run s' rest
      | None => None
      end
  end.

(** [n] goroutines about to call [Int63] on a generator at position [pos]. *)
Definition start (pos n : nat) : state := State false pos (replicate n AtLock).

(** The position a goroutine has drawn at, once it has. *)
Definition drawn (t : pc) : option nat :=
  match t with
  | AtUnlock q | Returned q => Some q
  | _ => None
  end.

(** The goroutine is between [Lock] and [Unlock]. *)
Definition in_critical (t : pc) : bool :=
  match t with
  | AtRead | AtWrite _ | AtUnlock _ => true
  | _ => false
  end.

Definition has_returned (t : pc) : bool :=
  match t with
  | Returned _ => true
  | _ => false
  end.

(** What every reachable state satisfies: the positions drawn so far are
    those from the start up to the state of the generator; when the lock is
    free no goroutine is in the critical section; when it is held exactly
    one is, and what that one has read is the current state. *)
Definition invariant (pos : nat) (s : state) : Prop :=
  (pos <= next s)%nat /\
  omap drawn (goroutines s) ≡ₚ seq pos (next s - pos) /\
  if locked s
  then exists i t,
         goroutines s !! i = Some t /\ in_critical t = true /\
         (forall seen, t = AtWrite seen -> seen = next s) /\
         forall j t', j <> i -> goroutines s !! j = Some t' -> in_critical t' = false
  else forall j t', goroutines s !! j = Some t' -> in_critical t' = false.

End LockedSource.

(** ** The reference algorithm of the specification, section 4.5 *)

Module Spec.

(** Step 1: the smallest [k] with [2^k >= size], that is [ceil(log2 size)],
    with the convention that an alphabet of size 1 needs [k >= 1]. *)
Definition bitsNeeded (size : Z) : Z := Z.max 1 (Z.log2_up size).

Section Reference.
Variable generator : Source.

(** Steps 5 and 6: emit symbols until [length] of them have been emitted. *)
Fixpoint emit (fuel : nat) (length : Z) (alphabet : Xrand.gostring)
    (k mask slotsPerDraw : Z) (out : Xrand.gostring) (draw remaining : Z)
    : M Xrand.gostring :=
  match fuel with
  | O => fun _ => Diverge
  | S fuel' =>
      if Xrand.len out <? length then
        do dr <- (if remaining =? 0
                  then do d <- MathRand.Int63 generator; ret (d, slotsPerDraw)
                  else ret (draw, remaining));
        let value := Z.land (fst dr) mask in
        let out' :=
          if value <? Xrand.len alphabet
          then out ++ [nth (Z.to_nat value) alphabet Byte.x00]
          else out in
        emit fuel' length alphabet k mask slotsPerDraw
          out' (Z.shiftr (fst dr) k) (snd dr - 1)
      else ret out
  end.

(** [RandomString(length, alphabet?)]; an omitted or empty alphabet is the
    default alphanumeric one. *)
Definition RandomString (fuel : nat) (length : Z)
    (alphabet : option Xrand.gostring) : M Xrand.gostring :=
  let alphabet :=
    match alphabet with
    | Some a => if Xrand.len a =? 0 then Xrand.AlphanumAlphabet else a
    | None => Xrand.AlphanumAlphabet
    end in
  let k := bitsNeeded (Xrand.len alphabet) in
  let mask := Z.shiftl 1 k - 1 in
  let slotsPerDraw := 63 / k in
  do draw <- MathRand.Int63 generator;
  emit fuel length alphabet k mask slotsPerDraw [] draw slotsPerDraw.

End Reference.
End Spec.

(** ** Notions used in the statements *)

(** The call does not panic, and its value satisfies [P] if it returns. *)
Definition safely {A} (P : A -> Prop) (r : result A) : Prop :=
  match r with
  | Ok a _ => P a
  | Panic _ => False
  | Diverge => True
  end.

(** The number a sequence of bytes denotes, least significant byte first. *)
Definition le_value (b : list Byte.byte) : Z :=
  fold_right (fun x acc => byte_val x + 256 * acc) 0 b.

(** The [Int31] that the draw at position [q] yields. *)
Definition int31_at (src : Source) (q : nat) : Z :=
  Z.shiftr (MathRand.src_Int63 src q) 32.

(** The draw at position [q] ends the rejection loop of [Intn(n)]. *)
Definition Intn_accepts (src : Source) (n : Z) (q : nat) : bool :=
  (Z.land n (n - 1) =? 0)
  || (if n <=? 2 ^ 31 - 1
      then int31_at src q <=? 2 ^ 31 - 1 - 2 ^ 31 mod n
      else MathRand.src_Int63 src q <=? 2 ^ 63 - 1 - 2 ^ 63 mod n).

(** The number of binary digits of a non-negative integer. *)
Definition bitlen (x : Z) : Z := if x =? 0 then 0 else Z.log2 x + 1.

(** The buffer [b] of [String n] after [out] has been written to its first
    slots. *)
Definition buffer (n : Z) (out : list Byte.byte) : list Byte.byte :=
  out ++ replicate (Z.to_nat n - length out) Byte.x00.

(** The low [k] bits of the draw at position [q] are an index into [a]. *)
Definition slot_accepts (src : Source) (a : Xrand.gostring) (k : Z) (q : nat) : bool :=
  Z.land (MathRand.src_Int63 src q) (Z.ones k) <? Xrand.len a.

(** The draw at position [q] starts with an index into the alphabet [a]:
    the first symbol [String] takes from that draw is accepted. *)
Definition String_accepts (src : Source) (a : Xrand.gostring) (q : nat) : bool :=
  slot_accepts src a (Xrand.countBits (Xrand.len a)) q.

(** The rational number a finite float denotes (0 for the others). *)
Definition float_value (x : F64.float64) : Q :=
  match x with
  | S754_finite s m e =>
      let a := (inject_Z (Z.pos m) * Qpower 2 e)%Q in
      if s then Qopp a else a
  | _ => 0%Q
  end.

(** The [float64] 0.5. *)
Definition one_half : F64.float64 := S754_finite false 4503599627370496 (-53).

(** The [float64] nearest to 0.64, a little above it. *)
Definition factor_0_64 : F64.float64 := S754_finite false 5764607523034235 (-53).

(** The stream whose every draw is [2^63 - 513], the greatest draw that
    [Float64] keeps: its quotient is [1 - 2^-53]. *)
Definition greatest_kept : Source := fun _ => 2 ^ 63 - 513.

(** *** Notions for the bound on the jitter *)

(** Powers of two with an integer exponent, and the number [m * 2^e]. *)
Definition pow2 (e : Z) : Q := Qpower 2 e.
Definition dyadic (m e : Z) : Q := (inject_Z m * pow2 e)%Q.

(** The relative spacing of [float64] numbers, and the least positive one. *)
Definition eps : Q := pow2 (-52).
Definition eta : Q := pow2 (-1074).

(** The magnitude of a float is at most [B], unless the float is an
    infinity or NaN. *)
Definition fbound (B : Q) (x : spec_float) : Prop :=
  match x with
  | S754_finite _ m e => (dyadic (Z.pos m) e <= B)%Q
  | _ => True
  end.

(** What the quotient of [Float64] is, for every draw: +0 or a positive
    float of at most 1. *)
Definition unit_float (u : spec_float) : Prop :=
  u = S754_zero false \/
  exists m e, u = S754_finite false m e /\ (dyadic (Z.pos m) e <= 1)%Q.

(** A zero, an infinity, or a positive float of at most [W]. *)
Definition nonneg_bound (W : Q) (x : spec_float) : Prop :=
  match x with
  | S754_finite s m e => s = false /\ (dyadic (Z.pos m) e <= W)%Q
  | S754_nan => False
  | _ => True
  end.

(** The bound on the magnitude of [randRange = 2*u - 1] as computed. *)
Definition range_bound : Q := ((2 * (1 + eps) + eta - 1) * (1 + eps) + eta)%Q.

(** Streams for the examples: a linear congruential sequence, and the
    stream whose every draw is zero. *)
Definition lcg : Source :=
  fun i => 6364136223846793005 * Z.of_nat i + 1442695040888963407.

Definition zeros : Source := fun _ => 0.

(** *** Notions for the closed forms *)

(** The value [Intn n] makes of the draw at position [q]: the high 31 bits
    of the draw for a bound that fits an [int32], the whole draw otherwise,
    reduced modulo [n]. *)
Definition Intn_value (src : Source) (n : Z) (q : nat) : Z :=
  (if n <=? 2 ^ 31 - 1 then int31_at src q else MathRand.src_Int63 src q) mod n.

(** The quotient [float64(r.Int63()) / (1 << 63)] that [Float64] computes
    from the draw at position [q]. *)
Definition Float64_at (src : Source) (q : nat) : F64.float64 :=
  F64.div (F64.of_int (MathRand.src_Int63 src q)) (F64.of_int (2 ^ 63)).

(** The quotient is 1: [Float64] discards the draw and draws again. *)
Definition Float64_retries (src : Source) (q : nat) : bool :=
  F64.eqb (Float64_at src q) F64.one.

(** The stream that starts with the draws [l] and goes on with zeros. *)
Definition stream_of (l : list Z) : Source := fun i => nth i l 0.

(** The [j]-th index that [String] reads from the draws that start at
    position [pos], for a bit width [k]: every draw is cut into [63 / k]
    fields of [k] bits, the lowest first, and what is left of the draw is
    discarded. *)
Definition slot (src : Source) (k : Z) (pos j : nat) : Z :=
  let slots := Z.to_nat (Z.quot 63 k) in
  Z.land (Z.shiftr (MathRand.src_Int63 src (pos + j / slots))
                   (k * Z.of_nat (j mod slots)))
         (Z.ones k).

(** The symbols of [a] that the first [t] indexes select, in order; an
    index beyond the alphabet selects none. *)
Definition selected (src : Source) (a : Xrand.gostring) (k : Z) (pos t : nat)
    : list Byte.byte :=
  omap (fun j => a !! Z.to_nat (slot src k pos j)) (seq 0 t).

(** The candidate [duration + jitter] that [Jitter] computes from the draw
    at position [q]. *)
Definition Jitter_candidate (src : Source) (duration : Z) (factor : F64.float64)
    (q : nat) : Z :=
  Int64.wrap (duration + Xrand.jitterOf duration factor (Float64_at src q)).

(** The record that [k] right shifts of the mantissa [mant] leave: the
    quotient, and a round bit that tells whether what is shifted out is at
    least half a unit. *)
Definition shifted (mant k : Z) (mrs : shr_record) : Prop :=
  shr_m mrs = mant / 2 ^ k /\
  (shr_r mrs = true <-> 1 <= k /\ 2 ^ (k - 1) <= mant mod 2 ^ k).

(** The end of [binary_round_aux]: the rounded mantissa is renormalised
    and checked against the largest exponent. *)
Definition round_tail (s : bool) (m2 e1 : Z) : spec_float :=
  let '(mrs2, e2) := shr_fexp 53 1024 m2 e1 loc_Exact in
  match shr_m mrs2 with
  | 0 => S754_zero s
  | Z.pos m' => if e2 <=? 1024 - 53 then S754_finite s m' e2 else S754_infinity s
  | Z.neg _ => S754_nan
  end.

(** A float that is not positive: a zero, or a negative number or
    infinity. *)
Definition nonpos (x : spec_float) : Prop :=
  match x with
  | S754_zero _ | S754_finite true _ _ | S754_infinity true => True
  | _ => False
  end.

(** A zero or a finite number: neither an infinity nor NaN. *)
Definition finite (x : spec_float) : Prop :=
  match x with
  | S754_zero _ | S754_finite _ _ _ => True
  | _ => False
  end.

(** * Properties *)

(** ** Wrap-around arithmetic *)

Lemma wrap_range z : Int64.in_range (Int64.wrap z).
Proof.
  unfold Int64.in_range, Int64.wrap, Int64.min_int, Int64.max_int.
  pose proof (Z.mod_pos_bound (z + 2 ^ 63) (2 ^ 64)); lia.
Qed.

Lemma wrap_id z : Int64.in_range z -> Int64.wrap z = z.
Proof.
  unfold Int64.in_range, Int64.wrap, Int64.min_int, Int64.max_int; intros H.
  rewrite Z.mod_small; lia.
Qed.

Lemma wrap_above z :
  Int64.max_int < z <= Int64.max_int + 2 ^ 64 -> Int64.wrap z = z - 2 ^ 64.
Proof.
  unfold Int64.wrap, Int64.max_int; intros H.
  replace (z + 2 ^ 63) with ((z - 2 ^ 64 + 2 ^ 63) + 1 * 2 ^ 64) by ring.
  rewrite Z.mod_add by lia. rewrite Z.mod_small; lia.
Qed.

Lemma wrap_below z :
  Int64.min_int - 2 ^ 64 <= z < Int64.min_int -> Int64.wrap z = z + 2 ^ 64.
Proof.
  unfold Int64.wrap, Int64.min_int; intros H.
  replace (z + 2 ^ 63) with ((z + 2 ^ 64 + 2 ^ 63) + (-1) * 2 ^ 64) by ring.
  rewrite Z.mod_add by lia. rewrite Z.mod_small; lia.
Qed.

(** ** The seed *)

Lemma byte_val_range x : 0 <= byte_val x < 256.
Proof.
  unfold byte_val. pose proof (Byte.to_N_bounded x). lia.
Qed.

Lemma le_value_range b : 0 <= le_value b < 256 ^ Z.of_nat (length b).
Proof.
  induction b as [|x b IH].
  - simpl. lia.
  - cbn [le_value fold_right length]. fold (le_value b).
    rewrite Nat2Z.inj_succ, Z.pow_succ_r by lia.
    pose proof (byte_val_range x). lia.
Qed.

Lemma lor_shiftl_add a b n :
  0 <= n -> 0 <= a < 2 ^ n -> Z.lor a (Z.shiftl b n) = a + b * 2 ^ n.
Proof.
  intros Hn Ha.
  pose proof (Z.add_lor_land a (Z.shiftl b n)) as Hadd.
  assert (E : Z.land a (Z.shiftl b n) = 0).
  { rewrite <- (Z.mod_small a (2 ^ n)) by lia.
    rewrite <- Z.land_ones by lia.
    rewrite <- Z.land_assoc, (Z.land_comm (Z.ones n)), Z.land_ones by lia.
    rewrite Z.shiftl_mul_pow2 by lia.
    assert (0 < 2 ^ n) by (apply Z.pow_pos_nonneg; lia).
    rewrite Z.mod_mul by lia. apply Z.land_0_r. }
  rewrite E, Z.add_0_r in Hadd. rewrite Hadd.
  rewrite Z.shiftl_mul_pow2 by lia. reflexivity.
Qed.

Lemma LittleEndian_Uint64_value (b : vec Byte.byte 8) :
  LittleEndian_Uint64 (vec_to_list b) = Some (le_value (vec_to_list b)).
Proof.
  inv_vec b; intros b0 b1 b2 b3 b4 b5 b6 b7.
  cbn [vec_to_list LittleEndian_Uint64 le_value fold_right]. f_equal.
  pose proof (byte_val_range b0). pose proof (byte_val_range b1).
  pose proof (byte_val_range b2). pose proof (byte_val_range b3).
  pose proof (byte_val_range b4). pose proof (byte_val_range b5).
  pose proof (byte_val_range b6). pose proof (byte_val_range b7).
  rewrite (lor_shiftl_add _ _ 8) by lia.
  rewrite (lor_shiftl_add _ _ 16) by lia.
  rewrite (lor_shiftl_add _ _ 24) by lia.
  rewrite (lor_shiftl_add _ _ 32) by lia.
  rewrite (lor_shiftl_add _ _ 40) by lia.
  rewrite (lor_shiftl_add _ _ 48) by lia.
  rewrite (lor_shiftl_add _ _ 56) by lia.
  lia.
Qed.

(** C7. When the secure source succeeds, [getRandSeed] returns the 8 bytes
    read as a little-endian unsigned 64-bit integer, masked with
    0x7FFFFFFFFFFFFFFF, which is that integer with its sign bit cleared, a
    non-negative value below 2^63; when the secure read fails, it returns
    the wall-clock time in nanoseconds. *)
Theorem getRandSeed_spec (b : vec Byte.byte 8) (now : Z) :
  let u := le_value (vec_to_list b) in
  0 <= u < 2 ^ 64 /\
  Xrand.getRandSeed (Xrand.ReadOk b) now = Some (Z.land u 0x7FFFFFFFFFFFFFFF) /\
  Z.land u 0x7FFFFFFFFFFFFFFF = u mod 2 ^ 63 /\
  Z.testbit (Z.land u 0x7FFFFFFFFFFFFFFF) 63 = false /\
  0 <= Z.land u 0x7FFFFFFFFFFFFFFF < 2 ^ 63 /\
  Xrand.getRandSeed Xrand.ReadErr now = Some now.
Proof.
  intros u.
  assert (Hu : 0 <= u < 2 ^ 64).
  { pose proof (le_value_range (vec_to_list b)) as H.
    rewrite length_vec_to_list in H. exact H. }
  assert (Hm : Z.land u 0x7FFFFFFFFFFFFFFF = u mod 2 ^ 63).
  { change 0x7FFFFFFFFFFFFFFF with (Z.ones 63). apply Z.land_ones. lia. }
  assert (Hr : 0 <= Z.land u 0x7FFFFFFFFFFFFFFF < 2 ^ 63).
  { rewrite Hm. apply Z.mod_pos_bound. lia. }
  split; [exact Hu|]. split.
  - unfold Xrand.getRandSeed. rewrite LittleEndian_Uint64_value. fold u.
    f_equal. change (2 ^ 63 - 1) with 0x7FFFFFFFFFFFFFFF.
    apply wrap_id. unfold Int64.in_range, Int64.min_int, Int64.max_int. lia.
  - split; [exact Hm|]. split; [|split; [exact Hr|reflexivity]].
    rewrite Hm. apply Z.mod_pow2_bits_high. lia.
Qed.

(** ** Reasoning about outcomes *)

Lemma safely_bind {A B} (P : A -> Prop) (Q : B -> Prop) (m : M A) (k : A -> M B) pos :
  safely P (m pos) ->
  (forall a pos', P a -> safely Q (k a pos')) ->
  safely Q (bind m k pos).
Proof.
  unfold bind. destruct (m pos) as [a pos'| |]; simpl; auto.
Qed.

Lemma safely_weaken {A} (P Q : A -> Prop) (r : result A) :
  (forall a, P a -> Q a) -> safely P r -> safely Q r.
Proof.
  destruct r; simpl; auto.
Qed.

(** ** math/rand *)

Lemma land_le_r a b : 0 <= a -> 0 <= b -> Z.land a b <= b.
Proof.
  intros Ha Hb.
  assert (E : Z.ldiff (Z.land a b) b = 0).
  { apply Z.bits_inj'. intros i Hi.
    rewrite Z.ldiff_spec, Z.land_spec, Z.bits_0.
    destruct (Z.testbit a i), (Z.testbit b i); reflexivity. }
  pose proof (Z.sub_nocarry_ldiff b (Z.land a b) E) as Hs.
  assert (0 <= Z.ldiff b (Z.land a b)) by (apply Z.ldiff_nonneg; lia).
  lia.
Qed.

Section MathRandFacts.
Variable src : Source.

Lemma src_Int63_range pos : 0 <= MathRand.src_Int63 src pos < 2 ^ 63.
Proof.
  unfold MathRand.src_Int63, MathRand.rngMask.
  change (2 ^ 63 - 1) with (Z.ones 63). rewrite Z.land_ones by lia.
  apply Z.mod_pos_bound. lia.
Qed.

Lemma shiftr32_range v : 0 <= v < 2 ^ 63 -> 0 <= Z.shiftr v 32 < 2 ^ 31.
Proof.
  intros Hv. rewrite Z.shiftr_div_pow2 by lia.
  split; [apply Z.div_pos; lia|].
  apply Z.div_lt_upper_bound; lia.
Qed.

Lemma Int63_safely pos :
  safely (fun v => 0 <= v < 2 ^ 63) (MathRand.Int63 src pos).
Proof.
  simpl. apply src_Int63_range.
Qed.

Lemma Int31_safely pos :
  safely (fun v => 0 <= v < 2 ^ 31) (MathRand.Int31 src pos).
Proof.
  unfold MathRand.Int31.
  apply safely_bind with (P := fun v => 0 <= v < 2 ^ 63); [apply Int63_safely|].
  intros a pos' Ha. simpl. apply shiftr32_range, Ha.
Qed.

Lemma Int31n_loop_safely fuel max v pos :
  0 <= v ->
  safely (fun v' => 0 <= v' <= max) (MathRand.Int31n_loop src fuel max v pos).
Proof.
  revert v pos. induction fuel as [|fuel IH]; intros v pos Hv; simpl; [exact I|].
  destruct (Z.gtb_spec v max).
  - apply safely_bind with (P := fun v => 0 <= v < 2 ^ 31); [apply Int31_safely|].
    intros a pos' Ha. apply IH. lia.
  - simpl. lia.
Qed.

Lemma Int63n_loop_safely fuel max v pos :
  0 <= v ->
  safely (fun v' => 0 <= v' <= max) (MathRand.Int63n_loop src fuel max v pos).
Proof.
  revert v pos. induction fuel as [|fuel IH]; intros v pos Hv; simpl; [exact I|].
  destruct (Z.gtb_spec v max).
  - apply safely_bind with (P := fun v => 0 <= v < 2 ^ 63); [apply Int63_safely|].
    intros a pos' Ha. apply IH. lia.
  - simpl. lia.
Qed.

Lemma Int31n_safely fuel n pos :
  0 < n -> safely (fun v => 0 <= v < n) (MathRand.Int31n src fuel n pos).
Proof.
  intros Hn. unfold MathRand.Int31n.
  destruct (Z.leb_spec n 0); [lia|].
  destruct (Z.land n (n - 1) =? 0).
  - apply safely_bind with (P := fun v => 0 <= v < 2 ^ 31); [apply Int31_safely|].
    intros a pos' Ha. simpl.
    pose proof (land_le_r a (n - 1)).
    assert (0 <= Z.land a (n - 1)) by (apply Z.land_nonneg; lia). lia.
  - apply safely_bind with (P := fun v => 0 <= v < 2 ^ 31); [apply Int31_safely|].
    intros a pos' Ha.
    apply safely_bind with (P := fun v => 0 <= v <= 2 ^ 31 - 1 - 2 ^ 31 mod n).
    + apply Int31n_loop_safely. lia.
    + intros v pos'' Hv. simpl. apply Z.rem_bound_pos; lia.
Qed.

Lemma Int63n_safely fuel n pos :
  0 < n -> safely (fun v => 0 <= v < n) (MathRand.Int63n src fuel n pos).
Proof.
  intros Hn. unfold MathRand.Int63n.
  destruct (Z.leb_spec n 0); [lia|].
  destruct (Z.land n (n - 1) =? 0).
  - apply safely_bind with (P := fun v => 0 <= v < 2 ^ 63); [apply Int63_safely|].
    intros a pos' Ha. simpl.
    pose proof (land_le_r a (n - 1)).
    assert (0 <= Z.land a (n - 1)) by (apply Z.land_nonneg; lia). lia.
  - apply safely_bind with (P := fun v => 0 <= v < 2 ^ 63); [apply Int63_safely|].
    intros a pos' Ha.
    apply safely_bind with (P := fun v => 0 <= v <= 2 ^ 63 - 1 - 2 ^ 63 mod n).
    + apply Int63n_loop_safely. lia.
    + intros v pos'' Hv. simpl. apply Z.rem_bound_pos; lia.
Qed.

Lemma MathRand_Intn_safely fuel n pos :
  0 < n -> safely (fun v => 0 <= v < n) (MathRand.Intn src fuel n pos).
Proof.
  intros Hn. unfold MathRand.Intn.
  destruct (Z.leb_spec n 0); [lia|].
  destruct (n <=? 2 ^ 31 - 1); [apply Int31n_safely | apply Int63n_safely]; lia.
Qed.

Lemma MathRand_Intn_panics fuel n pos :
  n <= 0 -> MathRand.Intn src fuel n pos = Panic InvalidArgument.
Proof.
  intros Hn. unfold MathRand.Intn.
  destruct (Z.leb_spec n 0); [reflexivity | lia].
Qed.

End MathRandFacts.

(** *** Termination of the rejection loops

    A rejection loop ends at the first draw it accepts: it returns within
    the iteration budget as soon as the stream holds an accepted draw. *)

Section MathRandReturns.
Variable src : Source.

Lemma Int31n_loop_returns max d : forall v pos fuel,
  v <= max \/ (exists q, (pos <= q < pos + d)%nat /\ int31_at src q <= max) ->
  (d < fuel)%nat ->
  returns (MathRand.Int31n_loop src fuel max v pos).
Proof.
  induction d as [|d IH]; intros v pos fuel H Hf.
  - destruct fuel as [|fuel]; [lia|]. simpl.
    destruct H as [H|[q [Hq _]]]; [|lia].
    destruct (Z.gtb_spec v max); [lia|]. eexists _, _; reflexivity.
  - destruct fuel as [|fuel]; [lia|]. simpl.
    destruct (Z.gtb_spec v max) as [Hgt|Hle]; [|eexists _, _; reflexivity].
    destruct H as [H|[q [Hq Hacc]]]; [lia|].
    unfold MathRand.Int31, MathRand.Int63, bind, ret.
    apply IH; [|lia].
    destruct (decide (q = pos)) as [->|Hne]; [left; exact Hacc|].
    right. exists q. split; [lia|exact Hacc].
Qed.

Lemma Int63n_loop_returns max d : forall v pos fuel,
  v <= max \/ (exists q, (pos <= q < pos + d)%nat /\ MathRand.src_Int63 src q <= max) ->
  (d < fuel)%nat ->
  returns (MathRand.Int63n_loop src fuel max v pos).
Proof.
  induction d as [|d IH]; intros v pos fuel H Hf.
  - destruct fuel as [|fuel]; [lia|]. simpl.
    destruct H as [H|[q [Hq _]]]; [|lia].
    destruct (Z.gtb_spec v max); [lia|]. eexists _, _; reflexivity.
  - destruct fuel as [|fuel]; [lia|]. simpl.
    destruct (Z.gtb_spec v max) as [Hgt|Hle]; [|eexists _, _; reflexivity].
    destruct H as [H|[q [Hq Hacc]]]; [lia|].
    unfold MathRand.Int63, bind, ret.
    apply IH; [|lia].
    destruct (decide (q = pos)) as [->|Hne]; [left; exact Hacc|].
    right. exists q. split; [lia|exact Hacc].
Qed.

Lemma returns_bind_ret {A B} (m : M A) (f : A -> B) pos :
  returns (m pos) -> returns (bind m (fun a => ret (f a)) pos).
Proof.
  intros (a & pos' & E). unfold bind. rewrite E. eexists _, _; reflexivity.
Qed.

Lemma MathRand_Intn_returns n pos q fuel :
  0 < n -> (pos <= q)%nat -> Intn_accepts src n q = true -> (q - pos < fuel)%nat ->
  returns (MathRand.Intn src fuel n pos).
Proof.
  intros Hn Hq Hacc Hf. unfold MathRand.Intn, Intn_accepts in *.
  destruct (Z.leb_spec n 0); [lia|].
  destruct (n <=? 2 ^ 31 - 1).
  - unfold MathRand.Int31n. destruct (Z.leb_spec n 0); [lia|].
    destruct (Z.land n (n - 1) =? 0); [eexists _, _; reflexivity|].
    simpl in Hacc. apply Z.leb_le in Hacc.
    unfold MathRand.Int31 at 1. unfold MathRand.Int63, bind at 1 2, ret at 1.
    apply returns_bind_ret.
    apply Int31n_loop_returns with (d := (q - pos)%nat); [|lia].
    destruct (decide (q = pos)) as [->|Hne]; [left; exact Hacc|].
    right. exists q. split; [lia|exact Hacc].
  - unfold MathRand.Int63n. destruct (Z.leb_spec n 0); [lia|].
    destruct (Z.land n (n - 1) =? 0); [eexists _, _; reflexivity|].
    simpl in Hacc. apply Z.leb_le in Hacc.
    unfold MathRand.Int63 at 1. unfold bind at 1.
    apply returns_bind_ret.
    apply Int63n_loop_returns with (d := (q - pos)%nat); [|lia].
    destruct (decide (q = pos)) as [->|Hne]; [left; exact Hacc|].
    right. exists q. split; [lia|exact Hacc].
Qed.

End MathRandReturns.

(** A draw of zero ends every rejection loop of [Intn]. *)
Lemma Intn_accepts_zero src n q :
  0 < n <= Int64.max_int -> MathRand.src_Int63 src q = 0 ->
  Intn_accepts src n q = true.
Proof.
  intros Hn E. unfold Intn_accepts, int31_at. rewrite E.
  apply orb_true_iff. right. unfold Int64.max_int in Hn.
  destruct (Z.leb_spec n (2 ^ 31 - 1)); apply Z.leb_le.
  - pose proof (Z.mod_pos_bound (2 ^ 31) n ltac:(lia)).
    change (Z.shiftr 0 32) with 0. lia.
  - pose proof (Z.mod_pos_bound (2 ^ 63) n ltac:(lia)). lia.
Qed.

(** ** Intn and IntnBetween *)

(** C5. For every [n > 0], [Intn n] does not panic and every value it
    returns lies in [[0, n)]; it returns as soon as the stream holds a draw
    that its rejection loop accepts.  For every [n <= 0] it panics with the
    invalid-argument panic of [math/rand]. *)
Theorem Intn_range (globalRand : Source) (n : Z) :
  (0 < n ->
     (forall fuel pos,
        safely (fun v => 0 <= v < n) (Xrand.Intn globalRand fuel n pos)) /\
     (forall pos q fuel,
        (pos <= q)%nat -> Intn_accepts globalRand n q = true ->
        (q - pos < fuel)%nat ->
        exists v pos', Xrand.Intn globalRand fuel n pos = Ok v pos' /\ 0 <= v < n)) /\
  (n <= 0 ->
     forall fuel pos, Xrand.Intn globalRand fuel n pos = Panic InvalidArgument).
Proof.
  split.
  - intros Hn. split.
    + intros fuel pos. apply MathRand_Intn_safely, Hn.
    + intros pos q fuel Hq Hacc Hf.
      destruct (MathRand_Intn_returns globalRand n pos q fuel Hn Hq Hacc Hf)
        as (v & pos' & E).
      exists v, pos'. split; [exact E|].
      pose proof (MathRand_Intn_safely globalRand fuel n pos Hn) as Hs.
      unfold Xrand.Intn. rewrite E in Hs. exact Hs.
  - intros Hn fuel pos. apply MathRand_Intn_panics, Hn.
Qed.

Lemma Intn_range_witness :
  (exists v pos', Xrand.Intn lcg 3 10 0%nat = Ok v pos' /\ 0 <= v < 10) /\
  Xrand.Intn lcg 3 0 0%nat = Panic InvalidArgument.
Proof.
  split.
  - apply (proj1 (Intn_range lcg 10)) with (q := 0%nat);
      [lia | lia | vm_compute; reflexivity | lia].
  - apply (proj2 (Intn_range lcg 0)). lia.
Defined.

Lemma IntnBetween_unfold src fuel min max pos :
  Xrand.IntnBetween src fuel min max pos =
  (do v <- Xrand.Intn src fuel (Int64.wrap (max - min));
   ret (Int64.wrap (v + min))) pos.
Proof. reflexivity. Qed.

(** C6, as the code has it.  When [max - min] fits an [int], that is
    [max - min <= MaxInt], and [min < max], [IntnBetween min max] is
    [Intn (max - min) + min] on the same draws, does not panic, returns
    only values in [[min, max)], and returns as soon as [Intn (max - min)]
    does; when [max <= min] and [max - min] does not wrap, it panics with
    the panic of [Intn] on a non-positive bound. *)
Theorem IntnBetween_range (globalRand : Source) (min max : Z) :
  Int64.in_range min -> Int64.in_range max ->
  (min < max -> max - min <= Int64.max_int ->
     (forall fuel pos,
        Xrand.IntnBetween globalRand fuel min max pos =
        (do v <- Xrand.Intn globalRand fuel (max - min); ret (v + min)) pos) /\
     (forall fuel pos,
        safely (fun v => min <= v < max)
          (Xrand.IntnBetween globalRand fuel min max pos)) /\
     (forall pos q fuel,
        (pos <= q)%nat -> Intn_accepts globalRand (max - min) q = true ->
        (q - pos < fuel)%nat ->
        exists v pos',
          Xrand.IntnBetween globalRand fuel min max pos = Ok v pos' /\
          min <= v < max)) /\
  (max <= min -> Int64.min_int <= max - min ->
     forall fuel pos,
       Xrand.IntnBetween globalRand fuel min max pos = Panic InvalidArgument /\
       Xrand.Intn globalRand fuel (max - min) pos = Panic InvalidArgument).
Proof.
  intros Hmin Hmax. unfold Int64.in_range, Int64.min_int, Int64.max_int in *.
  split.
  - intros Hlt Hfit.
    assert (Hw : Int64.wrap (max - min) = max - min).
    { apply wrap_id. unfold Int64.in_range, Int64.min_int, Int64.max_int. lia. }
    assert (Heq : forall fuel pos,
      Xrand.IntnBetween globalRand fuel min max pos =
      (do v <- Xrand.Intn globalRand fuel (max - min); ret (v + min)) pos).
    { intros fuel pos. rewrite IntnBetween_unfold, Hw.
      pose proof (MathRand_Intn_safely globalRand fuel (max - min) pos) as Hs.
      unfold bind, Xrand.Intn.
      destruct (MathRand.Intn globalRand fuel (max - min) pos) as [v pos'| |];
        try reflexivity.
      simpl in Hs. unfold ret. f_equal. apply wrap_id.
      unfold Int64.in_range, Int64.min_int, Int64.max_int. lia. }
    assert (Hsafe : forall fuel pos,
      safely (fun v => min <= v < max)
        (Xrand.IntnBetween globalRand fuel min max pos)).
    { intros fuel pos. rewrite Heq.
      apply safely_bind with (P := fun v => 0 <= v < max - min).
      - apply MathRand_Intn_safely. lia.
      - intros a pos' Ha. simpl. lia. }
    split; [exact Heq|]. split; [exact Hsafe|].
    intros pos q fuel Hq Hacc Hf.
    destruct (MathRand_Intn_returns globalRand (max - min) pos q fuel)
      as (v & pos' & E); try assumption; try lia.
    specialize (Hsafe fuel pos). rewrite Heq in *.
    unfold bind, Xrand.Intn in *. rewrite E in *. simpl in Hsafe.
    eexists _, _. split; [reflexivity|exact Hsafe].
  - intros Hle Hfit fuel pos.
    assert (Hw : Int64.wrap (max - min) = max - min).
    { apply wrap_id. unfold Int64.in_range, Int64.min_int, Int64.max_int. lia. }
    rewrite IntnBetween_unfold, Hw. unfold bind, Xrand.Intn.
    rewrite MathRand_Intn_panics by lia. split; reflexivity.
Qed.

Lemma IntnBetween_range_witness :
  (exists v pos', Xrand.IntnBetween lcg 3 3 10 0%nat = Ok v pos' /\ 3 <= v < 10) /\
  Xrand.IntnBetween lcg 3 10 3 0%nat = Panic InvalidArgument.
Proof.
  assert (H3 : Int64.in_range 3) by (vm_compute; split; discriminate).
  assert (H10 : Int64.in_range 10) by (vm_compute; split; discriminate).
  split.
  - destruct (proj1 (IntnBetween_range lcg 3 10 H3 H10)) as (_ & _ & H);
      [lia | vm_compute; discriminate |].
    apply (H 0%nat 0%nat 3%nat); [lia | vm_compute; reflexivity | lia].
  - apply (proj2 (IntnBetween_range lcg 10 3 H10 H3));
      [lia | vm_compute; discriminate].
Defined.

(** C6 fails as stated: with [min = MinInt] and [max = MaxInt] the
    precondition [min < max] holds and the call panics; with [min = MaxInt]
    and [max = MinInt], where [max <= min], the call returns. *)
Lemma IntnBetween_extremes :
  Int64.min_int < Int64.max_int /\
  Xrand.IntnBetween lcg 3 Int64.min_int Int64.max_int 0%nat = Panic InvalidArgument /\
  Int64.min_int <= Int64.max_int /\
  Xrand.IntnBetween lcg 3 Int64.max_int Int64.min_int 0%nat = Ok Int64.max_int 1%nat.
Proof.
  repeat split; vm_compute; congruence.
Qed.

(** C10. Whenever the exact difference [max - min] exceeds [MaxInt] (then
    [min < max]), the subtraction wraps to a negative [int] and
    [IntnBetween] panics with the invalid-argument panic of [Intn]; this
    happens for [min = MinInt], [max = MaxInt]. *)
Theorem IntnBetween_wraps (globalRand : Source) (min max : Z) :
  Int64.in_range min -> Int64.in_range max -> Int64.max_int < max - min ->
  min < max /\
  Int64.wrap (max - min) = max - min - 2 ^ 64 /\
  Int64.wrap (max - min) <= 0 /\
  forall fuel pos,
    Xrand.IntnBetween globalRand fuel min max pos = Panic InvalidArgument /\
    Xrand.Intn globalRand fuel (Int64.wrap (max - min)) pos = Panic InvalidArgument.
Proof.
  intros Hmin Hmax Hov.
  assert (Hw : Int64.wrap (max - min) = max - min - 2 ^ 64).
  { apply wrap_above.
    unfold Int64.in_range, Int64.min_int, Int64.max_int in *. lia. }
  unfold Int64.in_range, Int64.min_int, Int64.max_int in *.
  split; [lia|]. split; [exact Hw|]. split; [lia|].
  intros fuel pos. rewrite IntnBetween_unfold. unfold bind, Xrand.Intn.
  rewrite MathRand_Intn_panics by lia. split; reflexivity.
Qed.

Lemma IntnBetween_wraps_witness :
  Int64.min_int < Int64.max_int /\
  Int64.wrap (Int64.max_int - Int64.min_int) = -1 /\
  forall fuel pos,
    Xrand.IntnBetween lcg fuel Int64.min_int Int64.max_int pos = Panic InvalidArgument.
Proof.
  assert (Hlo : Int64.in_range Int64.min_int) by (vm_compute; split; discriminate).
  assert (Hhi : Int64.in_range Int64.max_int) by (vm_compute; split; discriminate).
  assert (Hov : Int64.max_int < Int64.max_int - Int64.min_int) by reflexivity.
  destruct (IntnBetween_wraps lcg _ _ Hlo Hhi Hov) as (H1 & H2 & _ & H4).
  split; [exact H1|]. split; [rewrite H2; reflexivity|].
  intros fuel pos. apply H4.
Defined.

(** ** countBits and the index mask *)

Lemma bitlen_shiftr x : 0 < x -> bitlen x = bitlen (Z.shiftr x 1) + 1.
Proof.
  intros Hx. unfold bitlen.
  destruct (Z.eqb_spec x 0); [lia|].
  destruct (Z.eqb_spec (Z.shiftr x 1) 0) as [E|E].
  - rewrite Z.shiftr_div_pow2 in E by lia. change (2 ^ 1) with 2 in E.
    assert (x = 1) by (pose proof (Z.div_mod x 2); pose proof (Z.mod_pos_bound x 2); lia).
    subst x. reflexivity.
  - rewrite Z.log2_shiftr by lia.
    rewrite Z.shiftr_div_pow2 in E by lia. change (2 ^ 1) with 2 in E.
    assert (2 <= x).
    { destruct (Z.le_gt_cases 2 x); [assumption|].
      exfalso. apply E. apply Z.div_small. lia. }
    pose proof (Z.log2_le_mono 2 x ltac:(lia)) as Hl. change (Z.log2 2) with 1 in Hl.
    lia.
Qed.

Lemma countBits_loop_bitlen rounds : forall x bitsNo,
  0 <= x < 2 ^ Z.of_nat rounds -> 0 <= bitsNo ->
  bitsNo + Z.of_nat rounds <= Int64.max_int ->
  Xrand.countBits_loop rounds x bitsNo = bitsNo + bitlen x.
Proof.
  induction rounds as [|rounds IH]; intros x bitsNo Hx Hb Hmax.
  - simpl in *. assert (x = 0) by lia. subst x. simpl. unfold bitlen. simpl. lia.
  - cbn [Xrand.countBits_loop].
    destruct (Z.ltb_spec 0 x) as [Hpos|Hzero].
    + rewrite wrap_id
        by (unfold Int64.in_range, Int64.min_int, Int64.max_int in *; lia).
      rewrite IH.
      * rewrite (bitlen_shiftr x Hpos). lia.
      * rewrite Z.shiftr_div_pow2 by lia. change (2 ^ 1) with 2.
        rewrite Nat2Z.inj_succ, Z.pow_succ_r in Hx by lia.
        split; [apply Z.div_pos; lia|].
        apply Z.div_lt_upper_bound; lia.
      * lia.
      * lia.
    + assert (x = 0) by lia. subst x. unfold bitlen. simpl. lia.
Qed.

Lemma bitlen_range x : 0 <= x < 2 ^ 63 -> 0 <= bitlen x <= 63.
Proof.
  intros Hx. unfold bitlen. destruct (Z.eqb_spec x 0); [lia|].
  pose proof (Z.log2_nonneg x).
  assert (Z.log2 x < 63) by (apply Z.log2_lt_pow2; lia). lia.
Qed.

(** [countBits x] is the number of binary digits of [x - 1]: the least [k]
    with [x <= 2^k]. *)
Lemma countBits_bitlen x :
  1 <= x <= Int64.max_int -> Xrand.countBits x = bitlen (x - 1).
Proof.
  intros Hx. unfold Xrand.countBits.
  unfold Int64.max_int in Hx.
  rewrite wrap_id by (unfold Int64.in_range, Int64.min_int, Int64.max_int; lia).
  rewrite countBits_loop_bitlen.
  - lia.
  - change (2 ^ Z.of_nat 64) with (2 ^ 64). lia.
  - lia.
  - vm_compute. discriminate.
Qed.

Lemma countBits_log2_up x :
  1 <= x <= Int64.max_int -> Xrand.countBits x = Z.log2_up x.
Proof.
  intros Hx. rewrite countBits_bitlen by assumption. unfold bitlen.
  destruct (Z.eqb_spec (x - 1) 0) as [E|E].
  - assert (x = 1) by lia. subst x. reflexivity.
  - rewrite Z.log2_up_eqn by lia. unfold Z.pred, Z.succ. reflexivity.
Qed.

Lemma countBits_one : Xrand.countBits 1 = 0.
Proof. reflexivity. Qed.

(** For an alphabet of at least two symbols the bit width [k] is between 1
    and 63 and is the least with [size <= 2^k]. *)
Lemma countBits_bounds x :
  2 <= x <= Int64.max_int ->
  let k := Xrand.countBits x in
  1 <= k <= 63 /\ 2 ^ (k - 1) < x <= 2 ^ k.
Proof.
  intros Hx k. subst k. rewrite countBits_log2_up by lia.
  pose proof (Z.log2_up_spec x ltac:(lia)) as Hs.
  pose proof (Z.log2_up_pos x ltac:(lia)).
  unfold Z.pred in Hs.
  replace (Z.log2_up x + -1) with (Z.log2_up x - 1) in Hs by lia.
  assert (Z.log2_up x <= 63).
  { apply Z.log2_up_le_pow2; [lia|]. unfold Int64.max_int in Hx. lia. }
  lia.
Qed.

Lemma mask_value k :
  0 <= k <= 63 -> Int64.wrap (Int64.wrap (Z.shiftl 1 k) - 1) = Z.ones k.
Proof.
  intros Hk. rewrite Z.ones_equiv, Z.shiftl_1_l. unfold Z.pred.
  destruct (Z.eq_dec k 63) as [->|Hne].
  - reflexivity.
  - assert (0 < 2 ^ k) by (apply Z.pow_pos_nonneg; lia).
    assert (2 ^ k <= 2 ^ 62) by (apply Z.pow_le_mono_r; lia).
    rewrite (wrap_id (2 ^ k))
      by (unfold Int64.in_range, Int64.min_int, Int64.max_int; lia).
    apply wrap_id. unfold Int64.in_range, Int64.min_int, Int64.max_int. lia.
Qed.

(** ** The loop of String *)

Section StringLoop.
Variable src : Source.
Variables (n : Z) (a : Xrand.gostring) (k : Z).
Hypothesis Hn : 0 <= n <= Int64.max_int.
Hypothesis Hk : 1 <= k <= 63.

Lemma slots_bounds : 1 <= Z.quot 63 k <= 63.
Proof.
  rewrite Z.quot_div_nonneg by lia. split.
  - apply Z.div_le_lower_bound; lia.
  - apply Z.div_le_upper_bound; lia.
Qed.

Lemma low_bits_range r : 0 <= r mod 2 ^ k < 2 ^ 63.
Proof.
  assert (0 < 2 ^ k) by (apply Z.pow_pos_nonneg; lia).
  assert (2 ^ k <= 2 ^ 63) by (apply Z.pow_le_mono_r; lia).
  pose proof (Z.mod_pos_bound r (2 ^ k)). lia.
Qed.

Lemma index_lookup (idx : Z) :
  0 <= idx ->
  Xrand.index a idx = a !! Z.to_nat idx /\
  ((idx <? Xrand.len a) = true <-> is_Some (a !! Z.to_nat idx)).
Proof.
  intros Hi. unfold Xrand.index, Xrand.len.
  destruct (Z.ltb_spec idx 0); [lia|]. split; [reflexivity|].
  rewrite lookup_lt_is_Some, Z.ltb_lt. lia.
Qed.

Lemma buffer_assign out c :
  Xrand.len out < n ->
  Xrand.assign (buffer n out) (Xrand.len out) c = Some (buffer n (out ++ [c])).
Proof.
  unfold Xrand.assign, buffer. unfold Xrand.len. intros Hlt.
  rewrite length_app, length_replicate.
  replace (0 <=? Z.of_nat (length out)) with true by (symmetry; apply Z.leb_le; lia).
  replace (Z.of_nat (length out) <? Z.of_nat (length out + (Z.to_nat n - length out)))
    with true by (symmetry; apply Z.ltb_lt; lia).
  simpl. f_equal. rewrite Nat2Z.id.
  rewrite insert_app_r_alt by lia. rewrite Nat.sub_diag.
  rewrite length_app. simpl.
  replace (Z.to_nat n - length out)%nat
    with (S (Z.to_nat n - (length out + 1)))%nat by lia.
  simpl. rewrite <- app_assoc. reflexivity.
Qed.

(** One round of the loop, with the buffer seen as the symbols emitted so
    far: a fresh draw when no slot remains, then the low [k] bits select a
    symbol or are rejected, and the draw is shifted. *)
Lemma String_loop_round fuel r remaining out pos :
  Xrand.len out < n -> 0 <= r < 2 ^ 63 -> 0 <= remaining <= Z.quot 63 k ->
  let r0 := if remaining =? 0 then MathRand.src_Int63 src pos else r in
  let remaining0 := if remaining =? 0 then Z.quot 63 k else remaining in
  let pos0 := if remaining =? 0 then S pos else pos in
  Xrand.String_loop src (S fuel) n a k (Z.ones k) (Z.quot 63 k)
    (Xrand.len out) r remaining (buffer n out) pos =
  Xrand.String_loop src fuel n a k (Z.ones k) (Z.quot 63 k)
    (Xrand.len (out ++ option_list (a !! Z.to_nat (r0 mod 2 ^ k))))
    (Z.shiftr r0 k) (remaining0 - 1)
    (buffer n (out ++ option_list (a !! Z.to_nat (r0 mod 2 ^ k)))) pos0.
Proof.
  intros Hi Hr Hrem r0 remaining0 pos0.
  pose proof slots_bounds as Hs.
  cbn [Xrand.String_loop].
  destruct (Z.ltb_spec (Xrand.len out) n); [|lia].
  assert (Hr0 : 0 <= r0 < 2 ^ 63).
  { subst r0. destruct (remaining =? 0); [apply src_Int63_range|exact Hr]. }
  assert (Hrem0 : 1 <= remaining0 <= Z.quot 63 k).
  { subst remaining0. destruct (Z.eqb_spec remaining 0); lia. }
  assert (Hdraw :
    (if remaining =? 0
     then do r1 <- MathRand.Int63 src; ret (r1, Z.quot 63 k)
     else ret (r, remaining)) pos = Ok (r0, remaining0) pos0).
  { subst r0 remaining0 pos0. destruct (remaining =? 0); reflexivity. }
  unfold bind at 1. rewrite Hdraw. cbn [fst snd].
  rewrite Z.land_ones by lia.
  pose proof (low_bits_range r0) as Hidx.
  rewrite (wrap_id (r0 mod 2 ^ k))
    by (unfold Int64.in_range, Int64.min_int, Int64.max_int; lia).
  rewrite (wrap_id (remaining0 - 1))
    by (unfold Int64.in_range, Int64.min_int, Int64.max_int; lia).
  destruct (index_lookup (r0 mod 2 ^ k) ltac:(lia)) as [Eidx Hsome].
  rewrite Eidx.
  destruct (a !! Z.to_nat (r0 mod 2 ^ k)) as [c|] eqn:El.
  - replace (r0 mod 2 ^ k <? Xrand.len a) with true
      by (symmetry; apply Hsome; eauto).
    rewrite buffer_assign by assumption.
    unfold bind, ret. cbn [fst snd option_list].
    rewrite wrap_id
      by (unfold Int64.in_range, Int64.min_int, Int64.max_int in *;
          unfold Xrand.len in *; lia).
    replace (Xrand.len out + 1) with (Xrand.len (out ++ [c]))
      by (unfold Xrand.len; rewrite length_app; simpl; lia).
    reflexivity.
  - replace (r0 mod 2 ^ k <? Xrand.len a) with false.
    + unfold bind, ret. cbn [fst snd option_list]. rewrite app_nil_r. reflexivity.
    + symmetry. apply not_true_is_false. intros Ht. apply Hsome in Ht.
      destruct Ht as [? ?]. discriminate.
Qed.

Lemma buffer_full out : Xrand.len out = n -> buffer n out = out.
Proof.
  unfold buffer, Xrand.len. intros E.
  replace (Z.to_nat n - length out)%nat with 0%nat by lia.
  simpl. apply app_nil_r.
Qed.

Lemma String_loop_exit fuel r remaining out pos :
  Xrand.len out = n ->
  Xrand.String_loop src (S fuel) n a k (Z.ones k) (Z.quot 63 k)
    (Xrand.len out) r remaining (buffer n out) pos = Ok out pos.
Proof.
  intros E. cbn [Xrand.String_loop].
  destruct (Z.ltb_spec (Xrand.len out) n); [lia|].
  rewrite buffer_full by assumption. reflexivity.
Qed.

Lemma len_snoc_option out (o : option Byte.byte) :
  Xrand.len out <= Xrand.len (out ++ option_list o) <= Xrand.len out + 1.
Proof.
  unfold Xrand.len. rewrite length_app. destruct o; simpl; lia.
Qed.

Lemma shiftr_range r : 0 <= r < 2 ^ 63 -> 0 <= Z.shiftr r k < 2 ^ 63.
Proof.
  intros Hr. rewrite Z.shiftr_div_pow2 by lia.
  assert (0 < 2 ^ k) by (apply Z.pow_pos_nonneg; lia).
  split; [apply Z.div_pos; lia|].
  apply Z.div_lt_upper_bound; [lia|]. nia.
Qed.

(** Whatever the draws, the loop does not panic, and what it returns has
    [n] symbols, all of them from the alphabet. *)
Lemma String_loop_safely fuel : forall r remaining out pos,
  Xrand.len out <= n -> 0 <= r < 2 ^ 63 -> 0 <= remaining <= Z.quot 63 k ->
  Forall (fun c => In c a) out ->
  safely (fun s => Xrand.len s = n /\ Forall (fun c => In c a) s)
    (Xrand.String_loop src fuel n a k (Z.ones k) (Z.quot 63 k)
       (Xrand.len out) r remaining (buffer n out) pos).
Proof.
  induction fuel as [|fuel IH]; intros r remaining out pos Hi Hr Hrem Hout;
    [exact I|].
  destruct (Z.eq_dec (Xrand.len out) n) as [E|E].
  - rewrite String_loop_exit by assumption. simpl. auto.
  - rewrite String_loop_round by lia.
    pose proof slots_bounds.
    set (r0 := if remaining =? 0 then MathRand.src_Int63 src pos else r).
    assert (Hr0 : 0 <= r0 < 2 ^ 63).
    { subst r0. destruct (remaining =? 0); [apply src_Int63_range|exact Hr]. }
    pose proof (len_snoc_option out (a !! Z.to_nat (r0 mod 2 ^ k))).
    apply IH.
    + lia.
    + apply shiftr_range, Hr0.
    + destruct (Z.eqb_spec remaining 0); lia.
    + apply Forall_app. split; [exact Hout|].
      destruct (a !! Z.to_nat (r0 mod 2 ^ k)) as [c|] eqn:El; simpl; [|constructor].
      constructor; [|constructor].
      apply list_elem_of_In. eapply list_elem_of_lookup_2. exact El.
Qed.

Lemma slot_accepts_lookup q :
  slot_accepts src a k q = true ->
  is_Some (a !! Z.to_nat (MathRand.src_Int63 src q mod 2 ^ k)).
Proof.
  unfold slot_accepts. rewrite Z.land_ones by lia. intros H.
  pose proof (low_bits_range (MathRand.src_Int63 src q)) as Hb.
  apply (index_lookup (MathRand.src_Int63 src q mod 2 ^ k) (proj1 Hb)). exact H.
Qed.

(** When accepted draws keep coming, the loop returns. *)
Lemma String_loop_returns :
  (forall p, exists q, (p <= q)%nat /\ slot_accepts src a k q = true) ->
  forall m r remaining out pos,
  (Z.to_nat n - length out = m)%nat ->
  Xrand.len out <= n -> 0 <= r < 2 ^ 63 -> 0 <= remaining <= Z.quot 63 k ->
  exists fuel0, forall fuel, (fuel0 <= fuel)%nat ->
    returns (Xrand.String_loop src fuel n a k (Z.ones k) (Z.quot 63 k)
               (Xrand.len out) r remaining (buffer n out) pos).
Proof.
  intros Hfair. pose proof slots_bounds as Hs.
  induction m as [|m IHm]; intros r remaining out pos Hm Hi Hr Hrem.
  - exists 1%nat. intros fuel Hf. destruct fuel as [|fuel]; [lia|].
    rewrite String_loop_exit by (unfold Xrand.len in *; lia).
    eexists _, _; reflexivity.
  - assert (Inner : forall t r remaining out pos q,
      (Z.to_nat n - length out = S m)%nat ->
      0 <= r < 2 ^ 63 -> 0 <= remaining <= Z.quot 63 k ->
      (pos <= q)%nat -> slot_accepts src a k q = true ->
      (Z.to_nat remaining + (q - pos) * Z.to_nat (Z.quot 63 k) <= t)%nat ->
      exists fuel0, forall fuel, (fuel0 <= fuel)%nat ->
        returns (Xrand.String_loop src fuel n a k (Z.ones k) (Z.quot 63 k)
                   (Xrand.len out) r remaining (buffer n out) pos)).
    { clear r remaining out pos Hm Hi Hr Hrem.
      induction t as [|t IHt]; intros r remaining out pos q Hm Hr Hrem Hq Hacc Ht.
      - assert (Z.to_nat remaining = 0)%nat by (apply Nat.le_0_r in Ht; nia).
        assert (remaining = 0) by lia. subst remaining.
        assert (q = pos).
        { apply Nat.le_0_r in Ht.
          assert (0 < Z.to_nat (Z.quot 63 k))%nat by lia. nia. }
        subst q.
        destruct (slot_accepts_lookup pos Hacc) as [c Hc].
        destruct (IHm (Z.shiftr (MathRand.src_Int63 src pos) k)
                    (Z.quot 63 k - 1) (out ++ [c]) (S pos)) as [fuel0 H0].
        + rewrite length_app. simpl. lia.
        + unfold Xrand.len in *. rewrite length_app. simpl. lia.
        + apply shiftr_range, src_Int63_range.
        + lia.
        + exists (S fuel0). intros fuel Hf. destruct fuel as [|fuel]; [lia|].
          rewrite String_loop_round by (unfold Xrand.len in *; lia).
          simpl. rewrite Hc. simpl. apply H0. lia.
      - set (r0 := if remaining =? 0 then MathRand.src_Int63 src pos else r).
        assert (Hr0 : 0 <= r0 < 2 ^ 63).
        { subst r0. destruct (remaining =? 0); [apply src_Int63_range|exact Hr]. }
        assert (Hfresh : remaining = 0 -> q = pos ->
                         is_Some (a !! Z.to_nat (r0 mod 2 ^ k))).
        { intros E0 E1. subst r0 q. rewrite E0. simpl.
          apply slot_accepts_lookup, Hacc. }
        destruct (a !! Z.to_nat (r0 mod 2 ^ k)) as [c|] eqn:El.
        + destruct (IHm (Z.shiftr r0 k)
                      ((if remaining =? 0 then Z.quot 63 k else remaining) - 1)
                      (out ++ [c]) (if remaining =? 0 then S pos else pos))
            as [fuel0 H0].
          * rewrite length_app. simpl. lia.
          * unfold Xrand.len in *. rewrite length_app. simpl. lia.
          * apply shiftr_range, Hr0.
          * destruct (Z.eqb_spec remaining 0); lia.
          * exists (S fuel0). intros fuel Hf. destruct fuel as [|fuel]; [lia|].
            rewrite String_loop_round by (unfold Xrand.len in *; lia).
            fold r0. rewrite El. simpl. apply H0. lia.
        + assert (Hstale : ~ (remaining = 0 /\ q = pos)).
          { intros [E0 E1]. destruct (Hfresh E0 E1) as [c Hc]. discriminate. }
          destruct (IHt (Z.shiftr r0 k)
                      ((if remaining =? 0 then Z.quot 63 k else remaining) - 1)
                      out (if remaining =? 0 then S pos else pos) q)
            as [fuel0 H0]; try assumption.
          * apply shiftr_range, Hr0.
          * destruct (Z.eqb_spec remaining 0); lia.
          * destruct (Z.eqb_spec remaining 0) as [E0|E0]; lia.
          * destruct (Z.eqb_spec remaining 0) as [E0|E0].
            -- assert (q <> pos) by tauto. subst remaining.
               replace (q - pos)%nat with (S (q - S pos))%nat in Ht by lia.
               simpl in Ht. lia.
            -- lia.
          * exists (S fuel0). intros fuel Hf. destruct fuel as [|fuel]; [lia|].
            rewrite String_loop_round by (unfold Xrand.len in *; lia).
            fold r0. rewrite El. simpl. rewrite app_nil_r. apply H0. lia. }
    destruct (Hfair pos) as (q & Hq & Hacc).
    eapply Inner; eauto.
Qed.

(** One round of the reference loop. *)
Lemma emit_round fuel r remaining out pos :
  Xrand.len out < n -> 0 <= r < 2 ^ 63 -> 0 <= remaining <= Z.quot 63 k ->
  let r0 := if remaining =? 0 then MathRand.src_Int63 src pos else r in
  let remaining0 := if remaining =? 0 then Z.quot 63 k else remaining in
  let pos0 := if remaining =? 0 then S pos else pos in
  Spec.emit src (S fuel) n a k (Z.shiftl 1 k - 1) (63 / k) out r remaining pos =
  Spec.emit src fuel n a k (Z.shiftl 1 k - 1) (63 / k)
    (out ++ option_list (a !! Z.to_nat (r0 mod 2 ^ k)))
    (Z.shiftr r0 k) (remaining0 - 1) pos0.
Proof.
  intros Hi Hr Hrem r0 remaining0 pos0.
  cbn [Spec.emit].
  destruct (Z.ltb_spec (Xrand.len out) n); [|lia].
  rewrite <- Z.quot_div_nonneg by lia.
  assert (Hdraw :
    (if remaining =? 0
     then do d <- MathRand.Int63 src; ret (d, Z.quot 63 k)
     else ret (r, remaining)) pos = Ok (r0, remaining0) pos0).
  { subst r0 remaining0 pos0. destruct (remaining =? 0); reflexivity. }
  unfold bind at 1. rewrite Hdraw. cbn [fst snd].
  replace (Z.shiftl 1 k - 1) with (Z.ones k)
    by (rewrite Z.ones_equiv, Z.shiftl_1_l; reflexivity).
  rewrite Z.land_ones by lia.
  pose proof (low_bits_range r0) as Hidx.
  destruct (index_lookup (r0 mod 2 ^ k) (proj1 Hidx)) as [_ Hsome].
  destruct (a !! Z.to_nat (r0 mod 2 ^ k)) as [c|] eqn:El.
  - replace (r0 mod 2 ^ k <? Xrand.len a) with true
      by (symmetry; apply Hsome; eauto).
    cbn [option_list].
    apply nth_lookup_Some with (d := Byte.x00) in El. rewrite El. reflexivity.
  - replace (r0 mod 2 ^ k <? Xrand.len a) with false.
    + cbn [option_list]. rewrite app_nil_r. reflexivity.
    + symmetry. apply not_true_is_false. intros Ht. apply Hsome in Ht.
      destruct Ht as [? ?]. discriminate.
Qed.

(** The loop of [String] and the reference loop run in lockstep: same
    draws, same symbols, same outcome for every iteration budget. *)
Lemma String_loop_emit fuel : forall r remaining out pos,
  Xrand.len out <= n -> 0 <= r < 2 ^ 63 -> 0 <= remaining <= Z.quot 63 k ->
  Xrand.String_loop src fuel n a k (Z.ones k) (Z.quot 63 k)
    (Xrand.len out) r remaining (buffer n out) pos =
  Spec.emit src fuel n a k (Z.shiftl 1 k - 1) (63 / k) out r remaining pos.
Proof.
  induction fuel as [|fuel IH]; intros r remaining out pos Hi Hr Hrem;
    [reflexivity|].
  destruct (Z.eq_dec (Xrand.len out) n) as [E|E].
  - rewrite String_loop_exit by assumption. cbn [Spec.emit].
    destruct (Z.ltb_spec (Xrand.len out) n); [lia|reflexivity].
  - rewrite String_loop_round, emit_round by lia.
    pose proof slots_bounds.
    set (r0 := if remaining =? 0 then MathRand.src_Int63 src pos else r).
    assert (Hr0 : 0 <= r0 < 2 ^ 63).
    { subst r0. destruct (remaining =? 0); [apply src_Int63_range|exact Hr]. }
    pose proof (len_snoc_option out (a !! Z.to_nat (r0 mod 2 ^ k))).
    apply IH.
    + lia.
    + apply shiftr_range, Hr0.
    + destruct (Z.eqb_spec remaining 0); lia.
Qed.

End StringLoop.

(** ** String *)

(** A draw of zero selects the first symbol of the alphabet. *)
Lemma String_accepts_zero src a q :
  1 <= Xrand.len a -> MathRand.src_Int63 src q = 0 ->
  String_accepts src a q = true.
Proof.
  intros Ha E. unfold String_accepts, slot_accepts. rewrite E, Z.land_0_l.
  apply Z.ltb_lt. lia.
Qed.

Lemma alphabetOf_head alphabet :
  Xrand.alphabetOf alphabet =
  match head alphabet with
  | Some a0 => if Xrand.len a0 =? 0 then Xrand.AlphanumAlphabet else a0
  | None => Xrand.AlphanumAlphabet
  end.
Proof.
  destruct alphabet as [|a0 rest]; [reflexivity|]. simpl.
  unfold Xrand.len. destruct a0; reflexivity.
Qed.

Lemma alphabetOf_nonempty alphabet : 1 <= Xrand.len (Xrand.alphabetOf alphabet).
Proof.
  destruct alphabet as [|a0 rest]; [vm_compute; discriminate|]. simpl.
  destruct (Z.ltb_spec 0 (Xrand.len a0)); [lia|vm_compute; discriminate].
Qed.

Lemma String_singleton src fuel n alphabet pos :
  Xrand.len (Xrand.alphabetOf alphabet) = 1 ->
  Xrand.String src fuel n alphabet pos = Panic DivideByZero.
Proof.
  intros E. unfold Xrand.String. rewrite E. reflexivity.
Qed.

Lemma String_run src fuel n alphabet pos :
  let a := Xrand.alphabetOf alphabet in
  let k := Xrand.countBits (Xrand.len a) in
  2 <= Xrand.len a <= Int64.max_int -> 0 <= n ->
  Xrand.String src fuel n alphabet pos =
  Xrand.String_loop src fuel n a k (Z.ones k) (Z.quot 63 k)
    (Xrand.len (@nil Byte.byte)) (MathRand.src_Int63 src pos) (Z.quot 63 k)
    (buffer n []) (S pos).
Proof.
  intros a k Ha Hn. unfold Xrand.String. fold a. fold k.
  destruct (countBits_bounds (Xrand.len a) Ha) as [Hk _]. fold k in Hk.
  destruct (Z.eqb_spec k 0); [lia|].
  destruct (Z.ltb_spec n 0); [lia|].
  rewrite mask_value by lia. unfold buffer. simpl. rewrite Nat.sub_0_r.
  reflexivity.
Qed.

Lemma String_safely src fuel n alphabet pos :
  let a := Xrand.alphabetOf alphabet in
  2 <= Xrand.len a <= Int64.max_int -> 0 <= n <= Int64.max_int ->
  safely (fun s => Xrand.len s = n /\ Forall (fun c => In c a) s)
    (Xrand.String src fuel n alphabet pos).
Proof.
  intros a Ha Hn. rewrite String_run by (fold a; lia). fold a.
  destruct (countBits_bounds (Xrand.len a) Ha) as [Hk Hpow].
  pose proof (slots_bounds _ Hk).
  apply String_loop_safely.
  - exact Hn.
  - exact Hk.
  - change (Xrand.len (@nil Byte.byte)) with 0. lia.
  - apply src_Int63_range.
  - lia.
  - constructor.
Qed.

Lemma String_returns src n alphabet pos :
  let a := Xrand.alphabetOf alphabet in
  2 <= Xrand.len a <= Int64.max_int -> 0 <= n <= Int64.max_int ->
  (forall p, exists q, (p <= q)%nat /\ String_accepts src a q = true) ->
  exists fuel0, forall fuel, (fuel0 <= fuel)%nat ->
    returns (Xrand.String src fuel n alphabet pos).
Proof.
  intros a Ha Hn Hfair.
  destruct (countBits_bounds (Xrand.len a) Ha) as [Hk Hpow].
  pose proof (slots_bounds _ Hk).
  destruct (String_loop_returns src n a _ Hn Hk Hfair
              (Z.to_nat n) (MathRand.src_Int63 src pos)
              (Z.quot 63 (Xrand.countBits (Xrand.len a))) [] (S pos))
    as [fuel0 H0].
  - simpl. lia.
  - change (Xrand.len (@nil Byte.byte)) with 0. lia.
  - apply src_Int63_range.
  - lia.
  - exists fuel0. intros fuel Hf. rewrite String_run by (fold a; lia).
    apply H0, Hf.
Qed.

(** C1. [String] uses the supplied alphabet when it is non-empty and the
    default alphanumeric alphabet otherwise.  When the alphabet used has at
    least two symbols, [String n] does not panic, whatever it returns has
    exactly [n] symbols, each a member of that alphabet, it returns whenever
    accepted draws keep coming, and for [n = 0] it returns the empty string.
    When the alphabet used has a single symbol, the call panics with a
    division by zero, whatever [n] is. *)
Theorem String_length_and_symbols (globalRand : Source) (n : Z)
    (alphabet : list Xrand.gostring) :
  let a := Xrand.alphabetOf alphabet in
  0 <= n <= Int64.max_int -> Xrand.len a <= Int64.max_int ->
  a = match head alphabet with
      | Some a0 => if Xrand.len a0 =? 0 then Xrand.AlphanumAlphabet else a0
      | None => Xrand.AlphanumAlphabet
      end /\
  (Xrand.len a <> 1 ->
     (forall fuel pos,
        safely (fun s => Xrand.len s = n /\ Forall (fun c => In c a) s)
          (Xrand.String globalRand fuel n alphabet pos)) /\
     ((forall p, exists q, (p <= q)%nat /\ String_accepts globalRand a q = true) ->
      forall pos, exists fuel0, forall fuel, (fuel0 <= fuel)%nat ->
        exists s pos',
          Xrand.String globalRand fuel n alphabet pos = Ok s pos' /\
          Xrand.len s = n /\ Forall (fun c => In c a) s) /\
     (n = 0 -> forall fuel pos,
        Xrand.String globalRand (S fuel) n alphabet pos = Ok [] (S pos))) /\
  (Xrand.len a = 1 ->
     forall fuel pos,
       Xrand.String globalRand fuel n alphabet pos = Panic DivideByZero).
Proof.
  intros a Hn Ha. pose proof (alphabetOf_nonempty alphabet) as H1. fold a in H1.
  split; [apply alphabetOf_head|]. split.
  - intros Hne. assert (Ha2 : 2 <= Xrand.len a <= Int64.max_int) by lia.
    split; [|split].
    + intros fuel pos. apply String_safely; assumption.
    + intros Hfair pos.
      destruct (String_returns globalRand n alphabet pos Ha2 Hn Hfair) as [fuel0 H0].
      exists fuel0. intros fuel Hf. destruct (H0 fuel Hf) as (s & pos' & E).
      exists s, pos'. split; [exact E|].
      pose proof (String_safely globalRand fuel n alphabet pos Ha2 Hn) as Hs.
      rewrite E in Hs. exact Hs.
    + intros -> fuel pos. rewrite String_run by (fold a; lia). reflexivity.
  - intros E fuel pos. apply String_singleton, E.
Qed.

Lemma String_length_and_symbols_witness :
  (exists fuel0, forall fuel, (fuel0 <= fuel)%nat ->
     exists s pos', Xrand.String zeros fuel 10 [] 0%nat = Ok s pos' /\
       Xrand.len s = 10 /\ Forall (fun c => In c Xrand.AlphanumAlphabet) s) /\
  Xrand.String zeros 5 10 [list_byte_of_string "a"] 0%nat = Panic DivideByZero.
Proof.
  split.
  - destruct (String_length_and_symbols zeros 10 []) as (_ & H & _);
      [vm_compute; split; discriminate | vm_compute; discriminate |].
    destruct H as (_ & H & _); [vm_compute; discriminate|].
    apply (H (fun p => ex_intro _ p (conj (Nat.le_refl p) eq_refl)) 0%nat).
  - destruct (String_length_and_symbols zeros 10 [list_byte_of_string "a"])
      as (_ & _ & H);
      [vm_compute; split; discriminate | vm_compute; discriminate |].
    apply H. reflexivity.
Defined.

(** C2. With [n >= 0], [String] panics exactly when the alphabet it uses
    has a single symbol: then [countBits] yields a bit width of 0 and
    [63 / alphabetIdxBits] is a division by zero.  For every alphabet of two
    or more symbols the bit width, the mask, the division and the indexing of
    the alphabet and of the buffer are all well defined. *)
Theorem String_panics_iff_single_symbol (globalRand : Source) (n : Z)
    (alphabet : list Xrand.gostring) (fuel : nat) (pos : nat) :
  let a := Xrand.alphabetOf alphabet in
  0 <= n <= Int64.max_int -> Xrand.len a <= Int64.max_int ->
  (panics (Xrand.String globalRand fuel n alphabet pos) <-> Xrand.len a = 1) /\
  (Xrand.len a = 1 ->
     Xrand.countBits (Xrand.len a) = 0 /\
     Xrand.String globalRand fuel n alphabet pos = Panic DivideByZero).
Proof.
  intros a Hn Ha. pose proof (alphabetOf_nonempty alphabet) as H1. fold a in H1.
  split; [split|].
  - intros [p Hp]. destruct (Z.eq_dec (Xrand.len a) 1) as [E|E]; [exact E|].
    pose proof (String_safely globalRand fuel n alphabet pos ltac:(fold a; lia) Hn) as Hs.
    rewrite Hp in Hs. destruct Hs.
  - intros E. exists DivideByZero. apply String_singleton, E.
  - intros E. split; [rewrite E; reflexivity|]. apply String_singleton, E.
Qed.

Lemma String_panics_iff_single_symbol_witness :
  Xrand.String lcg 5 3 [list_byte_of_string "a"] 0%nat = Panic DivideByZero /\
  ~ panics (Xrand.String lcg 5 3 [list_byte_of_string "ab"] 0%nat).
Proof.
  split.
  - apply (String_panics_iff_single_symbol lcg 3 [list_byte_of_string "a"] 5 0);
      [vm_compute; split; discriminate | vm_compute; discriminate | reflexivity].
  - intros Hp.
    apply (String_panics_iff_single_symbol lcg 3 [list_byte_of_string "ab"] 5 0)
      in Hp; [discriminate Hp | vm_compute; split; discriminate
             | vm_compute; discriminate].
Defined.

(** ** The reference algorithm *)

(** [bitsNeeded size] is the least [k >= 1] with [2^k >= size]. *)
Lemma bitsNeeded_least size :
  1 <= size ->
  let k := Spec.bitsNeeded size in
  1 <= k /\ size <= 2 ^ k /\ forall j, 1 <= j -> size <= 2 ^ j -> k <= j.
Proof.
  intros Hs k. subst k. unfold Spec.bitsNeeded.
  pose proof (Z.log2_up_nonneg size) as H0.
  split; [lia|]. split.
  - assert (size <= 2 ^ Z.log2_up size).
    { destruct (Z.eq_dec size 1) as [->|Hne]; [vm_compute; discriminate|].
      apply (Z.log2_up_spec size). lia. }
    assert (2 ^ Z.log2_up size <= 2 ^ Z.max 1 (Z.log2_up size))
      by (apply Z.pow_le_mono_r; lia).
    lia.
  - intros j Hj Hle.
    assert (Z.log2_up size <= j) by (apply Z.log2_up_le_pow2; lia). lia.
Qed.

Lemma emit_no_panic src fuel : forall length alphabet k mask slots out draw remaining pos,
  ~ panics (Spec.emit src fuel length alphabet k mask slots out draw remaining pos).
Proof.
  induction fuel as [|fuel IH]; intros length alphabet k mask slots out draw remaining pos;
    cbn [Spec.emit].
  - intros [p Hp]. discriminate.
  - destruct (Xrand.len out <? length); [|intros [p Hp]; discriminate].
    destruct (remaining =? 0); unfold bind, MathRand.Int63, ret; apply IH.
Qed.

Lemma RandomString_no_panic src fuel length alphabet pos :
  ~ panics (Spec.RandomString src fuel length alphabet pos).
Proof.
  unfold Spec.RandomString, bind, MathRand.Int63. apply emit_no_panic.
Qed.

(** C4. When the alphabet used has at least two symbols, [String] is the
    reference algorithm of section 4.5: its bit width is the least [k >= 1]
    with [2^k >= |alphabet|], and for every stream of draws and every
    iteration budget it consumes the same draws and has the same outcome.
    When the alphabet used has a single symbol, the code computes a bit
    width of 0 where the reference takes 1, and panics where the reference
    does not. *)
Theorem String_reference (globalRand : Source) (n : Z)
    (alphabet : list Xrand.gostring) :
  let a := Xrand.alphabetOf alphabet in
  0 <= n <= Int64.max_int -> Xrand.len a <= Int64.max_int ->
  (Xrand.len a <> 1 ->
     Xrand.countBits (Xrand.len a) = Spec.bitsNeeded (Xrand.len a) /\
     (let k := Xrand.countBits (Xrand.len a) in
      1 <= k /\ Xrand.len a <= 2 ^ k /\
      forall j, 1 <= j -> Xrand.len a <= 2 ^ j -> k <= j) /\
     forall fuel pos,
       Xrand.String globalRand fuel n alphabet pos =
       Spec.RandomString globalRand fuel n (head alphabet) pos) /\
  (Xrand.len a = 1 ->
     Xrand.countBits (Xrand.len a) = 0 /\
     Spec.bitsNeeded (Xrand.len a) = 1 /\
     forall fuel pos,
       Xrand.String globalRand fuel n alphabet pos = Panic DivideByZero /\
       ~ panics (Spec.RandomString globalRand fuel n (head alphabet) pos)).
Proof.
  intros a Hn Ha. pose proof (alphabetOf_nonempty alphabet) as H1. fold a in H1.
  split.
  - intros Hne. assert (Ha2 : 2 <= Xrand.len a <= Int64.max_int) by lia.
    destruct (countBits_bounds (Xrand.len a) Ha2) as [Hk Hpow].
    assert (Ek : Xrand.countBits (Xrand.len a) = Spec.bitsNeeded (Xrand.len a)).
    { unfold Spec.bitsNeeded. rewrite countBits_log2_up in * by lia. lia. }
    split; [exact Ek|]. split.
    { cbv zeta. rewrite Ek. apply bitsNeeded_least. lia. }
    intros fuel pos.
    rewrite String_run by (fold a; lia). fold a.
    rewrite String_loop_emit; try assumption.
    + unfold Spec.RandomString. rewrite <- alphabetOf_head. fold a.
      rewrite <- Ek. rewrite (Z.quot_div_nonneg 63) by lia. reflexivity.
    + change (Xrand.len (@nil Byte.byte)) with 0. lia.
    + apply src_Int63_range.
    + pose proof (slots_bounds _ Hk). lia.
  - intros E. rewrite E. split; [reflexivity|]. split; [reflexivity|].
    intros fuel pos. split; [apply String_singleton, E|].
    apply RandomString_no_panic.
Qed.

Lemma String_reference_witness :
  (forall fuel pos,
     Xrand.String lcg fuel 10 [] pos = Spec.RandomString lcg fuel 10 None pos) /\
  Xrand.String lcg 5 2 [list_byte_of_string "a"] 0%nat = Panic DivideByZero.
Proof.
  split.
  - destruct (String_reference lcg 10 []) as [H _];
      [vm_compute; split; discriminate | vm_compute; discriminate |].
    apply H. vm_compute. discriminate.
  - destruct (String_reference lcg 2 [list_byte_of_string "a"]) as [_ H];
      [vm_compute; split; discriminate | vm_compute; discriminate |].
    apply H. reflexivity.
Defined.

(** ** Float64 and Jitter *)

Section JitterFacts.
Variable src : Source.

(** One round of [Float64]: a draw, kept unless its quotient is 1. *)
Lemma Float64_unfold fuel pos :
  MathRand.Float64 src (S fuel) pos =
  if Float64_retries src pos then MathRand.Float64 src fuel (S pos)
  else Ok (Float64_at src pos) (S pos).
Proof.
  cbn [MathRand.Float64]. unfold bind, MathRand.Int63, ret.
  unfold Float64_retries, Float64_at.
  destruct (F64.eqb _ F64.one); reflexivity.
Qed.

Lemma Float64_no_panic fuel : forall pos,
  ~ panics (MathRand.Float64 src fuel pos).
Proof.
  induction fuel as [|fuel IH]; intros pos.
  - intros [p Hp]. discriminate.
  - rewrite Float64_unfold.
    destruct (Float64_retries src pos); [apply IH|]. intros [p Hp]. discriminate.
Qed.

(** What [Float64] returns is the quotient of the first draw it keeps. *)
Lemma Float64_returns fuel : forall pos u pos',
  MathRand.Float64 src fuel pos = Ok u pos' ->
  exists q, (pos <= q)%nat /\ pos' = S q /\ u = Float64_at src q /\
            Float64_retries src q = false /\
            forall p, (pos <= p < q)%nat -> Float64_retries src p = true.
Proof.
  induction fuel as [|fuel IH]; intros pos u pos' E; [discriminate|].
  rewrite Float64_unfold in E.
  destruct (Float64_retries src pos) eqn:R.
  - destruct (IH _ _ _ E) as (q & Hq & Hp & Hu & Hr & Hall).
    exists q. split; [lia|]. split; [exact Hp|]. split; [exact Hu|].
    split; [exact Hr|]. intros p Hp'.
    destruct (decide (p = pos)) as [->|Hne]; [exact R|apply Hall; lia].
  - injection E as <- <-. exists pos. split; [lia|]. split; [reflexivity|].
    split; [reflexivity|]. split; [exact R|]. intros p Hp. lia.
Qed.

Lemma Float64_first : forall m pos fuel,
  (forall p, (pos <= p < pos + m)%nat -> Float64_retries src p = true) ->
  Float64_retries src (pos + m) = false -> (m < fuel)%nat ->
  MathRand.Float64 src fuel pos = Ok (Float64_at src (pos + m)) (S (pos + m)).
Proof.
  induction m as [|m IH]; intros pos fuel Hrej Hacc Hf;
    (destruct fuel as [|fuel]; [lia|]); rewrite Float64_unfold.
  - rewrite Nat.add_0_r in *. rewrite Hacc. reflexivity.
  - rewrite (Hrej pos ltac:(lia)).
    replace (pos + S m)%nat with (S pos + m)%nat in * by lia.
    apply IH; [|exact Hacc|lia]. intros p Hp. apply Hrej. lia.
Qed.

(** The loop returns only a strictly positive duration, and that duration
    is either the one it started from or the candidate [duration + jitter]
    of the last draw, which [Float64] kept. *)
Lemma Jitter_loop_positive fuel duration factor : forall newDuration pos v pos',
  Xrand.Jitter_loop src fuel duration factor newDuration pos = Ok v pos' ->
  0 < v /\
  (v = newDuration /\ pos' = pos \/
   exists q, (pos <= q)%nat /\ pos' = S q /\ Float64_retries src q = false /\
             v = Jitter_candidate src duration factor q).
Proof.
  induction fuel as [|fuel IH]; intros newDuration pos v pos' E; [discriminate|].
  cbn [Xrand.Jitter_loop] in E.
  destruct (Z.leb_spec newDuration 0) as [Hle|Hgt].
  - unfold bind, Xrand.Float64 in E.
    destruct (MathRand.Float64 src fuel pos) as [u pos1| |] eqn:Eu;
      try discriminate.
    destruct (Float64_returns _ _ _ _ Eu) as (q & Hq & -> & -> & Hr & _).
    apply IH in E. destruct E as [Hv [[Hv' ->]|(q' & Hq' & -> & Hr' & Hv')]].
    + split; [exact Hv|]. right. exists q. split; [exact Hq|].
      split; [reflexivity|]. split; [exact Hr|exact Hv'].
    + split; [exact Hv|]. right. exists q'. split; [lia|].
      split; [reflexivity|]. split; assumption.
  - injection E as <- <-. split; [lia|]. left. split; reflexivity.
Qed.

Lemma Jitter_loop_no_panic fuel duration factor : forall newDuration pos,
  ~ panics (Xrand.Jitter_loop src fuel duration factor newDuration pos).
Proof.
  induction fuel as [|fuel IH]; intros newDuration pos.
  - intros [p Hp]. discriminate.
  - cbn [Xrand.Jitter_loop].
    destruct (newDuration <=? 0); [|intros [p Hp]; discriminate].
    unfold bind, Xrand.Float64.
    pose proof (Float64_no_panic fuel pos) as Hf.
    destruct (MathRand.Float64 src fuel pos) as [u pos1|p|].
    + apply IH.
    + exfalso. apply Hf. exists p. reflexivity.
    + intros [p Hp]. discriminate.
Qed.

(** With a zero duration every candidate is non-positive. *)
Lemma mul_zero_r x :
  (exists s, F64.mul x (F64.of_int 0) = S754_zero s) \/
  F64.mul x (F64.of_int 0) = S754_nan.
Proof.
  destruct x as [s|s| |s m e]; simpl; eauto.
Qed.



End JitterFacts.

(** C3. Whenever [Jitter] returns, the duration it returns is strictly
    positive, whatever the input duration and factor: it is the unclamped
    candidate [duration + jitter] computed from the last draw consumed, a
    draw that [Float64] kept. *)
Theorem Jitter_positive (globalRand : Source) (fuel : nat) (duration : Z)
    (maxFactor : list F64.float64) (pos : nat) (v : Z) (pos' : nat) :
  Xrand.Jitter globalRand fuel duration maxFactor pos = Ok v pos' ->
  0 < v /\
  exists q,
    (pos <= q)%nat /\ pos' = S q /\ Float64_retries globalRand q = false /\
    v = Int64.wrap (duration +
                    Xrand.jitterOf duration (Xrand.jitterFactor maxFactor)
                      (Float64_at globalRand q)).
Proof.
  unfold Xrand.Jitter. intros E.
  apply Jitter_loop_positive in E. destruct E as [Hv [[Hv' _]|Hv']]; [lia|].
  split; assumption.
Qed.

Lemma Jitter_positive_witness :
  Xrand.Jitter lcg 3 2000000000 [] 0%nat = Ok 1725133848 1%nat /\
  0 < 1725133848.
Proof.
  assert (E : Xrand.Jitter lcg 3 2000000000 [] 0%nat = Ok 1725133848 1%nat)
    by (vm_compute; reflexivity).
  split; [exact E|]. exact (proj1 (Jitter_positive lcg 3 2000000000 [] 0 _ _ E)).
Defined.


Lemma to_int64_range x : Int64.in_range (F64.to_int64 x).
Proof.
  assert (Hmin : Int64.in_range Int64.min_int) by (vm_compute; split; discriminate).
  assert (H0 : Int64.in_range 0) by (vm_compute; split; discriminate).
  destruct x as [s|s| |s m e]; cbn [F64.to_int64]; try assumption.
  destruct (Z.leb_spec Int64.min_int (F64.trunc s m e));
    destruct (Z.leb_spec (F64.trunc s m e) Int64.max_int);
    cbn [andb]; try assumption.
  split; assumption.
Qed.

(** The factor is the first supplied one when it is greater than 0.0 and
    [defaultJitterFactor] otherwise. *)
Lemma jitterFactor_spec (maxFactor : list F64.float64) :
  Xrand.jitterFactor maxFactor =
  match head maxFactor with
  | Some f0 => if F64.ltb F64.zero f0 then f0 else Xrand.defaultJitterFactor
  | None => Xrand.defaultJitterFactor
  end.
Proof. destruct maxFactor; reflexivity. Qed.

(** C8 fails as stated, at both ends of the interval.  Below: with the
    factor 0.5 and the duration 9007199254740995ns, which [float64] rounds to
    9007199254740996, the draw 0.0 makes [Jitter] return 4503599627370497ns,
    less than [d - f*d = 4503599627370497.5]; with the default factor and the
    duration 6785624262274284ns the same draw makes it return
    5428499409819427ns, less than [d - 0.2*d].  Above: with the factor 0.64
    and the duration 4613185309201233409ns the draw [2^63 - 513], from which
    [Float64] returns [1 - 2^-53], makes [Jitter] return
    7565623907090022913ns, more than [d + f*d], for 0.64 itself and for the
    [float64] nearest to it. *)
Lemma Jitter_outside_interval :
  (float_value one_half == 1 # 2)%Q /\
  Xrand.Jitter zeros 3 9007199254740995 [one_half] 0%nat
    = Ok 4503599627370497 1%nat /\
  (inject_Z 4503599627370497 <
   inject_Z 9007199254740995 - float_value one_half * inject_Z 9007199254740995)%Q /\
  Xrand.Jitter zeros 3 6785624262274284 [] 0%nat
    = Ok 5428499409819427 1%nat /\
  (inject_Z 5428499409819427 <
   inject_Z 6785624262274284 - (1 # 5) * inject_Z 6785624262274284)%Q /\
  (inject_Z 5428499409819427 <
   inject_Z 6785624262274284
   - float_value Xrand.defaultJitterFactor * inject_Z 6785624262274284)%Q /\
  (16 # 25 < float_value factor_0_64 < (16 # 25) + pow2 (-54))%Q /\
  MathRand.Float64 greatest_kept 2 0%nat
    = Ok (S754_finite false 9007199254740991 (-53)) 1%nat /\
  Xrand.Jitter greatest_kept 3 4613185309201233409 [factor_0_64] 0%nat
    = Ok 7565623907090022913 1%nat /\
  (inject_Z 4613185309201233409 + (16 # 25) * inject_Z 4613185309201233409 <
   inject_Z 7565623907090022913)%Q /\
  (inject_Z 4613185309201233409
   + float_value factor_0_64 * inject_Z 4613185309201233409 <
   inject_Z 7565623907090022913)%Q.
Proof.
  split; [vm_compute; reflexivity|].
  split; [vm_compute; reflexivity|].
  split; [vm_compute; reflexivity|].
  split; [vm_compute; reflexivity|].
  split; [vm_compute; reflexivity|].
  split; [vm_compute; reflexivity|].
  split; [split; vm_compute; reflexivity|].
  split; [vm_compute; reflexivity|].
  split; [vm_compute; reflexivity|].
  split; vm_compute; reflexivity.
Qed.

(** ** Rounding in float64

    Every rounded operation returns at most [1 + eps] times the exact
    magnitude plus [eta]; this is enough to bound the jitter. *)

Lemma pow2_pos e : (0 < pow2 e)%Q.
Proof. apply Qpower_0_lt. reflexivity. Qed.

Lemma eps_pos : (0 < eps)%Q.
Proof. apply pow2_pos. Qed.

Lemma eta_pos : (0 < eta)%Q.
Proof. apply pow2_pos. Qed.

Ltac abstract_consts :=
  pose proof eps_pos; pose proof eta_pos;
  set (ep := eps) in *; set (et := eta) in *; clearbody ep et.

Lemma pow2_add a b : (pow2 (a + b) == pow2 a * pow2 b)%Q.
Proof. apply Qpower_plus. discriminate. Qed.

Lemma pow2_Z n : 0 <= n -> (pow2 n == inject_Z (2 ^ n))%Q.
Proof. intros Hn. unfold pow2. rewrite Zpower_Qpower by assumption. reflexivity. Qed.

Lemma pow2_le a b : a <= b -> (pow2 a <= pow2 b)%Q.
Proof. intros H. apply Qpower_le_compat_l; [exact H|]. discriminate. Qed.

Lemma digits2_pos_bounds m :
  2 ^ (Z.pos (digits2_pos m) - 1) <= Z.pos m < 2 ^ Z.pos (digits2_pos m).
Proof.
  induction m as [m IH|m IH|]; cbn [digits2_pos].
  - rewrite Pos2Z.inj_succ.
    replace (Z.succ (Z.pos (digits2_pos m)) - 1) with (Z.succ (Z.pos (digits2_pos m) - 1)) by lia.
    rewrite !Z.pow_succ_r by lia. lia.
  - rewrite Pos2Z.inj_succ.
    replace (Z.succ (Z.pos (digits2_pos m)) - 1) with (Z.succ (Z.pos (digits2_pos m) - 1)) by lia.
    rewrite !Z.pow_succ_r by lia. lia.
  - simpl. lia.
Qed.

(** [shr_1] halves the mantissa. *)
Lemma shr_1_m mrs : 0 <= shr_m mrs -> shr_m (shr_1 mrs) = shr_m mrs / 2 /\ 0 <= shr_m (shr_1 mrs).
Proof.
  destruct mrs as [m r s]. cbn [shr_m]. intros Hm.
  destruct m as [|p|p]; [..|lia].
  - simpl. split; [reflexivity|lia].
  - destruct p as [p|p|]; cbn [shr_1 shr_m].
    + split; [|lia]. rewrite Pos2Z.inj_xI.
      apply Z.div_unique with (r := 1); lia.
    + split; [|lia]. rewrite Pos2Z.inj_xO.
      apply Z.div_unique with (r := 0); lia.
    + split; [reflexivity|lia].
Qed.

Lemma iter_pos_shr_m p : forall mrs,
  0 <= shr_m mrs ->
  shr_m (SpecFloat.iter_pos shr_1 p mrs) = shr_m mrs / 2 ^ Z.pos p /\
  0 <= shr_m (SpecFloat.iter_pos shr_1 p mrs).
Proof.
  induction p as [p IH|p IH|]; intros mrs Hm; cbn [SpecFloat.iter_pos].
  - destruct (shr_1_m mrs Hm) as [E1 H1].
    destruct (IH _ H1) as [E2 H2]. destruct (IH _ H2) as [E3 H3].
    split; [|exact H3]. rewrite E3, E2, E1.
    assert (0 < 2 ^ Z.pos p) by (apply Z.pow_pos_nonneg; lia).
    rewrite !Z.div_div by lia. f_equal.
    replace (Z.pos p~1) with (1 + Z.pos p + Z.pos p) by lia.
    rewrite !Z.pow_add_r by lia. change (2 ^ 1) with 2. ring.
  - destruct (IH _ Hm) as [E2 H2]. destruct (IH _ H2) as [E3 H3].
    split; [|exact H3]. rewrite E3, E2.
    assert (0 < 2 ^ Z.pos p) by (apply Z.pow_pos_nonneg; lia).
    rewrite !Z.div_div by lia. f_equal.
    replace (Z.pos p~0) with (Z.pos p + Z.pos p) by lia.
    rewrite !Z.pow_add_r by lia. ring.
  - destruct (shr_1_m mrs Hm) as [E1 H1]. split; [|exact H1].
    rewrite E1. reflexivity.
Qed.

Lemma inject_Z_nonneg z : 0 <= z -> (0 <= inject_Z z)%Q.
Proof. intros H. change 0%Q with (inject_Z 0). rewrite <- Zle_Qle. exact H. Qed.

Lemma dyadic_floor m e n :
  0 <= m -> 0 < n -> (dyadic (m / 2 ^ n) (e + n) <= dyadic m e)%Q.
Proof.
  intros Hm Hn. unfold dyadic.
  pose proof (pow2_add e n) as Ha. pose proof (pow2_Z n ltac:(lia)) as Hz.
  pose proof (pow2_pos e) as Hp.
  assert (0 < 2 ^ n) by (apply Z.pow_pos_nonneg; lia).
  assert (Hf : (m / 2 ^ n) * 2 ^ n <= m).
  { pose proof (Z.div_mod m (2 ^ n) ltac:(lia)).
    pose proof (Z.mod_pos_bound m (2 ^ n) ltac:(lia)). lia. }
  rewrite Zle_Qle, inject_Z_mult in Hf.
  rewrite Ha, Hz.
  set (a := inject_Z (m / 2 ^ n)) in *. set (b := inject_Z (2 ^ n)) in *.
  set (c := inject_Z m) in *. set (p := pow2 e) in *.
  nra.
Qed.

Lemma rne_bounds m l : m <= round_nearest_even m l <= m + 1.
Proof.
  destruct l as [|[| |]]; cbn [round_nearest_even]; try lia.
  destruct (Z.even m); lia.
Qed.

Lemma shr_fexp_exact m e :
  0 <= m ->
  let n := fexp 53 1024 (Zdigits2 m + e) - e in
  0 <= shr_m (fst (shr_fexp 53 1024 m e loc_Exact)) /\
  (0 < n ->
     snd (shr_fexp 53 1024 m e loc_Exact) = e + n /\
     shr_m (fst (shr_fexp 53 1024 m e loc_Exact)) = m / 2 ^ n) /\
  (n <= 0 ->
     shr_fexp 53 1024 m e loc_Exact = (Build_shr_record m false false, e)).
Proof.
  intros Hm n. unfold shr_fexp. fold n. cbn [shr_record_of_loc].
  destruct n as [|p|p]; cbn [shr fst snd shr_m].
  - split; [exact Hm|]. split; [lia|reflexivity].
  - destruct (iter_pos_shr_m p (Build_shr_record m false false) Hm) as [E H].
    split; [exact H|]. split; [|lia]. intros _. split; [reflexivity|exact E].
  - split; [exact Hm|]. split; [lia|reflexivity].
Qed.

Lemma dyadic_shr_fexp m e :
  0 <= m ->
  (dyadic (shr_m (fst (shr_fexp 53 1024 m e loc_Exact)))
          (snd (shr_fexp 53 1024 m e loc_Exact)) <= dyadic m e)%Q.
Proof.
  intros Hm. destruct (shr_fexp_exact m e Hm) as (_ & Hpos & Hneg).
  destruct (Z.lt_ge_cases 0 (fexp 53 1024 (Zdigits2 m + e) - e)) as [H|H].
  - destruct (Hpos H) as [-> ->]. apply dyadic_floor; assumption.
  - rewrite (Hneg H). cbn [fst snd shr_m]. apply Qle_refl.
Qed.

(** Rounding a positive integer mantissa: the result is at most one unit in
    the last place above the value rounded. *)
Lemma binary_round_aux_bound s m e :
  match binary_round_aux 53 1024 s (Z.pos m) e loc_Exact with
  | S754_zero _ | S754_infinity _ => True
  | S754_nan => False
  | S754_finite s' m' e' =>
      s' = s /\
      (dyadic (Z.pos m') e' <=
       dyadic (Z.pos m) e * (1 + eps) + eta)%Q
  end.
Proof.
  unfold binary_round_aux.
  destruct (shr_fexp 53 1024 (Z.pos m) e loc_Exact) as [mrs1 e1] eqn:E1.
  set (m2 := round_nearest_even (shr_m mrs1) (loc_of_shr_record mrs1)).
  destruct (shr_fexp 53 1024 m2 e1 loc_Exact) as [mrs2 e2] eqn:E2.
  destruct (shr_fexp_exact (Z.pos m) e ltac:(lia)) as (H1 & Hpos & Hneg).
  rewrite E1 in H1, Hpos, Hneg. cbn [fst snd] in *.
  pose proof (rne_bounds (shr_m mrs1) (loc_of_shr_record mrs1)) as Hr. fold m2 in Hr.
  assert (Hm2 : 0 <= m2) by lia.
  pose proof (dyadic_shr_fexp m2 e1 Hm2) as H2. rewrite E2 in H2. cbn [fst snd] in H2.
  destruct (shr_fexp_exact m2 e1 Hm2) as (H3 & _ & _). rewrite E2 in H3. cbn [fst] in H3.
  assert (Hb : (dyadic m2 e1 <= dyadic (Z.pos m) e * (1 + eps) + eta)%Q).
  { pose proof (pow2_pos e) as Hpe. pose proof eps_pos as Hp52.
    pose proof eta_pos as Hpmin.
    destruct (Z.lt_ge_cases 0 (fexp 53 1024 (Zdigits2 (Z.pos m) + e) - e)) as [H|H].
    - destruct (Hpos H) as [He1 Hm1].
      pose proof (dyadic_floor (Z.pos m) e _ ltac:(lia) H) as Hf.
      rewrite <- He1, <- Hm1 in Hf.
      assert (Hp : (pow2 e1 <= dyadic (Z.pos m) e * eps + eta)%Q).
      { pose proof (digits2_pos_bounds m) as [Hd _].
        set (d := Z.pos (digits2_pos m)) in *.
        assert (Hcase : e1 = -1074 \/ e1 = (d - 1) + e + (-52)).
        { cbn [Zdigits2] in He1. unfold fexp, emin in He1. fold d in He1. lia. }
        unfold dyadic.
        assert (0 <= inject_Z (Z.pos m))%Q by (apply inject_Z_nonneg; lia).
        assert (0 <= inject_Z (Z.pos m) * pow2 e)%Q by nra.
        assert (0 <= inject_Z (Z.pos m) * pow2 e * eps)%Q by nra.
        destruct Hcase as [Hc|Hc]; rewrite Hc.
        - change (pow2 (-1074)) with eta. lra.
        - rewrite !pow2_add. rewrite (pow2_Z (d - 1)) by lia.
          change (pow2 (-52)) with eps.
          rewrite Zle_Qle in Hd.
          set (a := inject_Z (2 ^ (d - 1))) in *. set (c := inject_Z (Z.pos m)) in *.
          set (p := pow2 e) in *.
          assert (a * p <= c * p)%Q by nra.
          assert (a * p * eps <= c * p * eps)%Q by nra.
          lra. }
      assert (Hle : (inject_Z m2 <= inject_Z (shr_m mrs1) + 1)%Q).
      { destruct Hr as [_ Hr]. rewrite Zle_Qle, inject_Z_plus in Hr. exact Hr. }
      unfold dyadic in *.
      set (a := inject_Z m2) in *. set (b := inject_Z (shr_m mrs1)) in *.
      set (c := inject_Z (Z.pos m)) in *. set (p := pow2 e) in *.
      set (p1 := pow2 e1) in *.
      pose proof (pow2_pos e1) as Hp1. fold p1 in Hp1.
      assert (a * p1 <= b * p1 + p1)%Q by nra.
      lra.
    - pose proof (Hneg H) as Hid. injection Hid as Hm1 He1.
      subst mrs1 e1. subst m2. cbn [shr_m loc_of_shr_record round_nearest_even].
      unfold dyadic. assert (0 <= inject_Z (Z.pos m))%Q by (apply inject_Z_nonneg; lia).
      assert (0 <= inject_Z (Z.pos m) * pow2 e)%Q by nra.
      assert (0 <= inject_Z (Z.pos m) * pow2 e * eps)%Q by nra.
      lra. }
  destruct (shr_m mrs2) as [|p|p]; [exact I| |lia].
  destruct (e2 <=? 1024 - 53); [|exact I].
  split; [reflexivity|]. eapply Qle_trans; [exact H2|exact Hb].
Qed.

Lemma iter_xO_value m d : Z.pos (Pos.iter xO m d) = Z.pos m * 2 ^ Z.pos d.
Proof.
  induction d as [|d IH] using Pos.peano_ind.
  - simpl. lia.
  - rewrite Pos.iter_succ, Pos2Z.inj_xO, IH, Pos2Z.inj_succ, Z.pow_succ_r by lia. ring.
Qed.

Lemma iter_xO_digits m d :
  digits2_pos (Pos.iter xO m d) = (digits2_pos m + d)%positive.
Proof.
  induction d as [|d IH] using Pos.peano_ind.
  - simpl. lia.
  - rewrite Pos.iter_succ. cbn [digits2_pos]. rewrite IH. lia.
Qed.

Lemma shl_align_value m e e' :
  (dyadic (Z.pos (fst (shl_align m e e'))) (snd (shl_align m e e')) == dyadic (Z.pos m) e)%Q /\
  (e' <= e -> snd (shl_align m e e') = e').
Proof.
  unfold shl_align. destruct (e' - e) as [|d|d] eqn:E; cbn [fst snd].
  - split; [reflexivity|lia].
  - split; [reflexivity|lia].
  - split; [|reflexivity]. unfold dyadic. rewrite iter_xO_value, inject_Z_mult.
    replace e with (e' + Z.pos d) by lia.
    rewrite pow2_add, (pow2_Z (Z.pos d)) by lia. ring.
Qed.



Lemma fbound_weaken B B' x : (B <= B')%Q -> fbound B x -> fbound B' x.
Proof. destruct x; simpl; auto. intros. eapply Qle_trans; eauto. Qed.

Lemma binary_round_bound s m e :
  match binary_round 53 1024 s m e with
  | S754_nan => False
  | S754_finite s' m' e' =>
      s' = s /\ (dyadic (Z.pos m') e' <= dyadic (Z.pos m) e * (1 + eps) + eta)%Q
  | _ => True
  end.
Proof.
  unfold binary_round.
  destruct (shl_align_value m e (fexp 53 1024 (Z.pos (digits2_pos m) + e))) as [Hv _].
  destruct (shl_align m e (fexp 53 1024 (Z.pos (digits2_pos m) + e))) as [mz ez].
  cbn [fst snd] in Hv.
  pose proof (binary_round_aux_bound s mz ez) as Hb.
  destruct (binary_round_aux 53 1024 s (Z.pos mz) ez loc_Exact); auto.
  destruct Hb as [-> Hb]. split; [reflexivity|].
  rewrite <- Hv. exact Hb.
Qed.

Lemma mul_fbound Bx By x y :
  (0 <= Bx)%Q -> (0 <= By)%Q -> fbound Bx x -> fbound By y ->
  fbound (Bx * By * (1 + eps) + eta) (F64.mul x y).
Proof.
  intros HBx HBy Hx Hy. unfold F64.mul.
  destruct x as [sx|sx| |sx mx ex], y as [sy|sy| |sy my ey]; try exact I.
  cbn [SFmul]. unfold F64.prec, F64.emax.
  pose proof (binary_round_aux_bound (xorb sx sy) (mx * my) (ex + ey)) as Hb.
  destruct (binary_round_aux 53 1024 (xorb sx sy) (Z.pos (mx * my)) (ex + ey) loc_Exact);
    try exact I.
  destruct Hb as [_ Hb]. cbn [fbound] in *.
  eapply Qle_trans; [exact Hb|].
  assert (E : (dyadic (Z.pos (mx * my)) (ex + ey) ==
               dyadic (Z.pos mx) ex * dyadic (Z.pos my) ey)%Q).
  { unfold dyadic. rewrite Pos2Z.inj_mul, inject_Z_mult, pow2_add. ring. }
  rewrite E.
  assert (0 <= dyadic (Z.pos mx) ex)%Q.
  { unfold dyadic. pose proof (pow2_pos ex).
    assert (0 <= inject_Z (Z.pos mx))%Q by (apply inject_Z_nonneg; lia). nra. }
  assert (0 <= dyadic (Z.pos my) ey)%Q.
  { unfold dyadic. pose proof (pow2_pos ey).
    assert (0 <= inject_Z (Z.pos my))%Q by (apply inject_Z_nonneg; lia). nra. }
  set (a := dyadic (Z.pos mx) ex) in *. set (b := dyadic (Z.pos my) ey) in *.
  abstract_consts.
  assert (a * b <= Bx * By)%Q by nra.
  assert (a * b * ep <= Bx * By * ep)%Q by nra.
  lra.
Qed.

(** A 53-bit mantissa with an exponent in range is left as it is. *)
Lemma binary_round_aux_canonical s m e :
  digits2_pos m = 53%positive -> -1074 <= e <= 971 ->
  binary_round_aux 53 1024 s (Z.pos m) e loc_Exact = S754_finite s m e.
Proof.
  intros Hd He. unfold binary_round_aux.
  assert (E : shr_fexp 53 1024 (Z.pos m) e loc_Exact =
              (Build_shr_record (Z.pos m) false false, e)).
  { apply shr_fexp_exact; [lia|]. cbn [Zdigits2]. rewrite Hd.
    unfold fexp, emin. lia. }
  rewrite E. cbn [shr_m loc_of_shr_record round_nearest_even]. rewrite E.
  cbn [shr_m]. destruct (Z.leb_spec e (1024 - 53)); [reflexivity|lia].
Qed.

(** [float64(k)] for [0 < k < 2^53] is exact, with a 53-bit mantissa. *)
Lemma of_int_small k :
  0 < k < 2 ^ 53 ->
  exists m e, F64.of_int k = S754_finite false m e /\
              digits2_pos m = 53%positive /\ -52 <= e <= 0.
Proof.
  intros Hk. unfold F64.of_int, binary_normalize.
  destruct k as [|p|p]; try lia.
  unfold binary_round, F64.prec, F64.emax.
  pose proof (digits2_pos_bounds p) as [Hlo Hhi].
  set (d := digits2_pos p) in *.
  assert (Hd : 1 <= Z.pos d <= 53).
  { split; [lia|]. destruct (Z.le_gt_cases (Z.pos d) 53) as [H|H]; [exact H|].
    exfalso. assert (2 ^ 53 <= 2 ^ (Z.pos d - 1)) by (apply Z.pow_le_mono_r; lia). lia. }
  assert (Ef : fexp 53 1024 (Z.pos d + 0) = Z.pos d - 53) by (unfold fexp, emin; lia).
  rewrite Ef. unfold shl_align.
  destruct (Z.pos d - 53 - 0) as [|q|q] eqn:Eq; try lia.
  - assert (Z.pos d = 53) by lia.
    exists p, 0. split; [|split; [fold d; lia|lia]].
    apply binary_round_aux_canonical; [fold d; lia|lia].
  - exists (Pos.iter xO p q), (Z.pos d - 53).
    assert (Hdg : digits2_pos (Pos.iter xO p q) = 53%positive)
      by (rewrite iter_xO_digits; fold d; lia).
    split; [|split; [exact Hdg|lia]].
    apply binary_round_aux_canonical; [exact Hdg|lia].
Qed.

Lemma dyadic_nonneg m e : (0 <= dyadic (Z.pos m) e)%Q.
Proof.
  unfold dyadic. pose proof (pow2_pos e).
  assert (0 <= inject_Z (Z.pos m))%Q by (apply inject_Z_nonneg; lia). nra.
Qed.

(** ** Round to nearest: the round bit

    After [k] right shifts of [M] the record holds the quotient, and its
    round bit tells whether the part shifted out is at least half a unit. *)

Lemma shr_1_r mrs :
  0 <= shr_m mrs -> shr_r (shr_1 mrs) = Z.odd (shr_m mrs).
Proof.
  destruct mrs as [m r s]. cbn [shr_m]. intros Hm.
  destruct m as [|p|p]; [reflexivity| |lia].
  destruct p; reflexivity.
Qed.

Lemma mod_pow2_succ M k :
  0 <= M -> 0 <= k ->
  M mod 2 ^ (k + 1) = 2 ^ k * ((M / 2 ^ k) mod 2) + M mod 2 ^ k.
Proof.
  intros HM Hk.
  assert (Hp : 0 < 2 ^ k) by (apply Z.pow_pos_nonneg; lia).
  pose proof (Z.div_mod M (2 ^ k) ltac:(lia)) as E1.
  pose proof (Z.mod_pos_bound M (2 ^ k) Hp) as B1.
  pose proof (Z.div_mod (M / 2 ^ k) 2 ltac:(lia)) as E2.
  pose proof (Z.mod_pos_bound (M / 2 ^ k) 2 ltac:(lia)) as B2.
  rewrite Z.pow_add_r by lia. change (2 ^ 1) with 2.
  symmetry. apply (Z.mod_unique_pos _ _ (M / 2 ^ k / 2)); [nia|].
  set (q := M / 2 ^ k) in *. set (r := M mod 2 ^ k) in *.
  set (q' := q / 2) in *. set (b := q mod 2) in *. nia.
Qed.

Lemma shifted_shr_1 M k mrs :
  0 <= M -> 0 <= k -> shifted M k mrs -> shifted M (k + 1) (shr_1 mrs).
Proof.
  intros HM Hk [Em Er].
  assert (Hp : 0 < 2 ^ k) by (apply Z.pow_pos_nonneg; lia).
  assert (Hq : 0 <= shr_m mrs) by (rewrite Em; apply Z.div_pos; lia).
  destruct (shr_1_m mrs Hq) as [E1 _]. split.
  - rewrite E1, Em, Z.div_div by lia. f_equal.
    rewrite Z.pow_add_r by lia. reflexivity.
  - rewrite (shr_1_r mrs Hq), Em.
    replace (k + 1 - 1) with k by lia.
    rewrite (mod_pow2_succ M k HM Hk).
    pose proof (Z.mod_pos_bound M (2 ^ k) Hp) as B1.
    pose proof (Z.mod_pos_bound (M / 2 ^ k) 2 ltac:(lia)) as B2.
    rewrite Zodd_mod. destruct (Z.eqb_spec ((M / 2 ^ k) mod 2) 1) as [E|E].
    + rewrite E. split; [intros _; split; lia|reflexivity].
    + assert (E0 : (M / 2 ^ k) mod 2 = 0) by lia. rewrite E0.
      split; [discriminate|]. intros [_ H]. lia.
Qed.

Lemma shifted_iter_pos M p : forall k mrs,
  0 <= M -> 0 <= k -> shifted M k mrs ->
  shifted M (k + Z.pos p) (SpecFloat.iter_pos shr_1 p mrs).
Proof.
  induction p as [p IH|p IH|]; intros k mrs HM Hk H; cbn [SpecFloat.iter_pos].
  - replace (k + Z.pos p~1) with (k + 1 + Z.pos p + Z.pos p) by lia.
    apply IH; [lia|lia|]. apply IH; [lia|lia|]. apply shifted_shr_1; assumption.
  - replace (k + Z.pos p~0) with (k + Z.pos p + Z.pos p) by lia.
    apply IH; [lia|lia|]. apply IH; assumption.
  - apply shifted_shr_1; assumption.
Qed.

(** What [shr_fexp] does to an exact mantissa that has to be shifted. *)
Lemma shr_fexp_shifted m e :
  0 <= m ->
  let n := fexp 53 1024 (Zdigits2 m + e) - e in
  0 < n ->
  snd (shr_fexp 53 1024 m e loc_Exact) = e + n /\
  shifted m n (fst (shr_fexp 53 1024 m e loc_Exact)).
Proof.
  intros Hm n Hn. unfold shr_fexp. fold n. cbn [shr_record_of_loc].
  destruct n as [|p|p]; try lia. cbn [shr fst snd]. split; [reflexivity|].
  apply (shifted_iter_pos m p 0); [assumption|lia|].
  split; cbn [shr_m shr_r].
  - rewrite Z.pow_0_r, Z.div_1_r. reflexivity.
  - split; [discriminate|]. intros [H _]. lia.
Qed.

(** Rounding to nearest even moves up only from the upper half, and always
    moves an odd quotient up from there. *)
Lemma rne_round_bit mrs :
  let q := shr_m mrs in
  let m2 := round_nearest_even q (loc_of_shr_record mrs) in
  (shr_r mrs = false -> m2 = q) /\
  (shr_r mrs = true -> (m2 = q \/ m2 = q + 1) /\ (Z.odd q = true -> m2 = q + 1)).
Proof.
  destruct mrs as [q r s]. cbn [shr_m shr_r loc_of_shr_record].
  destruct r, s; cbn [round_nearest_even]; (split; intros E);
    try discriminate; try reflexivity.
  - split; [right; reflexivity|reflexivity].
  - rewrite <- Z.negb_odd. destruct (Z.odd q); cbn [negb]; split; auto.
    discriminate.
Qed.

(** [binary_round_aux] on an exact mantissa: the mantissa is cut to 53
    digits, moved up by at most one unit, from the upper half only and
    always from there when the quotient is odd, and renormalised. *)
Lemma binary_round_aux_shape s m e :
  let e1 := fexp 53 1024 (Z.pos (digits2_pos m) + e) in
  let n := e1 - e in
  let q := Z.pos m / 2 ^ n in
  exists m2,
    binary_round_aux 53 1024 s (Z.pos m) e loc_Exact = round_tail s m2 (Z.max e e1) /\
    (n <= 0 -> m2 = Z.pos m) /\
    (0 < n ->
       (m2 = q \/ m2 = q + 1) /\
       (m2 = q + 1 -> 2 ^ (n - 1) <= Z.pos m mod 2 ^ n) /\
       (2 ^ (n - 1) <= Z.pos m mod 2 ^ n -> Z.odd q = true -> m2 = q + 1)).
Proof.
  intros e1 n q. unfold binary_round_aux, round_tail.
  destruct (Z.lt_ge_cases 0 n) as [Hn|Hn].
  - destruct (shr_fexp_shifted (Z.pos m) e ltac:(lia) Hn) as [Ee [Em Er]].
    cbn [Zdigits2] in Ee, Em, Er. fold e1 in Ee, Em, Er. fold n in Ee, Em, Er.
    destruct (shr_fexp 53 1024 (Z.pos m) e loc_Exact) as [mrs1 e1'].
    cbn [fst snd] in Ee, Em, Er. subst e1'.
    exists (round_nearest_even (shr_m mrs1) (loc_of_shr_record mrs1)).
    replace (Z.max e e1) with (e + n) by lia.
    split; [reflexivity|]. split; [lia|]. intros _.
    destruct (rne_round_bit mrs1) as [Hf Ht]. cbv zeta in Hf, Ht.
    set (m2 := round_nearest_even (shr_m mrs1) (loc_of_shr_record mrs1)) in *.
    rewrite Em in Hf, Ht. fold q in Hf, Ht.
    destruct (shr_r mrs1) eqn:R.
    + destruct (Ht eq_refl) as [Hc Hodd]. split; [exact Hc|]. split.
      * intros _. apply Er. reflexivity.
      * intros _. exact Hodd.
    + specialize (Hf eq_refl). split; [left; exact Hf|]. split.
      * intros E. lia.
      * intros Hh. assert (false = true) by (apply Er; split; lia). discriminate.
  - destruct (shr_fexp_exact (Z.pos m) e ltac:(lia)) as (_ & _ & Hid).
    cbn [Zdigits2] in Hid. fold e1 in Hid. fold n in Hid. rewrite (Hid Hn).
    cbn [shr_m loc_of_shr_record round_nearest_even].
    exists (Z.pos m). replace (Z.max e e1) with e by lia.
    split; [reflexivity|]. split; [reflexivity|lia].
Qed.

Lemma round_tail_canonical s p e1 :
  digits2_pos p = 53%positive -> -1074 <= e1 <= 971 ->
  round_tail s (Z.pos p) e1 = S754_finite s p e1.
Proof.
  intros Hd He. unfold round_tail.
  assert (E : shr_fexp 53 1024 (Z.pos p) e1 loc_Exact =
              (Build_shr_record (Z.pos p) false false, e1)).
  { apply shr_fexp_exact; [lia|]. cbn [Zdigits2]. rewrite Hd.
    unfold fexp, emin. lia. }
  rewrite E. cbn [shr_m]. destruct (Z.leb_spec e1 (1024 - 53)); [reflexivity|lia].
Qed.

Lemma round_tail_carry s e1 :
  -1074 <= e1 <= 970 ->
  round_tail s (2 ^ 53) e1 = S754_finite s 4503599627370496 (e1 + 1).
Proof.
  intros He. unfold round_tail, shr_fexp.
  change (Zdigits2 (2 ^ 53)) with 54.
  replace (fexp 53 1024 (54 + e1) - e1) with 1 by (unfold fexp, emin; lia).
  change (2 ^ 53) with 9007199254740992. cbn.
  destruct (Z.leb_spec (e1 + 1) (1024 - 53)); [reflexivity|lia].
Qed.

Lemma round_tail_bound s m2 e1 :
  0 <= m2 ->
  match round_tail s m2 e1 with
  | S754_finite s' m' e' => s' = s /\ (dyadic (Z.pos m') e' <= dyadic m2 e1)%Q
  | S754_nan => False
  | _ => True
  end.
Proof.
  intros Hm. unfold round_tail.
  pose proof (dyadic_shr_fexp m2 e1 Hm) as H2.
  destruct (shr_fexp_exact m2 e1 Hm) as (H3 & _ & _).
  destruct (shr_fexp 53 1024 m2 e1 loc_Exact) as [mrs2 e2]. cbn [fst snd] in *.
  destruct (shr_m mrs2) as [|p|p]; [exact I| |lia].
  destruct (e2 <=? 1024 - 53); [|exact I]. split; [reflexivity|exact H2].
Qed.

Lemma pow2_lt_inv a b : (pow2 a < pow2 b)%Q -> a < b.
Proof.
  intros H. destruct (Z.lt_ge_cases a b) as [|Hge]; [assumption|].
  pose proof (pow2_le b a Hge). lra.
Qed.

(** Rounding to nearest moves a value below [2^k] up by at most half a unit
    in the last place of that binade. *)
Lemma binary_round_aux_half s m e k :
  (dyadic (Z.pos m) e < pow2 k)%Q -> -1074 <= k - 53 ->
  match binary_round_aux 53 1024 s (Z.pos m) e loc_Exact with
  | S754_finite s' m' e' =>
      s' = s /\ (dyadic (Z.pos m') e' <= dyadic (Z.pos m) e + pow2 (k - 54))%Q
  | S754_nan => False
  | _ => True
  end.
Proof.
  intros Hlt Hk.
  destruct (binary_round_aux_shape s m e) as (m2 & -> & Hle & Hgt).
  set (e1 := fexp 53 1024 (Z.pos (digits2_pos m) + e)) in *.
  assert (He1 : e1 <= k - 53).
  { pose proof (digits2_pos_bounds m) as [Hd _].
    set (d := Z.pos (digits2_pos m)) in *.
    assert (d + e <= k).
    { assert (Hx : (pow2 (d - 1 + e) < pow2 k)%Q).
      { eapply Qle_lt_trans; [|exact Hlt]. unfold dyadic.
        rewrite pow2_add, (pow2_Z (d - 1)) by lia.
        rewrite Zle_Qle in Hd. pose proof (pow2_pos e).
        set (a := inject_Z (2 ^ (d - 1))) in *.
        set (c := inject_Z (Z.pos m)) in *. nra. }
      apply pow2_lt_inv in Hx. lia. }
    subst e1. unfold fexp, emin. lia. }
  assert (Hb : 0 <= m2 /\
               (dyadic m2 (Z.max e e1) <= dyadic (Z.pos m) e + pow2 (k - 54))%Q).
  { pose proof (pow2_pos (k - 54)) as Hpk.
    destruct (Z.lt_ge_cases 0 (e1 - e)) as [Hn|Hn].
    - destruct (Hgt Hn) as (Hc & Hup & _).
      assert (Hp : 0 < 2 ^ (e1 - e)) by (apply Z.pow_pos_nonneg; lia).
      pose proof (Z.div_mod (Z.pos m) (2 ^ (e1 - e)) ltac:(lia)) as Edm.
      pose proof (Z.mod_pos_bound (Z.pos m) (2 ^ (e1 - e)) Hp) as Bm.
      assert (0 <= Z.pos m / 2 ^ (e1 - e)) by (apply Z.div_pos; lia).
      split; [lia|].
      replace (Z.max e e1) with e1 by lia.
      assert (Hz : 2 * (m2 * 2 ^ (e1 - e)) <= 2 * Z.pos m + 2 ^ (e1 - e)).
      { assert (E2 : 2 ^ (e1 - e) = 2 * 2 ^ (e1 - e - 1)).
        { replace (e1 - e) with (e1 - e - 1 + 1) at 1 by lia.
          rewrite Z.pow_add_r by lia. change (2 ^ 1) with 2. ring. }
        destruct Hc as [->| ->]; [nia|].
        specialize (Hup eq_refl). nia. }
      rewrite Zle_Qle in Hz.
      rewrite inject_Z_plus, !inject_Z_mult in Hz.
      unfold dyadic.
      replace e1 with (e + (e1 - e)) at 1 by lia.
      rewrite pow2_add, (pow2_Z (e1 - e)) by lia.
      assert (Hp1 : (pow2 e * inject_Z (2 ^ (e1 - e)) <= 2 * pow2 (k - 54))%Q).
      { rewrite <- (pow2_Z (e1 - e)) by lia. rewrite <- pow2_add.
        replace (e + (e1 - e)) with e1 by lia.
        assert (Hq : (pow2 e1 <= pow2 (k - 53))%Q) by (apply pow2_le; exact He1).
        replace (k - 53) with (k - 54 + 1) in Hq by lia.
        rewrite pow2_add in Hq. change (pow2 1) with 2%Q in Hq. lra. }
      pose proof (pow2_pos e) as Hpe.
      change (inject_Z 2) with 2%Q in Hz.
      set (a := inject_Z m2) in *. set (b := inject_Z (2 ^ (e1 - e))) in *.
      set (c := inject_Z (Z.pos m)) in *. set (pe := pow2 e) in *.
      set (h := pow2 (k - 54)) in *.
      assert (2 * (a * b) * pe <= (2 * c + b) * pe)%Q by nra.
      nra.
    - rewrite (Hle Hn). split; [lia|].
      replace (Z.max e e1) with e by lia. lra. }
  destruct Hb as [Hm2 Hb].
  pose proof (round_tail_bound s m2 (Z.max e e1) Hm2) as Ht.
  destruct (round_tail s m2 (Z.max e e1)); auto.
  destruct Ht as [-> Ht]. split; [reflexivity|]. lra.
Qed.

Lemma digits2_pos_53 p :
  2 ^ 52 <= Z.pos p < 2 ^ 53 -> digits2_pos p = 53%positive.
Proof.
  intros Hp. pose proof (digits2_pos_bounds p) as [Hlo Hhi].
  set (d := Z.pos (digits2_pos p)) in *.
  assert (52 < d).
  { apply (Z.pow_lt_mono_r_iff 2); lia. }
  assert (d - 1 < 53).
  { apply (Z.pow_lt_mono_r_iff 2); lia. }
  subst d. lia.
Qed.

Lemma of_int_2p63 : F64.of_int (2 ^ 63) = S754_finite false 4503599627370496 11.
Proof. vm_compute. reflexivity. Qed.

(** [float64(v)] for a draw [0 < v < 2^63]: a 53-bit mantissa, and the
    value is 2^63 exactly from [2^63 - 512] on. *)
Lemma of_int_draw v :
  0 < v < 2 ^ 63 ->
  exists m e, F64.of_int v = S754_finite false m e /\
              digits2_pos m = 53%positive /\ -52 <= e <= 11 /\
              (e = 11 -> m = 4503599627370496%positive) /\
              (e = 11 <-> 2 ^ 63 - 512 <= v).
Proof.
  intros Hv. destruct (Z.lt_ge_cases v (2 ^ 53)) as [Hsmall|Hbig].
  - destruct (of_int_small v ltac:(lia)) as (m & e & E & Hd & He).
    exists m, e. split; [exact E|]. split; [exact Hd|]. split; [lia|].
    split; [lia|]. split; lia.
  - unfold F64.of_int, binary_normalize. destruct v as [|p|p]; try lia.
    unfold binary_round, F64.prec, F64.emax.
    pose proof (digits2_pos_bounds p) as [Hlo Hhi].
    set (d := Z.pos (digits2_pos p)) in *.
    assert (Hd : 54 <= d <= 63).
    { split.
      - assert (53 < d) by (apply (Z.pow_lt_mono_r_iff 2); lia). lia.
      - assert (d - 1 < 63) by (apply (Z.pow_lt_mono_r_iff 2); lia). lia. }
    assert (Ef : fexp 53 1024 (d + 0) = d - 53) by (unfold fexp, emin; lia).
    rewrite Ef. unfold shl_align.
    destruct (d - 53 - 0) as [|n0|n0] eqn:En; try lia.
    destruct (binary_round_aux_shape false p 0) as (m2 & -> & _ & Hgt).
    fold d in Hgt. rewrite Ef in Hgt. rewrite Z.sub_0_r in Hgt.
    replace (Z.max 0 (fexp 53 1024 (Z.pos (digits2_pos p) + 0))) with (d - 53)
      by (fold d; rewrite Ef; lia).
    destruct (Hgt ltac:(lia)) as (Hc & Hup & Hodd). clear Hgt.
    set (n := d - 53) in *.
    assert (Hp : 0 < 2 ^ n) by (apply Z.pow_pos_nonneg; lia).
    pose proof (Z.div_mod (Z.pos p) (2 ^ n) ltac:(lia)) as Edm.
    pose proof (Z.mod_pos_bound (Z.pos p) (2 ^ n) Hp) as Bm.
    set (q := Z.pos p / 2 ^ n) in *. set (r := Z.pos p mod 2 ^ n) in *.
    assert (Hq : 2 ^ 52 <= q < 2 ^ 53).
    { assert (E1 : 2 ^ (d - 1) = 2 ^ 52 * 2 ^ n).
      { rewrite <- Z.pow_add_r by lia. f_equal. lia. }
      assert (E2 : 2 ^ d = 2 ^ 53 * 2 ^ n).
      { rewrite <- Z.pow_add_r by lia. f_equal. lia. }
      split; nia. }
    assert (Htop : 2 ^ 63 - 512 <= Z.pos p -> m2 = 2 ^ 53).
    { intros Ht.
      assert (d = 63).
      { assert (62 < d) by (apply (Z.pow_lt_mono_r_iff 2); lia). lia. }
      assert (En10 : n = 10) by lia. rewrite En10 in *.
      change (2 ^ 10) with 1024 in *. change (2 ^ (10 - 1)) with 512 in *.
      assert (Eq : q = 2 ^ 53 - 1) by lia.
      rewrite (Hodd ltac:(lia)); [lia|]. rewrite Eq. reflexivity. }
    destruct (Z.eq_dec m2 (2 ^ 53)) as [E53|N53].
    + rewrite E53, round_tail_carry by lia.
      exists 4503599627370496%positive, (n + 1).
      split; [reflexivity|]. split; [reflexivity|]. split; [lia|].
      split; [reflexivity|]. split.
      * intros E11. assert (En10 : n = 10) by lia. rewrite En10 in *.
        change (2 ^ 10) with 1024 in *. change (2 ^ (10 - 1)) with 512 in *.
        assert (m2 = q + 1) by lia. specialize (Hup ltac:(assumption)). lia.
      * intros Ht.
        assert (62 < d) by (apply (Z.pow_lt_mono_r_iff 2); lia). lia.
    + assert (Hm2 : 2 ^ 52 <= m2 < 2 ^ 53) by lia.
      destruct m2 as [|p2|p2]; try lia.
      rewrite round_tail_canonical by (try apply digits2_pos_53; lia).
      exists p2, n. split; [reflexivity|]. split; [apply digits2_pos_53; lia|].
      split; [lia|]. split; [lia|]. split; [lia|].
      intros Ht. specialize (Htop Ht). lia.
Qed.

(** Dividing such a float by 2^63 only lowers its exponent. *)
Lemma div_2p63 m e :
  digits2_pos m = 53%positive -> -52 <= e <= 11 ->
  F64.div (S754_finite false m e) (S754_finite false 4503599627370496 11) =
  S754_finite false m (e - 63).
Proof.
  intros Hd He. unfold F64.div, F64.prec, F64.emax. cbn [SFdiv xorb].
  unfold SFdiv_core_binary. cbn [Zdigits2]. rewrite Hd.
  change (Z.pos (digits2_pos 4503599627370496)) with 53.
  replace (fexp 53 1024 (53 + e - (53 + 11))) with (e - 64) by (unfold fexp, emin; lia).
  replace (Z.min (e - 64) (e - 11)) with (e - 64) by lia.
  replace (e - 11 - (e - 64)) with 53 by lia.
  cbv beta iota zeta.
  assert (Ediv : Z.div_eucl (Z.shiftl (Z.pos m) 53) (Z.pos 4503599627370496)
                 = (Z.pos m~0, 0)).
  { rewrite Z.shiftl_mul_pow2 by lia.
    pose proof (Z.div_eucl_eq (Z.pos m * 2 ^ 53) 4503599627370496 ltac:(lia)) as Hq.
    pose proof (Z.mod_pos_bound (Z.pos m * 2 ^ 53) 4503599627370496 ltac:(lia)) as Hr.
    unfold Z.modulo in Hr.
    destruct (Z.div_eucl (Z.pos m * 2 ^ 53) 4503599627370496) as [q r].
    assert (r = 0 /\ q = Z.pos m~0) as [-> ->]; [|reflexivity].
    rewrite Pos2Z.inj_xO. change (2 ^ 53) with (2 * 4503599627370496) in Hq. lia. }
  rewrite Ediv.
  change (new_location (Z.pos 4503599627370496) 0) with loc_Exact.
  unfold binary_round_aux.
  assert (E1 : shr_fexp 53 1024 (Z.pos m~0) (e - 64) loc_Exact =
               (Build_shr_record (Z.pos m) false false, e - 63)).
  { unfold shr_fexp. cbn [Zdigits2 digits2_pos]. rewrite Hd.
    replace (fexp 53 1024 (Z.pos (Pos.succ 53) + (e - 64)) - (e - 64)) with 1
      by (unfold fexp, emin; lia).
    cbn. f_equal. lia. }
  rewrite E1. cbn [shr_m loc_of_shr_record round_nearest_even].
  assert (E2 : shr_fexp 53 1024 (Z.pos m) (e - 63) loc_Exact =
               (Build_shr_record (Z.pos m) false false, e - 63)).
  { apply shr_fexp_exact; [lia|]. cbn [Zdigits2]. rewrite Hd.
    unfold fexp, emin. lia. }
  rewrite E2. cbn [shr_m]. destruct (Z.leb_spec (e - 63) (1024 - 53)); [reflexivity|lia].
Qed.

(** ** The quotient of Float64 *)

(** The quotient of a draw is +0 or a positive float with a 53-bit
    mantissa, and it is 1 exactly for the draws from [2^63 - 512] on, which
    [float64] rounds to 2^63. *)
Lemma Float64_at_shape src q :
  let v := MathRand.src_Int63 src q in
  (v = 0 /\ Float64_at src q = S754_zero false) \/
  exists m e,
    0 < v /\ Float64_at src q = S754_finite false m (e - 63) /\
    digits2_pos m = 53%positive /\ -52 <= e <= 11 /\
    (e = 11 -> m = 4503599627370496%positive) /\
    (e = 11 <-> 2 ^ 63 - 512 <= v).
Proof.
  intros v. pose proof (src_Int63_range src q) as Hv. fold v in Hv.
  unfold Float64_at. fold v. rewrite of_int_2p63.
  destruct (Z.eq_dec v 0) as [E|Hne].
  - left. rewrite E. split; reflexivity.
  - right. destruct (of_int_draw v ltac:(lia)) as (m & e & -> & Hd & He & H11 & Hiff).
    exists m, e. split; [lia|]. rewrite div_2p63 by assumption.
    split; [reflexivity|]. auto.
Qed.

Lemma Float64_retries_iff src q :
  Float64_retries src q = true <-> 2 ^ 63 - 512 <= MathRand.src_Int63 src q.
Proof.
  unfold Float64_retries.
  destruct (Float64_at_shape src q) as [[E ->]|(m & e & Hv & -> & Hd & He & H11 & Hiff)].
  - rewrite E. split; [discriminate|]. intros H. exfalso. revert H. vm_compute. auto.
  - change F64.one with (S754_finite false 4503599627370496 (-52)).
    unfold F64.eqb, SFeqb. cbn [SFcompare].
    destruct (Z.compare_spec (e - 63) (-52)) as [Ec|Ec|Ec].
    + assert (E11 : e = 11) by lia. rewrite (H11 E11).
      split; [intros _; apply Hiff, E11|reflexivity].
    + split; [discriminate|]. intros H. apply Hiff in H. lia.
    + split; [discriminate|]. intros H. apply Hiff in H. lia.
Qed.

Lemma Float64_at_unit src q : unit_float (Float64_at src q).
Proof.
  destruct (Float64_at_shape src q) as [[_ ->]|(m & e & _ & -> & Hd & He & H11 & _)];
    [left; reflexivity|].
  right. exists m, (e - 63). split; [reflexivity|].
  destruct (Z.eq_dec e 11) as [E|E].
  - rewrite (H11 E), E. vm_compute. discriminate.
  - pose proof (digits2_pos_bounds m) as [_ Hhi]. rewrite Hd in Hhi.
    unfold dyadic.
    assert (Hp : (pow2 (e - 63) <= pow2 (-53))%Q) by (apply pow2_le; lia).
    assert (Hm : (inject_Z (Z.pos m) <= inject_Z (2 ^ 53))%Q) by (rewrite <- Zle_Qle; lia).
    assert (E1 : (inject_Z (2 ^ 53) * pow2 (-53) == 1)%Q) by (vm_compute; reflexivity).
    pose proof (pow2_pos (e - 63)). pose proof (pow2_pos (-53)).
    assert (0 <= inject_Z (Z.pos m))%Q by (apply inject_Z_nonneg; lia).
    set (a := inject_Z (Z.pos m)) in *. set (b := inject_Z (2 ^ 53)) in *.
    set (p := pow2 (e - 63)) in *. set (q0 := pow2 (-53)) in *.
    assert (a * p <= a * q0)%Q by nra.
    assert (a * q0 <= b * q0)%Q by nra.
    lra.
Qed.


Lemma two_value : F64.two = S754_finite false 4503599627370496 (-51).
Proof. vm_compute. reflexivity. Qed.

Lemma one_value : F64.one = S754_finite false 4503599627370496 (-52).
Proof. vm_compute. reflexivity. Qed.

Lemma mul_two_unit u :
  unit_float u -> nonneg_bound (2 * (1 + eps) + eta) (F64.mul F64.two u).
Proof.
  intros [->|(m & e & -> & Hu)]; rewrite two_value; [exact I|].
  unfold F64.mul, F64.prec, F64.emax. cbn [SFmul xorb].
  pose proof (binary_round_aux_bound false (4503599627370496 * m) (-51 + e)) as Hb.
  destruct (binary_round_aux 53 1024 false (Z.pos (4503599627370496 * m)) (-51 + e) loc_Exact);
    try exact I; try contradiction.
  destruct Hb as [-> Hb]. split; [reflexivity|].
  eapply Qle_trans; [exact Hb|].
  assert (E : (dyadic (Z.pos (4503599627370496 * m)) (-51 + e) == 2 * dyadic (Z.pos m) e)%Q).
  { unfold dyadic. rewrite Pos2Z.inj_mul, inject_Z_mult, pow2_add.
    assert (E2 : (inject_Z 4503599627370496 * pow2 (-51) == 2)%Q) by (vm_compute; reflexivity).
    set (a := inject_Z 4503599627370496) in *. set (b := pow2 (-51)) in *.
    set (c := inject_Z (Z.pos m)) in *. set (p := pow2 e) in *.
    transitivity ((a * b) * (c * p))%Q; [ring|]. rewrite E2. reflexivity. }
  rewrite E. pose proof (dyadic_nonneg m e).
  set (v := dyadic (Z.pos m) e) in *. abstract_consts.
  assert (v * ep <= 1 * ep)%Q by nra. lra.
Qed.

(** [x - 1] for a non-negative [x] of at most [W], with [W >= 2]. *)
Lemma sub_one_fbound W x :
  (2 <= W)%Q -> nonneg_bound W x ->
  fbound ((W - 1) * (1 + eps) + eta) (F64.sub x F64.one).
Proof.
  intros HW Hx. rewrite one_value.
  destruct x as [s|s| |s m e]; try exact I; try contradiction.
  - unfold F64.sub. cbn [SFsub fbound negb].
    assert (E : (dyadic 4503599627370496 (-52) == 1)%Q) by (vm_compute; reflexivity).
    rewrite E. abstract_consts.
    assert (0 <= (W - 1) * ep)%Q by nra. lra.
  - destruct Hx as [-> Hx]. unfold F64.sub, F64.prec, F64.emax. cbn [SFsub cond_Zopp].
    set (ez := Z.min e (-52)).
    destruct (shl_align_value m e ez) as [Ea Ha].
    destruct (shl_align_value 4503599627370496 (-52) ez) as [Eb Hb].
    rewrite Ha in Ea by (subst ez; lia). rewrite Hb in Eb by (subst ez; lia).
    set (A := fst (shl_align m e ez)) in *.
    set (B := fst (shl_align 4503599627370496 (-52) ez)) in *.
    assert (E1 : (dyadic 4503599627370496 (-52) == 1)%Q) by (vm_compute; reflexivity).
    rewrite E1 in Eb.
    pose proof (dyadic_nonneg m e) as Hm0.
    assert (Ed : forall z, (dyadic z ez == inject_Z z * pow2 ez)%Q) by reflexivity.
    unfold binary_normalize.
    destruct (Z.pos A - Z.pos B) as [|p|p] eqn:EM; [exact I| |].
    + pose proof (binary_round_bound false p ez) as Hr.
      destruct (binary_round 53 1024 false p ez); try exact I.
      destruct Hr as [_ Hr]. cbn [fbound]. eapply Qle_trans; [exact Hr|].
      assert (Ep : (dyadic (Z.pos p) ez == dyadic (Z.pos m) e - 1)%Q).
      { rewrite <- Ea, <- Eb, <- EM. unfold dyadic.
        unfold Z.sub. rewrite inject_Z_plus, inject_Z_opp. ring. }
      rewrite Ep. set (v := dyadic (Z.pos m) e) in *. abstract_consts.
      assert (0 <= (W - 1) * ep)%Q by nra.
      assert (v * ep <= W * ep)%Q by nra. nra.
    + pose proof (binary_round_bound true p ez) as Hr.
      destruct (binary_round 53 1024 true p ez); try exact I.
      destruct Hr as [_ Hr]. cbn [fbound]. eapply Qle_trans; [exact Hr|].
      assert (Ep : (dyadic (Z.pos p) ez == 1 - dyadic (Z.pos m) e)%Q).
      { rewrite <- Ea, <- Eb. unfold dyadic.
        replace (Z.pos p) with (Z.pos B - Z.pos A) by lia.
        unfold Z.sub. rewrite inject_Z_plus, inject_Z_opp. ring. }
      rewrite Ep. set (v := dyadic (Z.pos m) e) in *. abstract_consts.
      assert (0 <= (W - 1) * ep)%Q by nra.
      assert (v * ep <= W * ep)%Q by nra. nra.
Qed.

Lemma of_int_fbound d :
  0 < d -> fbound (inject_Z d * (1 + eps) + eta) (F64.of_int d).
Proof.
  intros Hd. unfold F64.of_int, binary_normalize, F64.prec, F64.emax.
  destruct d as [|p|p]; try lia.
  pose proof (binary_round_bound false p 0) as Hr.
  destruct (binary_round 53 1024 false p 0); try exact I.
  destruct Hr as [_ Hr]. cbn [fbound]. eapply Qle_trans; [exact Hr|].
  assert (E : (dyadic (Z.pos p) 0 == inject_Z (Z.pos p))%Q).
  { unfold dyadic. change (pow2 0) with 1%Q. ring. }
  rewrite E. apply Qle_refl.
Qed.

Lemma trunc_bound s m e : (inject_Z (Z.abs (F64.trunc s m e)) <= dyadic (Z.pos m) e)%Q.
Proof.
  unfold F64.trunc.
  assert (Ha : forall a, 0 <= a -> Z.abs (if s then - a else a) = a)
    by (intros a Ha; destruct s; lia).
  destruct (Z.leb_spec 0 e) as [He|He].
  - rewrite Ha by (apply Z.mul_nonneg_nonneg; [lia|apply Z.pow_nonneg; lia]).
    unfold dyadic. rewrite inject_Z_mult, (pow2_Z e) by lia. apply Qle_refl.
  - assert (0 < 2 ^ (- e)) by (apply Z.pow_pos_nonneg; lia).
    rewrite Ha by (apply Z.div_pos; lia).
    pose proof (dyadic_floor (Z.pos m) e (- e) ltac:(lia) ltac:(lia)) as Hf.
    replace (e + - e) with 0 in Hf by lia.
    eapply Qle_trans; [|exact Hf].
    unfold dyadic. change (pow2 0) with 1%Q. rewrite Qmult_1_r. apply Qle_refl.
Qed.

Lemma to_int64_fbound B x :
  (0 <= B)%Q -> fbound B x ->
  F64.to_int64 x = Int64.min_int \/ (inject_Z (Z.abs (F64.to_int64 x)) <= B)%Q.
Proof.
  intros HB Hx. destruct x as [s|s| |s m e]; cbn [F64.to_int64]; auto.
  destruct ((Int64.min_int <=? F64.trunc s m e) && (F64.trunc s m e <=? Int64.max_int));
    auto.
  right. eapply Qle_trans; [apply trunc_bound|exact Hx].
Qed.

(** The factor [Jitter] uses is a positive float or +Inf. *)
Lemma jitterFactor_positive maxFactor :
  let f := Xrand.jitterFactor maxFactor in
  (0 <= float_value f)%Q /\ fbound (float_value f) f.
Proof.
  assert (Hd : (0 <= float_value Xrand.defaultJitterFactor)%Q /\
               fbound (float_value Xrand.defaultJitterFactor) Xrand.defaultJitterFactor).
  { split; [vm_compute; discriminate|]. cbn. apply Qle_refl. }
  intros f. subst f. destruct maxFactor as [|f0 rest]; [exact Hd|].
  cbn [Xrand.jitterFactor].
  destruct (F64.ltb F64.zero f0) eqn:E; [|exact Hd].
  destruct f0 as [s|s| |s m e]; try discriminate E.
  - split; [apply Qle_refl|exact I].
  - destruct s; [discriminate E|]. cbn [float_value fbound]. split.
    + apply dyadic_nonneg.
    + apply Qle_refl.
Qed.

Lemma Float64_unit src fuel pos u pos' :
  MathRand.Float64 src fuel pos = Ok u pos' -> unit_float u.
Proof.
  intros E. destruct (Float64_returns src fuel pos u pos' E) as (q & _ & _ & -> & _).
  apply Float64_at_unit.
Qed.

Lemma randRange_fbound u :
  unit_float u ->
  fbound range_bound (F64.sub (F64.mul F64.two u) F64.one).
Proof.
  intros Hu. apply sub_one_fbound; [|apply mul_two_unit, Hu].
  pose proof eps_pos. pose proof eta_pos.
  set (ep := eps) in *. set (et := eta) in *. clearbody ep et. lra.
Qed.

Lemma jitterOf_bound duration factor u :
  0 < duration <= Int64.max_int ->
  (0 <= float_value factor)%Q -> fbound (float_value factor) factor ->
  unit_float u ->
  Xrand.jitterOf duration factor u = Int64.min_int \/
  (inject_Z (Z.abs (Xrand.jitterOf duration factor u))
   <= (1 + (1 # 562949953421312)) * float_value factor * inject_Z duration)%Q.
Proof.
  intros Hd HF Hf Hu. unfold Xrand.jitterOf.
  pose proof (randRange_fbound u Hu) as Hr.
  set (r := F64.sub (F64.mul F64.two u) F64.one) in *.
  set (F := float_value factor) in *.
  assert (HR0 : (0 <= range_bound)%Q) by (vm_compute; discriminate).
  pose proof (mul_fbound _ _ r factor HR0 HF Hr Hf) as HX.
  pose proof (of_int_fbound duration ltac:(lia)) as HD.
  assert (Hd1 : (1 <= inject_Z duration)%Q)
    by (change 1%Q with (inject_Z 1); rewrite <- Zle_Qle; lia).
  assert (Hd2 : (inject_Z duration <= inject_Z (2 ^ 63))%Q)
    by (rewrite <- Zle_Qle; unfold Int64.max_int in Hd; lia).
  set (dq := inject_Z duration) in *.
  assert (HBX : (0 <= range_bound * F * (1 + eps) + eta)%Q).
  { pose proof eps_pos. pose proof eta_pos.
    assert (0 <= range_bound * F)%Q by nra.
    assert (0 <= range_bound * F * eps)%Q by nra. lra. }
  assert (HBD : (0 <= dq * (1 + eps) + eta)%Q).
  { pose proof eps_pos. pose proof eta_pos.
    assert (0 <= dq * eps)%Q by nra. lra. }
  pose proof (mul_fbound _ _ _ _ HBX HBD HX HD) as HP.
  set (T := ((range_bound * F * (1 + eps) + eta) * (dq * (1 + eps) + eta) * (1 + eps) + eta)%Q) in *.
  assert (HT0 : (0 <= T)%Q).
  { subst T. pose proof eps_pos. pose proof eta_pos.
    set (x := (range_bound * F * (1 + eps) + eta)%Q) in *.
    set (y := (dq * (1 + eps) + eta)%Q) in *.
    assert (0 <= x * y)%Q by nra. assert (0 <= x * y * eps)%Q by nra. lra. }
  destruct (to_int64_fbound T _ HT0 HP) as [Hmin|Hj]; [left; exact Hmin|right].
  set (j := F64.to_int64 (F64.mul (F64.mul r factor) (F64.of_int duration))) in *.
  (* constants *)
  set (c1 := (range_bound * (1 + eps) * ((1 + eps) * (1 + eps))
              + range_bound * (1 + eps) * (1 + eps) * eta)%Q).
  set (c2 := (eta * ((1 + eps) * (1 + eps) * inject_Z (2 ^ 63) + (1 + eps) * eta + 1))%Q).
  assert (Hc : (c1 + 4 * c2 <= 1 + (1 # 562949953421312))%Q) by (vm_compute; discriminate).
  assert (Hc1 : (0 <= c1 <= 2)%Q) by (split; vm_compute; discriminate).
  assert (Hc2 : (0 <= c2 <= 1 # 2)%Q) by (split; vm_compute; discriminate).
  assert (HT : (T <= F * dq * c1 + c2)%Q).
  { subst T c1 c2. pose proof eps_pos. pose proof eta_pos.
    set (R := range_bound) in *. set (dm := inject_Z (2 ^ 63)) in *.
    set (ep := eps) in *. set (et := eta) in *. clearbody R ep et dm.
    assert (Eq : ((R * F * (1 + ep) + et) * (dq * (1 + ep) + et) * (1 + ep) + et ==
                  F * dq * (R * (1 + ep) * ((1 + ep) * (1 + ep)))
                  + F * (R * (1 + ep) * (1 + ep) * et)
                  + dq * ((1 + ep) * (1 + ep) * et)
                  + ((1 + ep) * et * et + et))%Q) by ring.
    rewrite Eq.
    assert (F <= F * dq)%Q by nra.
    set (k1 := (R * (1 + ep) * (1 + ep) * et)%Q) in *.
    assert (0 <= k1)%Q.
    { subst k1. assert (0 <= R * (1 + ep))%Q by nra.
      assert (0 <= R * (1 + ep) * (1 + ep))%Q by nra. nra. }
    set (k2 := ((1 + ep) * (1 + ep) * et)%Q) in *.
    assert (0 <= k2)%Q.
    { subst k2. assert (0 <= (1 + ep) * (1 + ep))%Q by nra. nra. }
    assert (F * k1 <= F * dq * k1)%Q by nra.
    assert (dq * k2 <= dm * k2)%Q by nra.
    set (k0 := (R * (1 + ep) * ((1 + ep) * (1 + ep)))%Q) in *.
    set (y := (F * dq)%Q) in *.
    assert (E2 : (y * (k0 + k1) + et * ((1 + ep) * (1 + ep) * dm + (1 + ep) * et + 1) ==
                  y * k0 + y * k1 + dm * k2 + ((1 + ep) * et * et + et))%Q)
      by (subst k2; ring).
    assert (E3 : (R * (1 + ep) * (1 + ep) * et == k1)%Q) by reflexivity.
    rewrite E2. lra. }
  destruct (Qlt_le_dec T 1) as [Hsmall|Hbig].
  - assert (Hz : Z.abs j = 0).
    { assert (Hlt : (inject_Z (Z.abs j) < inject_Z 1)%Q)
        by (change (inject_Z 1) with 1%Q; lra).
      rewrite <- Zlt_Qlt in Hlt. lia. }
    rewrite Hz. change (inject_Z 0) with 0%Q.
    assert (0 <= F * dq)%Q by nra. nra.
  - set (y := (F * dq)%Q) in *.
    assert (0 <= y)%Q by (subst y; nra).
    assert (Hy : (1 # 4 <= y)%Q) by nra.
    assert (c2 <= 4 * c2 * y)%Q by nra.
    assert (T <= y * (c1 + 4 * c2))%Q by nra.
    assert (y * (c1 + 4 * c2) <= y * (1 + (1 # 562949953421312)))%Q by nra.
    assert (Ey : ((1 + (1 # 562949953421312)) * F * dq ==
                  y * (1 + (1 # 562949953421312)))%Q) by (subst y; ring).
    rewrite Ey. lra.
Qed.

(** ** The upper end of Jitter(2s)

    With the default factor and a duration of 2s the jitter stays below
    0.4s: [2*u - 1] is exact for the draws that make it positive, and each
    of the two products is rounded up by at most half a unit in the last
    place. *)

Lemma digits2_pos_of_bounds p d :
  2 ^ (d - 1) <= Z.pos p < 2 ^ d -> Z.pos (digits2_pos p) = d.
Proof.
  intros Hp. pose proof (digits2_pos_bounds p) as [Hlo Hhi].
  set (dg := Z.pos (digits2_pos p)) in *.
  assert (0 < d).
  { destruct (Z.lt_ge_cases 0 d) as [|Hd]; [assumption|]. exfalso.
    destruct (Z.eq_dec d 0) as [->|Hne]; [change (2 ^ 0) with 1 in Hp; lia|].
    rewrite (Z.pow_neg_r 2 d) in Hp by lia. lia. }
  assert (d - 1 < dg) by (apply (Z.pow_lt_mono_r_iff 2); lia).
  assert (dg - 1 < d) by (apply (Z.pow_lt_mono_r_iff 2); lia).
  lia.
Qed.

(** Doubling a float with a 53-bit mantissa only raises its exponent. *)
Lemma mul_two_exact m e :
  digits2_pos m = 53%positive -> -1075 <= e <= 969 ->
  F64.mul F64.two (S754_finite false m e) = S754_finite false m (e + 1).
Proof.
  intros Hd He.
  change F64.two with (S754_finite false 4503599627370496 (-51)).
  unfold F64.mul, F64.prec, F64.emax. cbn [SFmul xorb].
  pose proof (digits2_pos_bounds m) as [Hlo Hhi]. rewrite Hd in Hlo, Hhi.
  change (2 ^ (53 - 1)) with (2 ^ 52) in Hlo.
  assert (Hdg : Z.pos (digits2_pos (4503599627370496 * m)) = 105).
  { apply digits2_pos_of_bounds. rewrite Pos2Z.inj_mul.
    change (2 ^ (105 - 1)) with (4503599627370496 * 2 ^ 52).
    change (2 ^ 105) with (4503599627370496 * 2 ^ 53). lia. }
  destruct (binary_round_aux_shape false (4503599627370496 * m) (-51 + e))
    as (m2 & -> & _ & Hgt).
  rewrite Hdg in Hgt.
  replace (Z.max (-51 + e) (fexp 53 1024 (Z.pos (digits2_pos (4503599627370496 * m)) + (-51 + e))))
    with (e + 1) by (rewrite Hdg; unfold fexp, emin; lia).
  replace (fexp 53 1024 (105 + (-51 + e)) - (-51 + e)) with 52 in Hgt
    by (unfold fexp, emin; lia).
  destruct (Hgt ltac:(lia)) as (Hc & Hup & _).
  rewrite Pos2Z.inj_mul in Hc, Hup.
  change (Z.pos 4503599627370496) with (2 ^ 52) in Hc, Hup.
  rewrite (Z.mul_comm (2 ^ 52)) in Hc, Hup.
  rewrite Z.div_mul in Hc, Hup by lia. rewrite Z.mod_mul in Hup by lia.
  assert (Em : m2 = Z.pos m).
  { destruct Hc as [E|E]; [exact E|]. specialize (Hup E).
    change (2 ^ (52 - 1)) with 2251799813685248 in Hup. lia. }
  rewrite Em. apply round_tail_canonical; [exact Hd|lia].
Qed.

(** A mantissa of at most 53 digits is not rounded. *)
Lemma binary_round_exact s p e :
  Z.pos p < 2 ^ 53 ->
  -1074 <= Z.pos (digits2_pos p) + e - 53 <= 971 ->
  exists m' e',
    binary_round 53 1024 s p e = S754_finite s m' e' /\
    (dyadic (Z.pos m') e' == dyadic (Z.pos p) e)%Q.
Proof.
  intros Hp He. unfold binary_round.
  pose proof (digits2_pos_bounds p) as [Hlo Hhi].
  set (d := Z.pos (digits2_pos p)) in *.
  assert (Hd : 1 <= d <= 53).
  { split; [subst d; lia|]. destruct (Z.le_gt_cases d 53) as [H|H]; [exact H|].
    exfalso. assert (2 ^ 53 <= 2 ^ (d - 1)) by (apply Z.pow_le_mono_r; lia). lia. }
  assert (Ef : fexp 53 1024 (d + e) = d + e - 53) by (unfold fexp, emin; lia).
  rewrite Ef.
  destruct (shl_align_value p e (d + e - 53)) as [Hv Hs].
  specialize (Hs ltac:(lia)).
  assert (Hdg : digits2_pos (fst (shl_align p e (d + e - 53))) = 53%positive).
  { unfold shl_align. destruct (d + e - 53 - e) as [|n|n] eqn:En; cbn [fst].
    - subst d. lia.
    - lia.
    - rewrite iter_xO_digits. subst d. lia. }
  destruct (shl_align p e (d + e - 53)) as [mz ez]. cbn [fst snd] in *.
  subst ez. exists mz, (d + e - 53). split; [|exact Hv].
  apply binary_round_aux_canonical; [exact Hdg|lia].
Qed.

(** The sign of what rounding returns is the sign that went in. *)
Lemma round_tail_sign s m2 e1 :
  0 <= m2 ->
  match round_tail s m2 e1 with
  | S754_zero s' | S754_finite s' _ _ | S754_infinity s' => s' = s
  | S754_nan => False
  end.
Proof.
  intros Hm. unfold round_tail.
  destruct (shr_fexp_exact m2 e1 Hm) as (H3 & _ & _).
  destruct (shr_fexp 53 1024 m2 e1 loc_Exact) as [mrs2 e2]. cbn [fst] in H3.
  destruct (shr_m mrs2) as [|p|p]; [reflexivity| |lia].
  destruct (e2 <=? 1024 - 53); reflexivity.
Qed.

Lemma binary_round_aux_nonpos m e :
  nonpos (binary_round_aux 53 1024 true (Z.pos m) e loc_Exact).
Proof.
  destruct (binary_round_aux_shape true m e) as (m2 & -> & Hle & Hgt).
  set (n := fexp 53 1024 (Z.pos (digits2_pos m) + e) - e) in *.
  set (e1 := Z.max e (fexp 53 1024 (Z.pos (digits2_pos m) + e))).
  assert (Hm : 0 <= m2).
  { destruct (Z.lt_ge_cases 0 n) as [Hn|Hn].
    - destruct (Hgt Hn) as (Hc & _).
      assert (0 <= Z.pos m / 2 ^ n)
        by (apply Z.div_pos; [lia|apply Z.pow_pos_nonneg; lia]).
      destruct Hc; lia.
    - rewrite (Hle Hn). lia. }
  pose proof (round_tail_sign true m2 e1 Hm) as Hs.
  destruct (round_tail true m2 e1) as [s'|s'| |s' m' e']; try subst s'; auto;
    exact I.
Qed.

Lemma binary_round_nonpos m e : nonpos (binary_round 53 1024 true m e).
Proof.
  unfold binary_round.
  destruct (shl_align m e (fexp 53 1024 (Z.pos (digits2_pos m) + e))) as [mz ez].
  apply binary_round_aux_nonpos.
Qed.

Lemma mul_nonpos x my ey :
  nonpos x -> nonpos (F64.mul x (S754_finite false my ey)).
Proof.
  unfold F64.mul. destruct x as [s|[|]| |[|] m e]; try contradiction; intros _.
  - exact I.
  - exact I.
  - cbn [SFmul xorb]. apply binary_round_aux_nonpos.
Qed.

Lemma to_int64_nonpos x : nonpos x -> F64.to_int64 x <= 0.
Proof.
  assert (Hmin : Int64.min_int <= 0) by (vm_compute; discriminate).
  destruct x as [s|[|]| |[|] m e]; try contradiction; intros _;
    cbn [F64.to_int64]; try lia.
  assert (Ht : F64.trunc true m e <= 0).
  { unfold F64.trunc. cbv zeta. destruct (Z.leb_spec 0 e).
    - assert (0 <= Z.pos m * 2 ^ e)
        by (apply Z.mul_nonneg_nonneg; [lia|apply Z.pow_nonneg; lia]).
      lia.
    - assert (0 <= Z.pos m / 2 ^ (- e))
        by (apply Z.div_pos; [lia|apply Z.pow_pos_nonneg; lia]).
      lia. }
  destruct ((Int64.min_int <=? F64.trunc true m e) && (F64.trunc true m e <=? Int64.max_int));
    lia.
Qed.

(** [t - 1] for a float [t < 2] with a 53-bit mantissa: not positive, or
    exact and at most [1 - 2^-52]. *)
Lemma sub_one_draw m et :
  digits2_pos m = 53%positive -> -1000 <= et <= -52 ->
  let r := F64.sub (S754_finite false m et) F64.one in
  nonpos r \/
  exists m' e', r = S754_finite false m' e' /\
                (dyadic (Z.pos m') e' <= 1 - pow2 (-52))%Q.
Proof.
  intros Hd He r. subst r.
  change F64.one with (S754_finite false 4503599627370496 (-52)).
  unfold F64.sub, F64.prec, F64.emax. cbn [SFsub cond_Zopp negb].
  set (ez := Z.min et (-52)).
  destruct (shl_align_value m et ez) as [Ea Ha].
  destruct (shl_align_value 4503599627370496 (-52) ez) as [Eb Hb].
  rewrite Ha in Ea by (subst ez; lia). rewrite Hb in Eb by (subst ez; lia).
  set (A := fst (shl_align m et ez)) in *.
  set (B := fst (shl_align 4503599627370496 (-52) ez)) in *.
  assert (E1 : (dyadic 4503599627370496 (-52) == 1)%Q) by (vm_compute; reflexivity).
  rewrite E1 in Eb.
  unfold binary_normalize.
  destruct (Z.pos A - Z.pos B) as [|p|p] eqn:EM.
  - left. exact I.
  - right.
    assert (Ep : (dyadic (Z.pos p) ez == dyadic (Z.pos m) et - 1)%Q).
    { rewrite <- Ea, <- Eb, <- EM. unfold dyadic.
      unfold Z.sub. rewrite inject_Z_plus, inject_Z_opp. ring. }
    pose proof (digits2_pos_bounds m) as [_ Hhi]. rewrite Hd in Hhi.
    assert (Hpos : (0 < dyadic (Z.pos p) ez)%Q).
    { unfold dyadic. pose proof (pow2_pos ez).
      assert (0 < inject_Z (Z.pos p))%Q
        by (change 0%Q with (inject_Z 0); rewrite <- Zlt_Qlt; lia).
      nra. }
    assert (Hm : (inject_Z (Z.pos m) <= inject_Z (2 ^ 53 - 1))%Q)
      by (rewrite <- Zle_Qle; lia).
    assert (H0m : (0 <= inject_Z (Z.pos m))%Q) by (apply inject_Z_nonneg; lia).
    assert (Eet : et = -52).
    { destruct (Z.eq_dec et (-52)) as [|Hne]; [assumption|exfalso].
      assert (Hp : (pow2 et <= pow2 (-53))%Q) by (apply pow2_le; lia).
      assert (Ec : (inject_Z (2 ^ 53 - 1) * pow2 (-53) < 1)%Q) by (vm_compute; reflexivity).
      pose proof (pow2_pos et). pose proof (pow2_pos (-53)).
      unfold dyadic in Ep, Hpos.
      set (a := inject_Z (Z.pos m)) in *. set (b := inject_Z (2 ^ 53 - 1)) in *.
      set (x := pow2 et) in *. set (y := pow2 (-53)) in *.
      assert (a * x <= a * y)%Q by nra. assert (a * y <= b * y)%Q by nra.
      rewrite Ep in Hpos. lra. }
    assert (Eez : ez = -52) by (subst ez; lia).
    rewrite Eet in Ep. rewrite Eez in *.
    assert (Hval : (dyadic (Z.pos p) (-52) <= 1 - pow2 (-52))%Q).
    { rewrite Ep. unfold dyadic.
      assert (Ec : (inject_Z (2 ^ 53 - 1) * pow2 (-52) - 1 == 1 - pow2 (-52))%Q)
        by (vm_compute; reflexivity).
      pose proof (pow2_pos (-52)).
      set (a := inject_Z (Z.pos m)) in *. set (b := inject_Z (2 ^ 53 - 1)) in *.
      set (y := pow2 (-52)) in *.
      assert (a * y <= b * y)%Q by nra. lra. }
    assert (Hp53 : Z.pos p < 2 ^ 53).
    { assert (Hq : (inject_Z (Z.pos p) < inject_Z (2 ^ 53))%Q).
      { unfold dyadic in Hval.
        assert (Ec : (inject_Z (2 ^ 53) * pow2 (-52) == 2)%Q) by (vm_compute; reflexivity).
        pose proof (pow2_pos (-52)).
        set (a := inject_Z (Z.pos p)) in *. set (b := inject_Z (2 ^ 53)) in *.
        set (y := pow2 (-52)) in *.
        destruct (Qlt_le_dec a b) as [|Hge]; [assumption|exfalso].
        assert (b * y <= a * y)%Q by nra. lra. }
      rewrite <- Zlt_Qlt in Hq. exact Hq. }
    pose proof (digits2_pos_bounds p) as [Hlo' _].
    assert (Hdp : 1 <= Z.pos (digits2_pos p) <= 53).
    { split; [lia|].
      destruct (Z.le_gt_cases (Z.pos (digits2_pos p)) 53) as [H|H]; [exact H|].
      exfalso.
      assert (2 ^ 53 <= 2 ^ (Z.pos (digits2_pos p) - 1)) by (apply Z.pow_le_mono_r; lia).
      lia. }
    destruct (binary_round_exact false p (-52) Hp53 ltac:(lia)) as (m' & e' & -> & Ev).
    exists m', e'. split; [reflexivity|]. rewrite Ev. exact Hval.
  - left. apply binary_round_nonpos.
Qed.

(** With the default factor and 2s, a draw that [Float64] keeps gives a
    jitter of at most 399999999ns. *)
Lemma jitterOf_two_seconds src q :
  Float64_retries src q = false ->
  Xrand.jitterOf 2000000000 Xrand.defaultJitterFactor (Float64_at src q) <= 399999999.
Proof.
  intros Hr. unfold Xrand.jitterOf.
  assert (Hnot : ~ 2 ^ 63 - 512 <= MathRand.src_Int63 src q).
  { intros H. apply Float64_retries_iff in H. rewrite H in Hr. discriminate. }
  destruct (Float64_at_shape src q) as [[_ ->]|(m & e & _ & -> & Hd & He & _ & Hiff)].
  { vm_compute. discriminate. }
  assert (He10 : e <= 10).
  { destruct (Z.eq_dec e 11) as [E|E]; [|lia]. exfalso. apply Hnot, Hiff, E. }
  rewrite mul_two_exact by (assumption || lia).
  assert (ED : F64.of_int 2000000000 = S754_finite false 8388608000000000 (-22))
    by (vm_compute; reflexivity).
  rewrite ED. unfold Xrand.defaultJitterFactor.
  assert (Hnp : forall r,
    nonpos r ->
    F64.to_int64 (F64.mul (F64.mul r (S754_finite false 7205759403792794 (-55)))
                    (S754_finite false 8388608000000000 (-22))) <= 399999999).
  { intros r Hn. pose proof (to_int64_nonpos _ (mul_nonpos _ 8388608000000000 (-22)
      (mul_nonpos r 7205759403792794 (-55) Hn))). lia. }
  destruct (sub_one_draw m (e - 63 + 1) Hd ltac:(lia)) as [Hn|(m' & e' & -> & Hval)];
    [apply Hnp, Hn|].
  (* the first product *)
  unfold F64.mul at 2. cbn [SFmul xorb]. unfold F64.prec, F64.emax.
  set (fq := dyadic 7205759403792794 (-55)).
  assert (Ex : (dyadic (Z.pos (m' * 7205759403792794)) (e' + -55) ==
                dyadic (Z.pos m') e' * fq)%Q).
  { unfold fq, dyadic. rewrite Pos2Z.inj_mul, inject_Z_mult, pow2_add. ring. }
  assert (Hfq : (0 <= fq)%Q) by (vm_compute; discriminate).
  assert (Hx : (dyadic (Z.pos m') e' * fq <= (1 - pow2 (-52)) * fq)%Q).
  { pose proof (dyadic_nonneg m' e').
    set (a := dyadic (Z.pos m') e') in *. set (b := (1 - pow2 (-52))%Q) in *. nra. }
  assert (Hc1 : ((1 - pow2 (-52)) * fq < pow2 (-2))%Q) by (vm_compute; reflexivity).
  pose proof (binary_round_aux_half false (m' * 7205759403792794) (e' + -55) (-2)) as HA.
  rewrite Ex in HA. specialize (HA ltac:(lra) ltac:(lia)).
  destruct (binary_round_aux 53 1024 false (Z.pos (m' * 7205759403792794)) (e' + -55) loc_Exact)
    as [sA|sA| |sA mA eA]; try contradiction.
  { vm_compute. destruct sA; discriminate. }
  { cbn. destruct sA; vm_compute; discriminate. }
  destruct HA as [-> HA]. change (pow2 (-2 - 54)) with (pow2 (-56)) in HA.
  (* the second product *)
  unfold F64.mul. cbn [SFmul xorb]. unfold F64.prec, F64.emax.
  assert (Ey : (dyadic (Z.pos (mA * 8388608000000000)) (eA + -22) ==
                dyadic (Z.pos mA) eA * inject_Z 2000000000)%Q).
  { assert (E2 : (dyadic 8388608000000000 (-22) == inject_Z 2000000000)%Q)
      by (vm_compute; reflexivity).
    rewrite <- E2. unfold dyadic. rewrite Pos2Z.inj_mul, inject_Z_mult, pow2_add. ring. }
  set (B1 := ((1 - pow2 (-52)) * fq + pow2 (-56))%Q) in *.
  assert (HB1 : (dyadic (Z.pos mA) eA <= B1)%Q) by (subst B1; lra).
  assert (Hc2 : (B1 * inject_Z 2000000000 < pow2 29)%Q) by (vm_compute; reflexivity).
  assert (Hc3 : (B1 * inject_Z 2000000000 + pow2 (-25) < inject_Z 400000000)%Q)
    by (vm_compute; reflexivity).
  assert (Hy : (dyadic (Z.pos mA) eA * inject_Z 2000000000 <= B1 * inject_Z 2000000000)%Q).
  { assert (0 <= inject_Z 2000000000)%Q by (vm_compute; discriminate).
    set (a := dyadic (Z.pos mA) eA) in *. set (d := inject_Z 2000000000) in *.
    clearbody B1. nra. }
  pose proof (binary_round_aux_half false (mA * 8388608000000000) (eA + -22) 29) as HX.
  rewrite Ey in HX. specialize (HX ltac:(lra) ltac:(lia)).
  destruct (binary_round_aux 53 1024 false (Z.pos (mA * 8388608000000000)) (eA + -22) loc_Exact)
    as [sX|sX| |sX mX eX]; try contradiction.
  { cbn. lia. }
  { cbn. vm_compute. discriminate. }
  destruct HX as [-> HX]. change (pow2 (29 - 54)) with (pow2 (-25)) in HX.
  pose proof (trunc_bound false mX eX) as Ht.
  assert (Hlt : (inject_Z (Z.abs (F64.trunc false mX eX)) < inject_Z 400000000)%Q) by lra.
  rewrite <- Zlt_Qlt in Hlt.
  cbn [F64.to_int64].
  destruct ((Int64.min_int <=? F64.trunc false mX eX) && (F64.trunc false mX eX <=? Int64.max_int)).
  - lia.
  - vm_compute. discriminate.
Qed.

(** C8, as the code has it.  The factor [f] that [Jitter] uses is the first
    supplied one when it is greater than 0.0 and the [float64] nearest to 0.2
    otherwise.  For every duration [d > 0], every value that [Jitter] returns
    lies in the closed interval
    [[d - (1 + 2^-49) * f * d, d + (1 + 2^-49) * f * d]]: the interval of the
    specification widened, at both ends, by the rounding of the [float64]
    operations.  [Jitter(2s)] with the default factor returns only values in
    the half-open interval [[1.6s, 2.4s)] of the specification: at least
    1600000000ns and less than 2400000000ns. *)
Theorem Jitter_interval (globalRand : Source) (fuel : nat) (duration : Z)
    (maxFactor : list F64.float64) (pos : nat) (v : Z) (pos' : nat) :
  0 < duration <= Int64.max_int ->
  Xrand.Jitter globalRand fuel duration maxFactor pos = Ok v pos' ->
  let f := Xrand.jitterFactor maxFactor in
  let B := ((1 + (1 # 562949953421312)) * float_value f * inject_Z duration)%Q in
  f = match head maxFactor with
      | Some f0 => if F64.ltb F64.zero f0 then f0 else Xrand.defaultJitterFactor
      | None => Xrand.defaultJitterFactor
      end /\
  (inject_Z duration - B <= inject_Z v <= inject_Z duration + B)%Q /\
  (maxFactor = [] -> duration = 2000000000 -> 1600000000 <= v < 2400000000).
Proof.
  intros Hd E f B.
  unfold Xrand.Jitter in E. apply Jitter_loop_positive in E.
  destruct E as [Hv [[Hv' _]|(q & _ & _ & Hkept & Hv')]]; [lia|].
  fold f in Hv'. unfold Jitter_candidate in Hv'.
  destruct (jitterFactor_positive maxFactor) as [HF Hf]. fold f in HF, Hf.
  pose proof (to_int64_range
    (F64.mul (F64.mul (F64.sub (F64.mul F64.two (Float64_at globalRand q)) F64.one) f)
       (F64.of_int duration))) as Hj.
  fold (Xrand.jitterOf duration f (Float64_at globalRand q)) in Hj.
  pose proof (jitterOf_bound duration f _ Hd HF Hf (Float64_at_unit globalRand q)) as Hb.
  fold B in Hb.
  assert (Hup : maxFactor = [] -> duration = 2000000000 ->
                Xrand.jitterOf duration f (Float64_at globalRand q) <= 399999999).
  { intros Em Ed. subst f. rewrite Em, Ed. cbn [Xrand.jitterFactor].
    apply jitterOf_two_seconds, Hkept. }
  set (j := Xrand.jitterOf duration f (Float64_at globalRand q)) in *.
  unfold Int64.in_range, Int64.min_int, Int64.max_int in *.
  assert (Hvj : v = duration + j /\ - duration < j).
  { destruct (Z.le_gt_cases (duration + j) (2 ^ 63 - 1)) as [Hfit|Hover].
    - rewrite wrap_id in Hv'
        by (unfold Int64.in_range, Int64.min_int, Int64.max_int; lia).
      lia.
    - rewrite wrap_above in Hv' by (unfold Int64.max_int; lia). lia. }
  destruct Hvj as [-> Hjd]. destruct Hb as [Hb|Hb]; [lia|].
  assert (Hmain : (inject_Z duration - B <= inject_Z (duration + j)
                   <= inject_Z duration + B)%Q).
  { rewrite inject_Z_plus.
    assert (Habs : (- inject_Z (Z.abs j) <= inject_Z j <= inject_Z (Z.abs j))%Q).
    { rewrite <- inject_Z_opp, <- !Zle_Qle. lia. }
    lra. }
  split; [apply jitterFactor_spec|]. split; [exact Hmain|].
  intros Em Ed. specialize (Hup Em Ed). clear Hb.
  subst B f. rewrite Em, Ed in Hmain. cbn [Xrand.jitterFactor] in Hmain.
  destruct Hmain as [Hlo _].
  assert (Hl : (inject_Z 1599999999 < inject_Z (2000000000 + j))%Q).
  { eapply Qlt_le_trans; [|exact Hlo]. vm_compute. reflexivity. }
  rewrite <- Zlt_Qlt in Hl. lia.
Qed.

Lemma Jitter_interval_witness :
  Xrand.Jitter lcg 3 2000000000 [] 0%nat = Ok 1725133848 1%nat /\
  1600000000 <= 1725133848 < 2400000000.
Proof.
  assert (Hd : 0 < 2000000000 <= Int64.max_int) by (vm_compute; split; congruence).
  assert (E : Xrand.Jitter lcg 3 2000000000 [] 0%nat = Ok 1725133848 1%nat)
    by (vm_compute; reflexivity).
  split; [exact E|].
  destruct (Jitter_interval lcg 3 2000000000 [] 0 _ _ Hd E) as (_ & _ & H).
  apply H; reflexivity.
Defined.

(** The least draw, 0, and the greatest draw that [Float64] keeps,
    [2^63 - 513], which gives [1 - 2^-53], make [Jitter(2s)] return the two
    ends of its range; from a greater draw [Float64] draws again. *)
Example Jitter_two_seconds_extremes :
  Xrand.Jitter zeros 3 2000000000 [] 0%nat = Ok 1600000000 1%nat /\
  Float64_at greatest_kept 0 = S754_finite false 9007199254740991 (-53) /\
  Xrand.Jitter greatest_kept 3 2000000000 [] 0%nat = Ok 2399999999 1%nat /\
  Xrand.Jitter (stream_of [2 ^ 63 - 512; 0]) 3 2000000000 [] 0%nat
    = Ok 1600000000 2%nat.
Proof.
  repeat split; vm_compute; reflexivity.
Qed.

(** * Closed forms and edge behaviour *)

(** ** Intn: the first accepted draw *)

(** A positive [n] with [n & (n-1) = 0] is a power of two. *)
Lemma land_pred_pow2 n :
  0 < n -> Z.land n (n - 1) = 0 -> n = 2 ^ Z.log2 n.
Proof.
  intros Hn E. pose proof (Z.log2_spec n Hn) as [Hlo Hhi].
  pose proof (Z.log2_nonneg n) as Hk.
  destruct (Z.eq_dec n (2 ^ Z.log2 n)) as [|Hne]; [assumption|exfalso].
  assert (Hl : Z.log2 (n - 1) = Z.log2 n).
  { apply Z.log2_unique; [exact Hk|]. unfold Z.succ in *. lia. }
  assert (Hb : Z.testbit (Z.land n (n - 1)) (Z.log2 n) = true).
  { rewrite Z.land_spec, (Z.bit_log2 n Hn).
    rewrite <- Hl. rewrite Z.bit_log2 by lia. reflexivity. }
  rewrite E, Z.bits_0 in Hb. discriminate.
Qed.

Lemma land_pred_mod v n :
  0 < n -> Z.land n (n - 1) = 0 -> Z.land v (n - 1) = v mod n.
Proof.
  intros Hn E. pose proof (land_pred_pow2 n Hn E) as Hp.
  pose proof (Z.log2_nonneg n).
  rewrite Hp at 1 2.
  replace (2 ^ Z.log2 n - 1) with (Z.ones (Z.log2 n))
    by (rewrite Z.ones_equiv; reflexivity).
  apply Z.land_ones. assumption.
Qed.

Lemma pow2_land_pred k : 0 <= k -> Z.land (2 ^ k) (2 ^ k - 1) = 0.
Proof.
  intros Hk.
  replace (2 ^ k - 1) with (Z.ones k) by (rewrite Z.ones_equiv; reflexivity).
  rewrite Z.land_ones by assumption. apply Z.mod_same.
  assert (0 < 2 ^ k) by (apply Z.pow_pos_nonneg; lia). lia.
Qed.

Section IntnFirst.
Variable src : Source.

(** The rejection loops stop at the first draw that is at most [max]. *)
Lemma Int31n_loop_first max : forall d c fuel,
  (d < fuel)%nat ->
  (forall p, (c <= p < c + d)%nat -> max < int31_at src p) ->
  int31_at src (c + d) <= max ->
  MathRand.Int31n_loop src fuel max (int31_at src c) (S c) =
  Ok (int31_at src (c + d)%nat) (S (c + d)).
Proof.
  induction d as [|d IH]; intros c fuel Hf Hrej Hacc;
    (destruct fuel as [|fuel]; [lia|]); cbn [MathRand.Int31n_loop].
  - rewrite Nat.add_0_r in *.
    destruct (Z.gtb_spec (int31_at src c) max); [lia|reflexivity].
  - destruct (Z.gtb_spec (int31_at src c) max) as [_|Hle].
    + unfold MathRand.Int31, MathRand.Int63, bind, ret.
      fold (int31_at src (S c)).
      replace (c + S d)%nat with (S c + d)%nat by lia.
      apply IH; [lia| |].
      * intros p Hp. apply Hrej. lia.
      * replace (S c + d)%nat with (c + S d)%nat by lia. exact Hacc.
    + specialize (Hrej c ltac:(lia)). lia.
Qed.

Lemma Int63n_loop_first max : forall d c fuel,
  (d < fuel)%nat ->
  (forall p, (c <= p < c + d)%nat -> max < MathRand.src_Int63 src p) ->
  MathRand.src_Int63 src (c + d) <= max ->
  MathRand.Int63n_loop src fuel max (MathRand.src_Int63 src c) (S c) =
  Ok (MathRand.src_Int63 src (c + d)%nat) (S (c + d)).
Proof.
  induction d as [|d IH]; intros c fuel Hf Hrej Hacc;
    (destruct fuel as [|fuel]; [lia|]); cbn [MathRand.Int63n_loop].
  - rewrite Nat.add_0_r in *.
    destruct (Z.gtb_spec (MathRand.src_Int63 src c) max); [lia|reflexivity].
  - destruct (Z.gtb_spec (MathRand.src_Int63 src c) max) as [_|Hle].
    + unfold MathRand.Int63, bind, ret.
      replace (c + S d)%nat with (S c + d)%nat by lia.
      apply IH; [lia| |].
      * intros p Hp. apply Hrej. lia.
      * replace (S c + d)%nat with (c + S d)%nat by lia. exact Hacc.
    + specialize (Hrej c ltac:(lia)). lia.
Qed.

Lemma int31_at_range q : 0 <= int31_at src q < 2 ^ 31.
Proof. apply shiftr32_range, src_Int63_range. Qed.

(** [Intn n] returns the first accepted draw, reduced modulo [n], and
    leaves the generator just after that draw. *)
Lemma MathRand_Intn_first n pos q fuel :
  0 < n -> (pos <= q)%nat ->
  (forall p, (pos <= p < q)%nat -> Intn_accepts src n p = false) ->
  Intn_accepts src n q = true -> (q - pos < fuel)%nat ->
  MathRand.Intn src fuel n pos = Ok (Intn_value src n q) (S q).
Proof.
  intros Hn Hq Hrej Hacc Hf. unfold MathRand.Intn, Intn_value.
  destruct (Z.leb_spec n 0); [lia|].
  assert (Hpow : Z.land n (n - 1) = 0 -> q = pos).
  { intros E. destruct (decide (q = pos)) as [|Hne]; [assumption|exfalso].
    specialize (Hrej pos ltac:(lia)). unfold Intn_accepts in Hrej.
    rewrite E in Hrej. discriminate. }
  unfold Intn_accepts in Hacc, Hrej.
  destruct (n <=? 2 ^ 31 - 1).
  - unfold MathRand.Int31n. destruct (Z.leb_spec n 0); [lia|].
    destruct (Z.eqb_spec (Z.land n (n - 1)) 0) as [E|E].
    + rewrite (Hpow E).
      unfold MathRand.Int31, MathRand.Int63, bind, ret.
      fold (int31_at src pos). rewrite land_pred_mod by assumption. reflexivity.
    + cbn [orb] in Hacc, Hrej. apply Z.leb_le in Hacc.
      unfold MathRand.Int31 at 1. unfold MathRand.Int63, bind at 1 2, ret at 1.
      fold (int31_at src pos).
      replace q with (pos + (q - pos))%nat in Hacc |- * by lia.
      unfold bind. rewrite (Int31n_loop_first _ (q - pos)); [| lia | | exact Hacc].
      * unfold ret. rewrite Z.rem_mod_nonneg; [reflexivity| |lia].
        apply int31_at_range.
      * intros p Hp. specialize (Hrej p ltac:(lia)).
        apply Z.leb_gt in Hrej. exact Hrej.
  - unfold MathRand.Int63n. destruct (Z.leb_spec n 0); [lia|].
    destruct (Z.eqb_spec (Z.land n (n - 1)) 0) as [E|E].
    + rewrite (Hpow E).
      unfold MathRand.Int63, bind, ret.
      rewrite land_pred_mod by assumption. reflexivity.
    + cbn [orb] in Hacc, Hrej. apply Z.leb_le in Hacc.
      unfold MathRand.Int63 at 1. unfold bind at 1.
      replace q with (pos + (q - pos))%nat in Hacc |- * by lia.
      unfold bind. rewrite (Int63n_loop_first _ (q - pos)); [| lia | | exact Hacc].
      * unfold ret. rewrite Z.rem_mod_nonneg; [reflexivity| |lia].
        apply src_Int63_range.
      * intros p Hp. specialize (Hrej p ltac:(lia)).
        apply Z.leb_gt in Hrej. exact Hrej.
Qed.

End IntnFirst.

(** X1. For [n > 0], [Intn n] returns the first draw that its rejection
    loop accepts, reduced modulo [n] (the high 31 bits of the draw when [n]
    fits an [int32], the whole 63-bit draw otherwise), and leaves the
    generator just after that draw. *)
Theorem Intn_first_accepted (globalRand : Source) (n : Z) (pos q fuel : nat) :
  0 < n -> (pos <= q)%nat ->
  (forall p, (pos <= p < q)%nat -> Intn_accepts globalRand n p = false) ->
  Intn_accepts globalRand n q = true -> (q - pos < fuel)%nat ->
  Xrand.Intn globalRand fuel n pos = Ok (Intn_value globalRand n q) (S q).
Proof.
  intros. apply MathRand_Intn_first; assumption.
Qed.

Lemma Intn_first_accepted_witness :
  Xrand.Intn (stream_of [2 ^ 63 - 1; 12345 * 2 ^ 32]) 2 10 0%nat = Ok 5 2%nat.
Proof.
  apply (Intn_first_accepted (stream_of [2 ^ 63 - 1; 12345 * 2 ^ 32]) 10 0 1 2).
  - lia.
  - lia.
  - intros p Hp. assert (p = 0%nat) as -> by lia. vm_compute. reflexivity.
  - vm_compute. reflexivity.
  - lia.
Defined.

(** X2. When [n] is a power of two, [Intn n] never rejects a draw: for every
    stream and every iteration budget it returns after exactly one draw, with
    the high 31 bits of the draw modulo [n] when [n <= 2^30] and the draw
    modulo [n] otherwise.  In particular [Intn 1] is always 0. *)
Theorem Intn_power_of_two (globalRand : Source) (k : Z) (fuel pos : nat) :
  0 <= k <= 62 ->
  Xrand.Intn globalRand fuel (2 ^ k) pos =
    Ok ((if k <=? 30 then int31_at globalRand pos
         else MathRand.src_Int63 globalRand pos) mod 2 ^ k) (S pos) /\
  (k = 0 -> Xrand.Intn globalRand fuel 1 pos = Ok 0 (S pos)).
Proof.
  intros Hk.
  assert (Hpos : 0 < 2 ^ k) by (apply Z.pow_pos_nonneg; lia).
  assert (E : Xrand.Intn globalRand fuel (2 ^ k) pos =
    Ok ((if k <=? 30 then int31_at globalRand pos
         else MathRand.src_Int63 globalRand pos) mod 2 ^ k) (S pos)).
  { unfold Xrand.Intn, MathRand.Intn.
    destruct (Z.leb_spec (2 ^ k) 0); [lia|].
    destruct (Z.leb_spec k 30) as [Hs|Hl].
    - assert (2 ^ k <= 2 ^ 30) by (apply Z.pow_le_mono_r; lia).
      destruct (Z.leb_spec (2 ^ k) (2 ^ 31 - 1)); [|lia].
      unfold MathRand.Int31n. destruct (Z.leb_spec (2 ^ k) 0); [lia|].
      rewrite pow2_land_pred by lia. cbn [Z.eqb].
      unfold MathRand.Int31, MathRand.Int63, bind, ret.
      fold (int31_at globalRand pos).
      rewrite land_pred_mod; [reflexivity|lia|apply pow2_land_pred; lia].
    - assert (2 ^ 31 <= 2 ^ k) by (apply Z.pow_le_mono_r; lia).
      destruct (Z.leb_spec (2 ^ k) (2 ^ 31 - 1)); [lia|].
      unfold MathRand.Int63n. destruct (Z.leb_spec (2 ^ k) 0); [lia|].
      rewrite pow2_land_pred by lia. cbn [Z.eqb].
      unfold MathRand.Int63, bind, ret.
      rewrite land_pred_mod; [reflexivity|lia|apply pow2_land_pred; lia]. }
  split; [exact E|].
  intros ->. change (2 ^ 0) with 1 in E. rewrite E. rewrite Z.mod_1_r. reflexivity.
Qed.

Lemma Intn_power_of_two_witness :
  Xrand.Intn lcg 0 (2 ^ 4) 0%nat = Ok (int31_at lcg 0 mod 2 ^ 4) 1%nat.
Proof.
  apply (Intn_power_of_two lcg 4 0 0). lia.
Defined.

(** X3. When [min < max] and [max - min] fits an [int], [IntnBetween min max]
    returns [min] plus the first draw that [Intn (max - min)] accepts, reduced
    modulo [max - min], and leaves the generator just after that draw. *)
Theorem IntnBetween_first_accepted (globalRand : Source) (min max : Z)
    (pos q fuel : nat) :
  Int64.in_range min -> Int64.in_range max ->
  min < max -> max - min <= Int64.max_int ->
  (pos <= q)%nat ->
  (forall p, (pos <= p < q)%nat -> Intn_accepts globalRand (max - min) p = false) ->
  Intn_accepts globalRand (max - min) q = true -> (q - pos < fuel)%nat ->
  Xrand.IntnBetween globalRand fuel min max pos =
  Ok (min + Intn_value globalRand (max - min) q) (S q).
Proof.
  intros Hmin Hmax Hlt Hfit Hq Hrej Hacc Hf.
  unfold Int64.in_range, Int64.min_int, Int64.max_int in *.
  rewrite IntnBetween_unfold.
  rewrite wrap_id by (unfold Int64.in_range, Int64.min_int, Int64.max_int; lia).
  unfold bind, Xrand.Intn.
  rewrite (MathRand_Intn_first globalRand (max - min) pos q fuel)
    by (assumption || lia).
  unfold ret. f_equal.
  assert (0 <= Intn_value globalRand (max - min) q < max - min)
    by (unfold Intn_value; apply Z.mod_pos_bound; lia).
  rewrite wrap_id by (unfold Int64.in_range, Int64.min_int, Int64.max_int; lia).
  lia.
Qed.

Lemma IntnBetween_first_accepted_witness :
  Xrand.IntnBetween (stream_of [2 ^ 63 - 1; 12345 * 2 ^ 32]) 2 (-3) 7 0%nat
  = Ok 2 2%nat.
Proof.
  apply (IntnBetween_first_accepted
           (stream_of [2 ^ 63 - 1; 12345 * 2 ^ 32]) (-3) 7 0 1 2).
  - vm_compute. split; discriminate.
  - vm_compute. split; discriminate.
  - lia.
  - vm_compute. discriminate.
  - lia.
  - intros p Hp. assert (p = 0%nat) as -> by lia. vm_compute. reflexivity.
  - vm_compute. reflexivity.
  - lia.
Defined.

(** ** Float64: the first draw below 2^63 - 512 *)

Lemma Float64_retried src p :
  2 ^ 63 - 512 <= MathRand.src_Int63 src p -> Float64_retries src p = true.
Proof. apply Float64_retries_iff. Qed.

Lemma Float64_kept src q :
  MathRand.src_Int63 src q < 2 ^ 63 - 512 -> Float64_retries src q = false.
Proof.
  intros Hlt. destruct (Float64_retries src q) eqn:R; [|reflexivity].
  apply Float64_retries_iff in R. lia.
Qed.

(** The quotient of a draw that [Float64] keeps is +0 or a positive float
    of at most [1 - 2^-53]. *)
Lemma Float64_at_kept src q :
  Float64_retries src q = false ->
  (Float64_at src q = S754_zero false \/
   exists m e, Float64_at src q = S754_finite false m e) /\
  (0 <= float_value (Float64_at src q) <= 1 - pow2 (-53))%Q.
Proof.
  intros Hr.
  destruct (Float64_at_shape src q) as [[_ ->]|(m & e & _ & -> & Hd & He & _ & Hiff)].
  { split; [left; reflexivity|]. split; vm_compute; discriminate. }
  assert (He10 : e <= 10).
  { destruct (Z.eq_dec e 11) as [E|E]; [|lia]. exfalso.
    apply Hiff in E. apply Float64_retried in E. rewrite E in Hr. discriminate. }
  split; [right; eauto|].
  cbn [float_value]. fold (pow2 (e - 63)). fold (dyadic (Z.pos m) (e - 63)).
  split; [apply dyadic_nonneg|].
  pose proof (digits2_pos_bounds m) as [_ Hhi]. rewrite Hd in Hhi.
  unfold dyadic.
  assert (Hp : (pow2 (e - 63) <= pow2 (-53))%Q) by (apply pow2_le; lia).
  assert (Hm : (inject_Z (Z.pos m) <= inject_Z (2 ^ 53 - 1))%Q)
    by (rewrite <- Zle_Qle; lia).
  assert (E1 : (inject_Z (2 ^ 53 - 1) * pow2 (-53) == 1 - pow2 (-53))%Q)
    by (vm_compute; reflexivity).
  pose proof (pow2_pos (e - 63)). pose proof (pow2_pos (-53)).
  assert (0 <= inject_Z (Z.pos m))%Q by (apply inject_Z_nonneg; lia).
  set (a := inject_Z (Z.pos m)) in *. set (b := inject_Z (2 ^ 53 - 1)) in *.
  set (p := pow2 (e - 63)) in *. set (q0 := pow2 (-53)) in *.
  assert (a * p <= a * q0)%Q by nra.
  assert (a * q0 <= b * q0)%Q by nra.
  lra.
Qed.

(** X4. [Float64] goes through the draws up to the first one below
    [2^63 - 512] and returns the quotient [float64(draw) / 2^63] of that
    draw, leaving the generator just after it; the draws before it, all of
    at least [2^63 - 512], are exactly those that the conversion to
    [float64] rounds up to 2^63, which makes the quotient 1 and the loop
    [goto again].  The result is +0 or a positive float, at most
    [1 - 2^-53]. *)
Theorem Float64_first_kept (globalRand : Source) (pos m fuel : nat) :
  (forall p, (pos <= p < pos + m)%nat ->
             2 ^ 63 - 512 <= MathRand.src_Int63 globalRand p) ->
  MathRand.src_Int63 globalRand (pos + m) < 2 ^ 63 - 512 ->
  (m < fuel)%nat ->
  let f := Float64_at globalRand (pos + m) in
  Xrand.Float64 globalRand fuel pos = Ok f (S (pos + m)) /\
  (forall p, Float64_retries globalRand p = true <->
             2 ^ 63 - 512 <= MathRand.src_Int63 globalRand p) /\
  (f = S754_zero false \/ exists mf e, f = S754_finite false mf e) /\
  (0 <= float_value f <= 1 - pow2 (-53))%Q.
Proof.
  intros Hrej Hacc Hf f.
  pose proof (Float64_kept _ _ Hacc) as Hk.
  split; [|split; [intros p; apply Float64_retries_iff|apply Float64_at_kept, Hk]].
  unfold Xrand.Float64. apply Float64_first; [|exact Hk|exact Hf].
  intros p Hp. apply Float64_retried, Hrej, Hp.
Qed.

Lemma Float64_first_kept_witness :
  Xrand.Float64 (stream_of [2 ^ 63 - 1; 5]) 3 0%nat
    = Ok (Float64_at (stream_of [2 ^ 63 - 1; 5]) 1) 2%nat /\
  Float64_at (stream_of [2 ^ 63 - 1; 5]) 1 = S754_finite false 5629499534213120 (-113).
Proof.
  split; [|vm_compute; reflexivity].
  apply (Float64_first_kept (stream_of [2 ^ 63 - 1; 5]) 0 1 3).
  - intros p Hp. assert (p = 0%nat) as -> by lia. vm_compute. discriminate.
  - vm_compute. reflexivity.
  - lia.
Defined.

(** ** countBits on every int *)

(** X5. For [1 <= x <= MaxInt], [countBits x] is the least [k >= 0] with
    [x <= 2^k], and it is at most 63. *)
Theorem countBits_least (x : Z) :
  1 <= x <= Int64.max_int ->
  let k := Xrand.countBits x in
  0 <= k <= 63 /\ x <= 2 ^ k /\ forall j, 0 <= j -> x <= 2 ^ j -> k <= j.
Proof.
  intros Hx k. subst k. rewrite countBits_log2_up by assumption.
  pose proof (Z.log2_up_nonneg x) as H0.
  assert (Hle : x <= 2 ^ Z.log2_up x).
  { destruct (Z.eq_dec x 1) as [->|Hne]; [vm_compute; discriminate|].
    apply (Z.log2_up_spec x). lia. }
  split; [split; [exact H0|]|split; [exact Hle|]].
  - apply Z.log2_up_le_pow2; [lia|]. unfold Int64.max_int in Hx. lia.
  - intros j Hj Hxj. apply Z.log2_up_le_pow2; lia.
Qed.

Lemma countBits_least_witness :
  0 <= Xrand.countBits 36 <= 63 /\ 36 <= 2 ^ Xrand.countBits 36 /\
  forall j, 0 <= j -> 36 <= 2 ^ j -> Xrand.countBits 36 <= j.
Proof.
  apply (countBits_least 36). vm_compute. split; discriminate.
Defined.

(** X6. For every [x <= 1] other than [MinInt], [countBits x] is 0: the
    loop body never runs.  For [MinInt] the decrement [x--] wraps around to
    [MaxInt] and the result is 63. *)
Theorem countBits_below_two (x : Z) :
  Int64.in_range x -> x <= 1 ->
  Xrand.countBits x = if x =? Int64.min_int then 63 else 0.
Proof.
  intros Hx Hle. destruct (Z.eqb_spec x Int64.min_int) as [->|Hne].
  - vm_compute. reflexivity.
  - unfold Int64.in_range, Int64.min_int, Int64.max_int in *.
    unfold Xrand.countBits.
    rewrite wrap_id by (unfold Int64.in_range, Int64.min_int, Int64.max_int; lia).
    cbn [Xrand.countBits_loop].
    destruct (Z.ltb_spec 0 (x - 1)); [lia|reflexivity].
Qed.

Lemma countBits_below_two_witness :
  Xrand.countBits (-5) = 0 /\ Xrand.countBits Int64.min_int = 63.
Proof.
  split.
  - apply (countBits_below_two (-5)); [vm_compute; split; discriminate | lia].
  - apply (countBits_below_two Int64.min_int);
      [vm_compute; split; discriminate | vm_compute; discriminate].
Defined.

(** ** String: a negative length *)

(** X7. With a negative length [String] always panics, before any draw:
    with the division by zero when the alphabet has a single symbol, since
    [63 / alphabetIdxBits] is evaluated before [make([]byte, n)], and with
    the length error of [make] otherwise. *)
Theorem String_negative_length (globalRand : Source) (n : Z)
    (alphabet : list Xrand.gostring) (fuel pos : nat) :
  let a := Xrand.alphabetOf alphabet in
  n < 0 -> Xrand.len a <= Int64.max_int ->
  Xrand.String globalRand fuel n alphabet pos =
  Panic (if Xrand.len a =? 1 then DivideByZero else MakesliceLen).
Proof.
  intros a Hn Ha. pose proof (alphabetOf_nonempty alphabet) as H1. fold a in H1.
  destruct (Z.eqb_spec (Xrand.len a) 1) as [E|E].
  - apply String_singleton, E.
  - unfold Xrand.String. fold a.
    destruct (countBits_bounds (Xrand.len a) ltac:(lia)) as [Hk _].
    destruct (Z.eqb_spec (Xrand.countBits (Xrand.len a)) 0); [lia|].
    destruct (Z.ltb_spec n 0); [reflexivity|lia].
Qed.

Lemma String_negative_length_witness :
  Xrand.String lcg 5 (-1) [] 0%nat = Panic MakesliceLen /\
  Xrand.String lcg 5 (-1) [list_byte_of_string "a"] 0%nat = Panic DivideByZero.
Proof.
  split.
  - apply (String_negative_length lcg (-1) [] 5 0); [lia|vm_compute; discriminate].
  - apply (String_negative_length lcg (-1) [list_byte_of_string "a"] 5 0);
      [lia|vm_compute; discriminate].
Defined.

(** ** String: the indexes read from the draws *)

Section StringSlots.
Variable src : Source.
Variables (n : Z) (a : Xrand.gostring) (k : Z).
Hypothesis Hn : 0 <= n <= Int64.max_int.
Hypothesis Hk : 1 <= k <= 63.
Variable pos0 : nat.

Local Abbreviation slots := (Z.to_nat (Z.quot 63 k)).
Local Abbreviation sel := (selected src a k pos0).

Lemma slots_pos : (1 <= slots)%nat /\ Z.of_nat slots = Z.quot 63 k.
Proof.
  pose proof (slots_bounds k Hk). split; [lia|]. apply Z2Nat.id. lia.
Qed.

Lemma selected_S j :
  sel (S j) = sel j ++ option_list (a !! Z.to_nat (slot src k pos0 j)).
Proof.
  unfold selected. rewrite seq_S, omap_app. cbn [omap list_omap Nat.add].
  destruct (a !! _); reflexivity.
Qed.

Lemma selected_len_S j :
  Xrand.len (sel j) <= Xrand.len (sel (S j)) <= Xrand.len (sel j) + 1.
Proof. rewrite selected_S. apply len_snoc_option. Qed.

Lemma shiftr_range_any r x :
  0 <= x -> 0 <= r < 2 ^ 63 -> 0 <= Z.shiftr r x < 2 ^ 63.
Proof.
  intros Hx Hr. rewrite Z.shiftr_div_pow2 by lia.
  assert (0 < 2 ^ x) by (apply Z.pow_pos_nonneg; lia).
  split; [apply Z.div_pos; lia|].
  apply Z.div_lt_upper_bound; [lia|]. nia.
Qed.

(** One iteration, with the state of the loop written from the number [j]
    of indexes read so far: [j = d * slots + c], where [d] draws are used up
    and [c] fields of the current one are read. *)
Lemma String_loop_slot fuel j d c :
  (j = d * slots + c)%nat -> (c <= slots)%nat -> (0 < j -> 1 <= c)%nat ->
  Xrand.len (sel j) < n ->
  exists d' c',
    (S j = d' * slots + c')%nat /\ (1 <= c' <= slots)%nat /\
    Xrand.String_loop src (S fuel) n a k (Z.ones k) (Z.quot 63 k)
      (Xrand.len (sel j))
      (Z.shiftr (MathRand.src_Int63 src (pos0 + d)) (k * Z.of_nat c))
      (Z.of_nat (slots - c)) (buffer n (sel j)) (S (pos0 + d)) =
    Xrand.String_loop src fuel n a k (Z.ones k) (Z.quot 63 k)
      (Xrand.len (sel (S j)))
      (Z.shiftr (MathRand.src_Int63 src (pos0 + d')) (k * Z.of_nat c'))
      (Z.of_nat (slots - c')) (buffer n (sel (S j))) (S (pos0 + d')).
Proof.
  intros Hj Hc Hc1 Hlt. destruct slots_pos as [Hs1 Hs].
  rewrite (String_loop_round src n a k Hn Hk); [|exact Hlt| |lia].
  2: { apply shiftr_range_any; [lia|apply src_Int63_range]. }
  cbv zeta. rewrite selected_S.
  destruct (Z.eqb_spec (Z.of_nat (slots - c)) 0) as [E|E].
  - assert (c = slots) by lia. subst c.
    exists (S d), 1%nat. split; [lia|]. split; [lia|].
    assert (Ediv : (j / slots = S d)%nat).
    { symmetry. apply (Nat.div_unique j slots (S d) 0); lia. }
    assert (Emod : (j mod slots = 0)%nat).
    { symmetry. apply (Nat.mod_unique j slots (S d) 0); lia. }
    unfold slot. rewrite Ediv, Emod.
    change (Z.of_nat 0) with 0. rewrite Z.mul_0_r, Z.shiftr_0_r.
    rewrite Z.land_ones by lia.
    replace (pos0 + S d)%nat with (S (pos0 + d)) by lia.
    replace (Z.quot 63 k - 1) with (Z.of_nat (slots - 1)) by lia.
    replace (k * Z.of_nat 1) with k by lia.
    reflexivity.
  - assert (c < slots)%nat by lia.
    exists d, (S c). split; [lia|]. split; [lia|].
    assert (Ediv : (j / slots = d)%nat).
    { symmetry. apply (Nat.div_unique j slots d c); lia. }
    assert (Emod : (j mod slots = c)%nat).
    { symmetry. apply (Nat.mod_unique j slots d c); lia. }
    unfold slot. rewrite Ediv, Emod.
    rewrite Z.land_ones by lia.
    rewrite Z.shiftr_shiftr by lia.
    replace (k * Z.of_nat c + k) with (k * Z.of_nat (S c)) by lia.
    replace (Z.of_nat (slots - c) - 1) with (Z.of_nat (slots - S c)) by lia.
    reflexivity.
Qed.

(** The loop stops after the least number [t] of indexes that select [n]
    symbols, and returns these symbols. *)
Lemma String_loop_slots t :
  Xrand.len (sel t) = n ->
  (forall j, (j < t)%nat -> Xrand.len (sel j) < n) ->
  forall m j d c fuel,
  (j + m = t)%nat ->
  (j = d * slots + c)%nat -> (c <= slots)%nat -> (0 < j -> 1 <= c)%nat ->
  (m < fuel)%nat ->
  Xrand.String_loop src fuel n a k (Z.ones k) (Z.quot 63 k)
    (Xrand.len (sel j))
    (Z.shiftr (MathRand.src_Int63 src (pos0 + d)) (k * Z.of_nat c))
    (Z.of_nat (slots - c)) (buffer n (sel j)) (S (pos0 + d)) =
  Ok (sel t) (S (pos0 + (t - 1) / slots)).
Proof.
  intros Hlen Hmin. destruct slots_pos as [Hs1 Hs].
  induction m as [|m IH]; intros j d c fuel Hjm Hj Hc Hc1 Hf;
    (destruct fuel as [|fuel]; [lia|]).
  - assert (Ejt : j = t) by lia. rewrite Ejt in *. clear Ejt.
    rewrite (String_loop_exit src n a k) by exact Hlen.
    f_equal. f_equal. f_equal.
    destruct (decide (t = 0%nat)) as [E0|E0].
    + assert (d = 0%nat) by nia. subst d. rewrite E0. simpl.
      symmetry. apply Nat.Div0.div_0_l.
    + apply (Nat.div_unique (t - 1) slots d (c - 1)); lia.
  - destruct (String_loop_slot fuel j d c Hj Hc Hc1 (Hmin j ltac:(lia)))
      as (d' & c' & Hj' & Hc' & ->).
    apply IH; lia.
Qed.

(** Conversely, whatever the loop returns is of that form. *)
Lemma String_loop_slots_inv : forall fuel j d c s p,
  (j = d * slots + c)%nat -> (c <= slots)%nat -> (0 < j -> 1 <= c)%nat ->
  Xrand.len (sel j) <= n ->
  (forall j', (j' < j)%nat -> Xrand.len (sel j') < n) ->
  Xrand.String_loop src fuel n a k (Z.ones k) (Z.quot 63 k)
    (Xrand.len (sel j))
    (Z.shiftr (MathRand.src_Int63 src (pos0 + d)) (k * Z.of_nat c))
    (Z.of_nat (slots - c)) (buffer n (sel j)) (S (pos0 + d)) = Ok s p ->
  exists t,
    (j <= t < j + fuel)%nat /\ Xrand.len (sel t) = n /\
    (forall j', (j' < t)%nat -> Xrand.len (sel j') < n) /\
    s = sel t /\ p = S (pos0 + (t - 1) / slots).
Proof.
  destruct slots_pos as [Hs1 Hs].
  induction fuel as [|fuel IH]; intros j d c s p Hj Hc Hc1 Hle Hmin E;
    [discriminate|].
  destruct (Z.eq_dec (Xrand.len (sel j)) n) as [Heq|Hne].
  - rewrite (String_loop_exit src n a k) in E by exact Heq.
    injection E as <- <-. exists j.
    split; [lia|]. split; [exact Heq|]. split; [exact Hmin|].
    split; [reflexivity|]. f_equal. f_equal.
    destruct (decide (j = 0%nat)) as [E0|E0].
    + assert (d = 0%nat) by nia. subst d. rewrite E0. simpl.
      symmetry. apply Nat.Div0.div_0_l.
    + apply (Nat.div_unique (j - 1) slots d (c - 1)); lia.
  - destruct (String_loop_slot fuel j d c Hj Hc Hc1 ltac:(lia))
      as (d' & c' & Hj' & Hc' & Hstep).
    rewrite Hstep in E.
    pose proof (selected_len_S j) as Hl.
    apply IH in E; try lia.
    + destruct E as (t & Ht & H1 & H2 & H3 & H4). exists t.
      split; [lia|]. auto.
    + intros j' Hj'0. destruct (decide (j' = j)) as [->|]; [lia|].
      apply Hmin. lia.
Qed.

(** The number of symbols selected never decreases. *)
Lemma selected_len_mono j t :
  (j <= t)%nat -> Xrand.len (sel j) <= Xrand.len (sel t).
Proof.
  induction 1 as [|t _ IH]; [lia|]. pose proof (selected_len_S t). lia.
Qed.

Lemma selected_prefix j t : (j <= t)%nat -> sel j `prefix_of` sel t.
Proof.
  induction 1 as [|t _ IH]; [reflexivity|].
  rewrite selected_S. etransitivity; [exact IH|]. apply prefix_app_r. reflexivity.
Qed.

End StringSlots.

Lemma String_slots_run src n alphabet pos t fuel :
  let a := Xrand.alphabetOf alphabet in
  let k := Xrand.countBits (Xrand.len a) in
  2 <= Xrand.len a <= Int64.max_int -> 0 <= n <= Int64.max_int ->
  Xrand.len (selected src a k pos t) = n ->
  (forall j, (j < t)%nat -> Xrand.len (selected src a k pos j) < n) ->
  (t < fuel)%nat ->
  Xrand.String src fuel n alphabet pos =
  Ok (selected src a k pos t) (S (pos + (t - 1) / Z.to_nat (Z.quot 63 k))).
Proof.
  intros a k Ha Hn Hlen Hmin Hf.
  destruct (countBits_bounds (Xrand.len a) Ha) as [Hk _]. fold k in Hk.
  rewrite String_run by (fold a; lia). fold a k.
  destruct (slots_pos k Hk) as [_ Hs].
  pose proof (String_loop_slots src n a k Hn Hk pos t Hlen Hmin
                t 0%nat 0%nat 0%nat fuel) as H.
  rewrite !(Nat.add_0_r pos), Nat.sub_0_r, Hs in H.
  change (Z.of_nat 0) with 0 in H. rewrite Z.mul_0_r, Z.shiftr_0_r in H.
  apply H; lia.
Qed.

Lemma String_slots_inv src n alphabet pos fuel s p :
  let a := Xrand.alphabetOf alphabet in
  let k := Xrand.countBits (Xrand.len a) in
  2 <= Xrand.len a <= Int64.max_int -> 0 <= n <= Int64.max_int ->
  Xrand.String src fuel n alphabet pos = Ok s p ->
  exists t,
    (t < fuel)%nat /\ Xrand.len (selected src a k pos t) = n /\
    (forall j, (j < t)%nat -> Xrand.len (selected src a k pos j) < n) /\
    s = selected src a k pos t /\
    p = S (pos + (t - 1) / Z.to_nat (Z.quot 63 k)).
Proof.
  intros a k Ha Hn E.
  destruct (countBits_bounds (Xrand.len a) Ha) as [Hk _]. fold k in Hk.
  rewrite String_run in E by (fold a; lia). fold a k in E.
  destruct (slots_pos k Hk) as [_ Hs].
  pose proof (String_loop_slots_inv src n a k Hn Hk pos fuel
                0%nat 0%nat 0%nat s p) as H.
  rewrite !(Nat.add_0_r pos), Nat.sub_0_r, Hs in H.
  change (Z.of_nat 0) with 0 in H. rewrite Z.mul_0_r, Z.shiftr_0_r in H.
  destruct H as (t & Ht & H1 & H2 & H3 & H4); try lia.
  - change (Xrand.len (selected src a k pos 0)) with 0. lia.
  - exact E.
  - exists t. split; [lia|]. auto.
Qed.

(** X8. For an alphabet of at least two symbols, [String n] cuts every draw
    into [63 / k] fields of [k] bits, lowest first, and keeps the symbols
    that the fields index, skipping the fields that are not below the size
    of the alphabet: it returns [s] and leaves the generator at [p] exactly
    when [s] is what the first [t] fields select, for the least [t] that
    selects [n] symbols, after one draw plus one more for every [63 / k]
    fields read. *)
Theorem String_selected (globalRand : Source) (n : Z)
    (alphabet : list Xrand.gostring) (fuel pos : nat)
    (s : Xrand.gostring) (p : nat) :
  let a := Xrand.alphabetOf alphabet in
  let k := Xrand.countBits (Xrand.len a) in
  2 <= Xrand.len a <= Int64.max_int -> 0 <= n <= Int64.max_int ->
  (Xrand.String globalRand fuel n alphabet pos = Ok s p <->
   exists t,
     (t < fuel)%nat /\ Xrand.len (selected globalRand a k pos t) = n /\
     (forall j, (j < t)%nat -> Xrand.len (selected globalRand a k pos j) < n) /\
     s = selected globalRand a k pos t /\
     p = S (pos + (t - 1) / Z.to_nat (Z.quot 63 k))).
Proof.
  intros a k Ha Hn. split.
  - intros E. apply String_slots_inv; assumption.
  - intros (t & Ht & Hlen & Hmin & -> & ->).
    apply String_slots_run; assumption.
Qed.

Lemma String_selected_witness :
  Xrand.String lcg 5 3 [] 0%nat = Ok (selected lcg Xrand.AlphanumAlphabet 6 0 4) 1%nat.
Proof.
  apply (String_selected lcg 3 [] 5 0).
  - vm_compute. split; discriminate.
  - vm_compute. split; discriminate.
  - exists 4%nat. split; [lia|]. split; [vm_compute; reflexivity|].
    split; [|split; reflexivity].
    intros j Hj.
    destruct j as [|[|[|[|j]]]]; [vm_compute; reflexivity ..|lia].
Defined.

Lemma slot_range src k pos j : 0 <= k -> 0 <= slot src k pos j < 2 ^ k.
Proof.
  intros Hk. unfold slot. rewrite Z.land_ones by assumption.
  apply Z.mod_pos_bound. apply Z.pow_pos_nonneg; lia.
Qed.

(** When every index selects a symbol, the first [t] indexes select [t]
    symbols, the [i]-th by the [i]-th index. *)
Lemma selected_full src a k pos :
  (forall j, is_Some (a !! Z.to_nat (slot src k pos j))) ->
  forall t,
    length (selected src a k pos t) = t /\
    forall i, (i < t)%nat ->
      selected src a k pos t !! i = a !! Z.to_nat (slot src k pos i).
Proof.
  intros Hall. induction t as [|t [IHl IHi]].
  - split; [reflexivity|]. intros i Hi. lia.
  - rewrite selected_S. destruct (Hall t) as [c Hc]. rewrite Hc.
    cbn [option_list]. split.
    + rewrite length_app, IHl. simpl. lia.
    + intros i Hi. destruct (decide (i = t)) as [->|Hne].
      * rewrite lookup_app_r by lia. rewrite IHl, Nat.sub_diag, Hc. reflexivity.
      * rewrite lookup_app_l by lia. apply IHi. lia.
Qed.

(** X9. When the size of the alphabet is a power of two, [2^e], no index is
    ever skipped: for every stream, [String n] returns once its loop has run
    [n] times, its [i]-th symbol is the one that the [i]-th field of [e]
    bits indexes, and it consumes one draw plus one more for every [63 / e]
    symbols. *)
Theorem String_power_of_two_alphabet (globalRand : Source) (n e : Z)
    (alphabet : list Xrand.gostring) (fuel pos : nat) :
  let a := Xrand.alphabetOf alphabet in
  0 <= n <= Int64.max_int -> 1 <= e <= 62 -> Xrand.len a = 2 ^ e ->
  (Z.to_nat n < fuel)%nat ->
  Xrand.countBits (Xrand.len a) = e /\
  exists s,
    Xrand.String globalRand fuel n alphabet pos =
      Ok s (S (pos + (Z.to_nat n - 1) / Z.to_nat (Z.quot 63 e))) /\
    Xrand.len s = n /\
    forall i, (i < Z.to_nat n)%nat ->
      s !! i = a !! Z.to_nat (slot globalRand e pos i).
Proof.
  intros a Hn He Ha Hf.
  assert (H2e : 2 <= 2 ^ e <= 2 ^ 62).
  { split; [change 2 with (2 ^ 1) at 1|]; apply Z.pow_le_mono_r; lia. }
  assert (Ha2 : 2 <= Xrand.len a <= Int64.max_int)
    by (rewrite Ha; unfold Int64.max_int; lia).
  assert (Ek : Xrand.countBits (Xrand.len a) = e).
  { rewrite countBits_log2_up by lia. rewrite Ha. apply Z.log2_up_pow2. lia. }
  split; [exact Ek|].
  assert (Hall : forall j, is_Some (a !! Z.to_nat (slot globalRand e pos j))).
  { intros j. apply lookup_lt_is_Some.
    pose proof (slot_range globalRand e pos j ltac:(lia)).
    unfold Xrand.len in Ha. lia. }
  pose proof (selected_full globalRand a e pos Hall) as Hfull.
  exists (selected globalRand a e pos (Z.to_nat n)).
  destruct (Hfull (Z.to_nat n)) as [Hl Hi].
  split; [|split; [unfold Xrand.len; lia|exact Hi]].
  pose proof (String_slots_run globalRand n alphabet pos (Z.to_nat n) fuel) as H.
  cbv zeta in H. fold a in H. rewrite Ek in H. apply H; try assumption.
  - unfold Xrand.len. lia.
  - intros j Hj. unfold Xrand.len. destruct (Hfull j) as [-> _]. lia.
Qed.

Lemma String_power_of_two_alphabet_witness :
  exists s,
    Xrand.String lcg 4 3 [list_byte_of_string "abcd"] 0%nat = Ok s 1%nat /\
    Xrand.len s = 3 /\
    forall i, (i < 3)%nat ->
      s !! i = list_byte_of_string "abcd" !! Z.to_nat (slot lcg 2 0 i).
Proof.
  apply (String_power_of_two_alphabet lcg 3 2 [list_byte_of_string "abcd"] 4 0).
  - vm_compute. split; discriminate.
  - lia.
  - reflexivity.
  - vm_compute. lia.
Defined.

(** X10. Strings drawn from the same position of the same stream with the
    same alphabet extend each other: when [m <= n] and both [String m] and
    [String n] return, the first result is a prefix of the second, and the
    second call has consumed at least as many draws. *)
Theorem String_prefix (globalRand : Source) (m n : Z)
    (alphabet : list Xrand.gostring) (pos fuel1 fuel2 : nat)
    (s1 s2 : Xrand.gostring) (p1 p2 : nat) :
  0 <= m <= n -> n <= Int64.max_int ->
  Xrand.len (Xrand.alphabetOf alphabet) <= Int64.max_int ->
  Xrand.String globalRand fuel1 m alphabet pos = Ok s1 p1 ->
  Xrand.String globalRand fuel2 n alphabet pos = Ok s2 p2 ->
  (exists rest, s2 = s1 ++ rest) /\ (p1 <= p2)%nat.
Proof.
  intros Hm Hn Ha E1 E2.
  pose proof (alphabetOf_nonempty alphabet) as H1.
  destruct (Z.eq_dec (Xrand.len (Xrand.alphabetOf alphabet)) 1) as [E|E].
  { rewrite String_singleton in E1 by exact E. discriminate. }
  apply String_slots_inv in E1; [|lia|lia].
  apply String_slots_inv in E2; [|lia|lia].
  destruct E1 as (t1 & _ & Hl1 & Hmin1 & -> & ->).
  destruct E2 as (t2 & _ & Hl2 & Hmin2 & -> & ->).
  assert (Ht : (t1 <= t2)%nat).
  { destruct (le_lt_dec t1 t2) as [|Hgt]; [assumption|].
    specialize (Hmin1 t2 Hgt). lia. }
  split.
  - apply selected_prefix, Ht.
  - apply le_n_S, Nat.add_le_mono_l, Nat.Div0.div_le_mono. lia.
Qed.

Lemma String_prefix_witness :
  (exists rest,
     selected lcg Xrand.AlphanumAlphabet 6 0 13 =
     selected lcg Xrand.AlphanumAlphabet 6 0 4 ++ rest) /\ (1 <= 2)%nat.
Proof.
  apply (String_prefix lcg 3 8 [] 0 20 20).
  - lia.
  - vm_compute. discriminate.
  - vm_compute. discriminate.
  - vm_compute. reflexivity.
  - vm_compute. reflexivity.
Defined.

(** ** Jitter: the first positive candidate *)

Section JitterFirst.
Variable src : Source.
Variables (duration : Z) (factor : F64.float64).

(** Before a draw that [Float64] keeps there is a first one that it
    keeps. *)
Lemma first_kept : forall n c,
  Float64_retries src (c + n) = false ->
  exists k, (c <= k <= c + n)%nat /\ Float64_retries src k = false /\
            forall p, (c <= p < k)%nat -> Float64_retries src p = true.
Proof.
  induction n as [|n IH]; intros c Hq.
  - rewrite Nat.add_0_r in Hq. exists c. split; [lia|]. split; [exact Hq|].
    intros p Hp. lia.
  - destruct (Float64_retries src c) eqn:R.
    + replace (c + S n)%nat with (S c + n)%nat in Hq by lia.
      destruct (IH (S c) Hq) as (k & Hk & Hr & Hall).
      exists k. split; [lia|]. split; [exact Hr|]. intros p Hp.
      destruct (decide (p = c)) as [->|Hne]; [exact R|apply Hall; lia].
    + exists c. split; [lia|]. split; [exact R|]. intros p Hp. lia.
Qed.

(** One round of the loop of [Jitter]: [Float64] goes to the first draw
    that it keeps, and the candidate of that draw is the new duration. *)
Lemma Jitter_loop_step fuel newDuration c k :
  newDuration <= 0 -> (c <= k)%nat ->
  (forall p, (c <= p < k)%nat -> Float64_retries src p = true) ->
  Float64_retries src k = false -> (k - c < fuel)%nat ->
  Xrand.Jitter_loop src (S fuel) duration factor newDuration c =
  Xrand.Jitter_loop src fuel duration factor
    (Jitter_candidate src duration factor k) (S k).
Proof.
  intros Hle Hck Hrej Hacc Hf. cbn [Xrand.Jitter_loop].
  destruct (Z.leb_spec newDuration 0); [|lia].
  unfold bind, Xrand.Float64.
  replace k with (c + (k - c))%nat in Hacc |- * by lia.
  rewrite (Float64_first src (k - c) c fuel); [reflexivity| |exact Hacc|exact Hf].
  intros p Hp. apply Hrej. lia.
Qed.

(** The loop returns the candidate of the first draw that [Float64] keeps
    and whose candidate is positive. *)
Lemma Jitter_loop_first : forall fuel c q newDuration,
  newDuration <= 0 -> (c <= q)%nat ->
  (forall p, (c <= p < q)%nat ->
     Float64_retries src p = true \/ Jitter_candidate src duration factor p <= 0) ->
  Float64_retries src q = false -> 0 < Jitter_candidate src duration factor q ->
  (q - c + 2 <= fuel)%nat ->
  Xrand.Jitter_loop src fuel duration factor newDuration c =
  Ok (Jitter_candidate src duration factor q) (S q).
Proof.
  induction fuel as [|fuel IH]; intros c q newDuration Hle Hcq Hrej Hk Hpos Hf; [lia|].
  assert (Hq : Float64_retries src (c + (q - c)) = false)
    by (replace (c + (q - c))%nat with q by lia; exact Hk).
  destruct (first_kept (q - c) c Hq) as (k & Hck & Hkk & Hall).
  rewrite (Jitter_loop_step fuel newDuration c k Hle ltac:(lia) Hall Hkk ltac:(lia)).
  destruct (decide (k = q)) as [->|Hne].
  - destruct fuel as [|fuel]; [lia|]. cbn [Xrand.Jitter_loop].
    destruct (Z.leb_spec (Jitter_candidate src duration factor q) 0); [lia|reflexivity].
  - apply IH; [|lia| |exact Hk|exact Hpos|lia].
    + destruct (Hrej k ltac:(lia)) as [R|Hc]; [|exact Hc].
      rewrite R in Hkk. discriminate.
    + intros p Hp. apply Hrej. lia.
Qed.

(** While no draw is both kept by [Float64] and of a positive candidate,
    the loop keeps running. *)
Lemma Jitter_loop_never : forall fuel c newDuration,
  newDuration <= 0 ->
  (forall p, (c <= p)%nat ->
     Float64_retries src p = true \/ Jitter_candidate src duration factor p <= 0) ->
  Xrand.Jitter_loop src fuel duration factor newDuration c = Diverge.
Proof.
  induction fuel as [|fuel IH]; intros c newDuration Hle Hrej; [reflexivity|].
  cbn [Xrand.Jitter_loop]. destruct (Z.leb_spec newDuration 0); [|lia].
  unfold bind, Xrand.Float64.
  destruct (MathRand.Float64 src fuel c) as [u pos1|p|] eqn:Eu; [| |reflexivity].
  - destruct (Float64_returns src fuel c u pos1 Eu) as (q & Hq & -> & -> & Hk & _).
    fold (Jitter_candidate src duration factor q).
    apply IH.
    + destruct (Hrej q Hq) as [R|Hc]; [|exact Hc]. rewrite R in Hk. discriminate.
    + intros p Hp. apply Hrej. lia.
  - exfalso. apply (Float64_no_panic src fuel c). exists p. exact Eu.
Qed.

End JitterFirst.

(** X11. [Jitter] computes one candidate [duration + jitter] from every
    draw that [Float64] keeps, and returns the candidate of the first draw
    that [Float64] keeps and whose candidate is positive, leaving the
    generator just after that draw; as long as every draw is discarded by
    [Float64] or has a non-positive candidate, it keeps drawing and never
    returns. *)
Theorem Jitter_first_positive (globalRand : Source) (duration : Z)
    (maxFactor : list F64.float64) (pos : nat) :
  let cand := Jitter_candidate globalRand duration (Xrand.jitterFactor maxFactor) in
  (forall q fuel,
     (pos <= q)%nat ->
     (forall p, (pos <= p < q)%nat ->
        Float64_retries globalRand p = true \/ cand p <= 0) ->
     Float64_retries globalRand q = false -> 0 < cand q ->
     (q - pos + 2 <= fuel)%nat ->
     Xrand.Jitter globalRand fuel duration maxFactor pos = Ok (cand q) (S q)) /\
  ((forall p, (pos <= p)%nat ->
      Float64_retries globalRand p = true \/ cand p <= 0) ->
   forall fuel, Xrand.Jitter globalRand fuel duration maxFactor pos = Diverge).
Proof.
  intros cand. split.
  - intros q fuel Hq Hrej Hk Hacc Hf. unfold Xrand.Jitter.
    apply Jitter_loop_first; [lia|exact Hq|exact Hrej|exact Hk|exact Hacc|lia].
  - intros Hrej fuel. unfold Xrand.Jitter. apply Jitter_loop_never; [lia|exact Hrej].
Qed.

(** The candidate of the first draw is -99; [Float64] discards the second
    draw; the candidate of the third is 100. *)
Lemma Jitter_first_positive_witness :
  Xrand.Jitter (stream_of [0; 2 ^ 63 - 1; 2 ^ 63 - 1024]) 5 1 [F64.of_int 100] 0%nat
    = Ok 100 3%nat.
Proof.
  apply (proj1 (Jitter_first_positive (stream_of [0; 2 ^ 63 - 1; 2 ^ 63 - 1024]) 1
                  [F64.of_int 100] 0) 2%nat 5%nat).
  - lia.
  - intros p Hp. destruct p as [|[|p]]; [right|left|lia].
    + vm_compute. discriminate.
    + vm_compute. reflexivity.
  - vm_compute. reflexivity.
  - vm_compute. reflexivity.
  - lia.
Defined.

(** ** Rounding without overflow

    An operation whose exact result is far below 2^1024 returns a zero or a
    finite number. *)

Lemma binary_round_aux_finite s m e :
  (dyadic (Z.pos m) e * (1 + eps) + eta < pow2 972)%Q ->
  finite (binary_round_aux 53 1024 s (Z.pos m) e loc_Exact).
Proof.
  intros Hsmall. unfold binary_round_aux.
  destruct (shr_fexp 53 1024 (Z.pos m) e loc_Exact) as [mrs1 e1] eqn:E1.
  set (m2 := round_nearest_even (shr_m mrs1) (loc_of_shr_record mrs1)).
  destruct (shr_fexp 53 1024 m2 e1 loc_Exact) as [mrs2 e2] eqn:E2.
  destruct (shr_fexp_exact (Z.pos m) e ltac:(lia)) as (H1 & Hpos & Hneg).
  rewrite E1 in H1, Hpos, Hneg. cbn [fst snd] in *.
  pose proof (rne_bounds (shr_m mrs1) (loc_of_shr_record mrs1)) as Hr. fold m2 in Hr.
  assert (Hm2 : 0 <= m2) by lia.
  pose proof (dyadic_shr_fexp m2 e1 Hm2) as H2. rewrite E2 in H2. cbn [fst snd] in H2.
  destruct (shr_fexp_exact m2 e1 Hm2) as (H3 & _ & _). rewrite E2 in H3. cbn [fst] in H3.
  assert (Hb : (dyadic m2 e1 <= dyadic (Z.pos m) e * (1 + eps) + eta)%Q).
  { pose proof (pow2_pos e) as Hpe. pose proof eps_pos as Hp52.
    pose proof eta_pos as Hpmin.
    destruct (Z.lt_ge_cases 0 (fexp 53 1024 (Zdigits2 (Z.pos m) + e) - e)) as [H|H].
    - destruct (Hpos H) as [He1 Hm1].
      pose proof (dyadic_floor (Z.pos m) e _ ltac:(lia) H) as Hf.
      rewrite <- He1, <- Hm1 in Hf.
      assert (Hp : (pow2 e1 <= dyadic (Z.pos m) e * eps + eta)%Q).
      { pose proof (digits2_pos_bounds m) as [Hd _].
        set (d := Z.pos (digits2_pos m)) in *.
        assert (Hcase : e1 = -1074 \/ e1 = (d - 1) + e + (-52)).
        { cbn [Zdigits2] in He1. unfold fexp, emin in He1. fold d in He1. lia. }
        unfold dyadic.
        assert (0 <= inject_Z (Z.pos m))%Q by (apply inject_Z_nonneg; lia).
        assert (0 <= inject_Z (Z.pos m) * pow2 e)%Q by nra.
        assert (0 <= inject_Z (Z.pos m) * pow2 e * eps)%Q by nra.
        destruct Hcase as [Hc|Hc]; rewrite Hc.
        - change (pow2 (-1074)) with eta. lra.
        - rewrite !pow2_add. rewrite (pow2_Z (d - 1)) by lia.
          change (pow2 (-52)) with eps.
          rewrite Zle_Qle in Hd.
          set (a := inject_Z (2 ^ (d - 1))) in *. set (c := inject_Z (Z.pos m)) in *.
          set (p := pow2 e) in *.
          assert (a * p <= c * p)%Q by nra.
          assert (a * p * eps <= c * p * eps)%Q by nra.
          lra. }
      assert (Hle : (inject_Z m2 <= inject_Z (shr_m mrs1) + 1)%Q).
      { destruct Hr as [_ Hr]. rewrite Zle_Qle, inject_Z_plus in Hr. exact Hr. }
      unfold dyadic in *.
      set (a := inject_Z m2) in *. set (b := inject_Z (shr_m mrs1)) in *.
      set (c := inject_Z (Z.pos m)) in *. set (p := pow2 e) in *.
      set (p1 := pow2 e1) in *.
      pose proof (pow2_pos e1) as Hp1. fold p1 in Hp1.
      assert (a * p1 <= b * p1 + p1)%Q by nra.
      lra.
    - pose proof (Hneg H) as Hid. injection Hid as Hm1 He1.
      subst mrs1 e1. subst m2. cbn [shr_m loc_of_shr_record round_nearest_even].
      unfold dyadic. assert (0 <= inject_Z (Z.pos m))%Q by (apply inject_Z_nonneg; lia).
      assert (0 <= inject_Z (Z.pos m) * pow2 e)%Q by nra.
      assert (0 <= inject_Z (Z.pos m) * pow2 e * eps)%Q by nra.
      lra. }
  destruct (shr_m mrs2) as [|p|p]; [exact I| |lia].
  destruct (Z.leb_spec e2 (1024 - 53)); [exact I|]. exfalso.
  assert (Hp : (pow2 972 <= pow2 e2)%Q) by (apply pow2_le; lia).
  assert (H1p : (1 <= inject_Z (Z.pos p))%Q)
    by (change 1%Q with (inject_Z 1); rewrite <- Zle_Qle; lia).
  pose proof (pow2_pos e2) as Hp2.
  unfold dyadic in H2 at 1.
  set (x := inject_Z (Z.pos p)) in *. set (y := pow2 e2) in *.
  set (B := (dyadic (Z.pos m) e * (1 + eps) + eta)%Q) in *.
  set (z := dyadic m2 e1) in *. set (w := pow2 972) in *.
  assert (y <= x * y)%Q by nra. lra.
Qed.

Lemma binary_round_finite s m e :
  (dyadic (Z.pos m) e * (1 + eps) + eta < pow2 972)%Q ->
  finite (binary_round 53 1024 s m e).
Proof.
  intros Hsmall. unfold binary_round.
  destruct (shl_align_value m e (fexp 53 1024 (Z.pos (digits2_pos m) + e))) as [Hv _].
  destruct (shl_align m e (fexp 53 1024 (Z.pos (digits2_pos m) + e))) as [mz ez].
  cbn [fst snd] in Hv.
  apply binary_round_aux_finite. rewrite Hv. exact Hsmall.
Qed.

Lemma mul_finite Bx By x y :
  finite x -> finite y -> fbound Bx x -> fbound By y ->
  (Bx <= pow2 100)%Q -> (By <= pow2 100)%Q ->
  finite (F64.mul x y).
Proof.
  intros Fx Fy Hx Hy HBx HBy. unfold F64.mul.
  destruct x as [sx|sx| |sx mx ex], y as [sy|sy| |sy my ey];
    try contradiction; try exact I.
  cbn [SFmul]. unfold F64.prec, F64.emax.
  apply binary_round_aux_finite. cbn [fbound] in Hx, Hy.
  assert (E : (dyadic (Z.pos (mx * my)) (ex + ey) ==
               dyadic (Z.pos mx) ex * dyadic (Z.pos my) ey)%Q).
  { unfold dyadic. rewrite Pos2Z.inj_mul, inject_Z_mult, pow2_add. ring. }
  rewrite E.
  pose proof (dyadic_nonneg mx ex). pose proof (dyadic_nonneg my ey).
  assert (Hc : (pow2 100 * pow2 100 * (1 + eps) + eta < pow2 972)%Q)
    by (vm_compute; reflexivity).
  assert (Hp : (0 < pow2 100)%Q) by apply pow2_pos.
  set (a := dyadic (Z.pos mx) ex) in *. set (b := dyadic (Z.pos my) ey) in *.
  set (P := pow2 100) in *. set (w := pow2 972) in *.
  abstract_consts.
  assert (a * b <= P * P)%Q by nra.
  assert (a * b * ep <= P * P * ep)%Q by nra.
  lra.
Qed.

Lemma sub_one_finite W x :
  finite x -> nonneg_bound W x -> (W <= pow2 100)%Q ->
  finite (F64.sub x F64.one).
Proof.
  intros Fx Hx HW. rewrite one_value.
  destruct x as [s|s| |s m e]; try contradiction.
  - exact I.
  - destruct Hx as [-> Hx]. unfold F64.sub, F64.prec, F64.emax. cbn [SFsub cond_Zopp].
    set (ez := Z.min e (-52)).
    destruct (shl_align_value m e ez) as [Ea Ha].
    destruct (shl_align_value 4503599627370496 (-52) ez) as [Eb Hb].
    rewrite Ha in Ea by (subst ez; lia). rewrite Hb in Eb by (subst ez; lia).
    set (A := fst (shl_align m e ez)) in *.
    set (B := fst (shl_align 4503599627370496 (-52) ez)) in *.
    assert (E1 : (dyadic 4503599627370496 (-52) == 1)%Q) by (vm_compute; reflexivity).
    rewrite E1 in Eb.
    pose proof (dyadic_nonneg m e) as Hm0.
    assert (Hc : ((pow2 100 + 1) * (1 + eps) + eta < pow2 972)%Q)
      by (vm_compute; reflexivity).
    unfold binary_normalize.
    destruct (Z.pos A - Z.pos B) as [|p|p] eqn:EM; [exact I| |].
    + apply binary_round_finite.
      assert (Ep : (dyadic (Z.pos p) ez == dyadic (Z.pos m) e - 1)%Q).
      { rewrite <- Ea, <- Eb, <- EM. unfold dyadic.
        unfold Z.sub. rewrite inject_Z_plus, inject_Z_opp. ring. }
      rewrite Ep. set (v := dyadic (Z.pos m) e) in *.
      set (P := pow2 100) in *. set (w := pow2 972) in *. abstract_consts.
      assert ((v - 1) * ep <= (P + 1) * ep)%Q by nra. lra.
    + apply binary_round_finite.
      assert (Ep : (dyadic (Z.pos p) ez == 1 - dyadic (Z.pos m) e)%Q).
      { rewrite <- Ea, <- Eb. unfold dyadic.
        replace (Z.pos p) with (Z.pos B - Z.pos A) by lia.
        unfold Z.sub. rewrite inject_Z_plus, inject_Z_opp. ring. }
      rewrite Ep. set (v := dyadic (Z.pos m) e) in *.
      assert (HP : (0 < pow2 100)%Q) by apply pow2_pos.
      set (P := pow2 100) in *. set (w := pow2 972) in *. abstract_consts.
      assert ((1 - v) * ep <= (P + 1) * ep)%Q by nra. lra.
Qed.

(** [float64(d)] for any [int64] is finite, of magnitude about [|d|]. *)
Lemma of_int_abs d :
  Z.abs d <= 2 ^ 63 ->
  finite (F64.of_int d) /\
  fbound (inject_Z (Z.abs d) * (1 + eps) + eta) (F64.of_int d).
Proof.
  intros Hd. unfold F64.of_int, binary_normalize, F64.prec, F64.emax.
  assert (Hc : (inject_Z (2 ^ 63) * (1 + eps) + eta < pow2 972)%Q)
    by (vm_compute; reflexivity).
  assert (Hall : forall s p, Z.pos p <= 2 ^ 63 ->
    finite (binary_round 53 1024 s p 0) /\
    fbound (inject_Z (Z.pos p) * (1 + eps) + eta) (binary_round 53 1024 s p 0)).
  { intros s p Hp.
    assert (E : (dyadic (Z.pos p) 0 == inject_Z (Z.pos p))%Q).
    { unfold dyadic. change (pow2 0) with 1%Q. ring. }
    split.
    - apply binary_round_finite. rewrite E.
      assert (Hq : (inject_Z (Z.pos p) <= inject_Z (2 ^ 63))%Q)
        by (rewrite <- Zle_Qle; exact Hp).
      assert (H0 : (0 <= inject_Z (Z.pos p))%Q) by (apply inject_Z_nonneg; lia).
      set (a := inject_Z (Z.pos p)) in *. set (b := inject_Z (2 ^ 63)) in *.
      set (w := pow2 972) in *. abstract_consts.
      assert (a * ep <= b * ep)%Q by nra. lra.
    - pose proof (binary_round_bound s p 0) as Hr.
      destruct (binary_round 53 1024 s p 0); try exact I.
      destruct Hr as [_ Hr]. cbn [fbound]. rewrite <- E. exact Hr. }
  destruct d as [|p|p].
  - split; exact I.
  - apply Hall. lia.
  - apply Hall. lia.
Qed.

Lemma to_int64_finite B x :
  finite x -> fbound B x -> (0 <= B)%Q -> (B < inject_Z (2 ^ 63))%Q ->
  (inject_Z (Z.abs (F64.to_int64 x)) <= B)%Q.
Proof.
  intros Fx Hx HB0 HB. destruct x as [s|s| |s m e]; try contradiction.
  - exact HB0.
  - cbn [F64.to_int64 fbound] in *.
    pose proof (trunc_bound s m e) as Ht.
    assert (Hlt : (inject_Z (Z.abs (F64.trunc s m e)) < inject_Z (2 ^ 63))%Q) by lra.
    rewrite <- Zlt_Qlt in Hlt.
    unfold Int64.min_int, Int64.max_int.
    destruct (Z.leb_spec (- 2 ^ 63) (F64.trunc s m e)); [|lia].
    destruct (Z.leb_spec (F64.trunc s m e) (2 ^ 63 - 1)); [|lia].
    cbn [andb]. lra.
Qed.

Lemma unit_float_finite u : unit_float u -> finite u /\ fbound 1 u.
Proof.
  intros [->|(m & e & -> & H)]; split; try exact I. exact H.
Qed.

Lemma nonneg_bound_fbound W x : nonneg_bound W x -> fbound W x.
Proof.
  destruct x as [s|s| |s m e]; cbn; try tauto.
Qed.

(** With a finite factor of at most 1 and a duration of magnitude at most
    2^62, no operation of the jitter overflows and the conversion to
    [time.Duration] is in range: the jitter is bounded in magnitude. *)
Lemma jitterOf_tame duration factor u :
  duration <> 0 -> Z.abs duration <= 2 ^ 62 ->
  finite factor -> (0 <= float_value factor)%Q ->
  fbound (float_value factor) factor -> (float_value factor <= 1)%Q ->
  unit_float u ->
  (inject_Z (Z.abs (Xrand.jitterOf duration factor u))
   <= (1 + (1 # 562949953421312)) * float_value factor
      * inject_Z (Z.abs duration))%Q.
Proof.
  intros Hd0 Hd Ff HF Hf HF1 Hu. unfold Xrand.jitterOf.
  pose proof (randRange_fbound u Hu) as Hr.
  destruct (unit_float_finite u Hu) as [Fu Hu1].
  assert (F2u : finite (F64.mul F64.two u)).
  { apply (mul_finite 2 1); try assumption.
    - rewrite two_value. exact I.
    - rewrite two_value. vm_compute. discriminate.
    - vm_compute. discriminate.
    - vm_compute. discriminate. }
  assert (Fr : finite (F64.sub (F64.mul F64.two u) F64.one)).
  { apply (sub_one_finite (2 * (1 + eps) + eta)); [exact F2u| |].
    - apply mul_two_unit, Hu.
    - vm_compute. discriminate. }
  set (r := F64.sub (F64.mul F64.two u) F64.one) in *.
  set (F := float_value factor) in *.
  assert (HR0 : (0 <= range_bound)%Q) by (vm_compute; discriminate).
  assert (HR1 : (range_bound <= pow2 100)%Q) by (vm_compute; discriminate).
  assert (H1P : (1 <= pow2 100)%Q) by (vm_compute; discriminate).
  pose proof (mul_fbound _ _ r factor HR0 HF Hr Hf) as HX.
  assert (FX1 : finite (F64.mul r factor)).
  { apply (mul_finite range_bound F); try assumption. lra. }
  destruct (of_int_abs duration ltac:(lia)) as [FD HD].
  assert (Hd1 : (1 <= inject_Z (Z.abs duration))%Q)
    by (change 1%Q with (inject_Z 1); rewrite <- Zle_Qle; lia).
  assert (Hd2 : (inject_Z (Z.abs duration) <= inject_Z (2 ^ 62))%Q)
    by (rewrite <- Zle_Qle; lia).
  assert (Hd3 : (inject_Z (2 ^ 62) <= inject_Z (2 ^ 63))%Q)
    by (rewrite <- Zle_Qle; lia).
  set (dq := inject_Z (Z.abs duration)) in *.
  assert (HBX : (0 <= range_bound * F * (1 + eps) + eta)%Q).
  { pose proof eps_pos. pose proof eta_pos.
    assert (0 <= range_bound * F)%Q by nra.
    assert (0 <= range_bound * F * eps)%Q by nra. lra. }
  assert (HBD : (0 <= dq * (1 + eps) + eta)%Q).
  { pose proof eps_pos. pose proof eta_pos.
    assert (0 <= dq * eps)%Q by nra. lra. }
  pose proof (mul_fbound _ _ _ _ HBX HBD HX HD) as HP.
  assert (FX : finite (F64.mul (F64.mul r factor) (F64.of_int duration))).
  { apply (mul_finite (range_bound * F * (1 + eps) + eta) (dq * (1 + eps) + eta));
      try assumption.
    - assert (Hc : (range_bound * (1 + eps) + eta <= pow2 100)%Q)
        by (vm_compute; discriminate).
      pose proof eps_pos.
      set (R := range_bound) in *. set (P := pow2 100) in *. abstract_consts.
      assert (R * F <= R)%Q by nra.
      assert (R * F * ep <= R * ep)%Q by nra. lra.
    - assert (Hc : (inject_Z (2 ^ 62) * (1 + eps) + eta <= pow2 100)%Q)
        by (vm_compute; discriminate).
      pose proof eps_pos.
      set (D := inject_Z (2 ^ 62)) in *. set (P := pow2 100) in *. abstract_consts.
      assert (dq * ep <= D * ep)%Q by nra. lra. }
  set (T := ((range_bound * F * (1 + eps) + eta) * (dq * (1 + eps) + eta) * (1 + eps) + eta)%Q) in *.
  assert (HT0 : (0 <= T)%Q).
  { subst T. pose proof eps_pos. pose proof eta_pos.
    set (x := (range_bound * F * (1 + eps) + eta)%Q) in *.
    set (y := (dq * (1 + eps) + eta)%Q) in *.
    assert (0 <= x * y)%Q by nra. assert (0 <= x * y * eps)%Q by nra. lra. }
  set (c1 := (range_bound * (1 + eps) * ((1 + eps) * (1 + eps))
              + range_bound * (1 + eps) * (1 + eps) * eta)%Q).
  set (c2 := (eta * ((1 + eps) * (1 + eps) * inject_Z (2 ^ 63) + (1 + eps) * eta + 1))%Q).
  assert (Hc : (c1 + 4 * c2 <= 1 + (1 # 562949953421312))%Q) by (vm_compute; discriminate).
  assert (Hc1 : (0 <= c1 <= 2)%Q) by (split; vm_compute; discriminate).
  assert (Hc2 : (0 <= c2 <= 1 # 2)%Q) by (split; vm_compute; discriminate).
  assert (Hc3 : (inject_Z (2 ^ 62) * c1 + c2 < inject_Z (2 ^ 63))%Q)
    by (vm_compute; reflexivity).
  assert (HT : (T <= F * dq * c1 + c2)%Q).
  { subst T c1 c2. pose proof eps_pos. pose proof eta_pos.
    set (R := range_bound) in *. set (dm := inject_Z (2 ^ 63)) in *.
    set (d62 := inject_Z (2 ^ 62)) in *.
    set (ep := eps) in *. set (et := eta) in *. clearbody R ep et dm d62.
    assert (Eq : ((R * F * (1 + ep) + et) * (dq * (1 + ep) + et) * (1 + ep) + et ==
                  F * dq * (R * (1 + ep) * ((1 + ep) * (1 + ep)))
                  + F * (R * (1 + ep) * (1 + ep) * et)
                  + dq * ((1 + ep) * (1 + ep) * et)
                  + ((1 + ep) * et * et + et))%Q) by ring.
    rewrite Eq.
    assert (F <= F * dq)%Q by nra.
    set (k1 := (R * (1 + ep) * (1 + ep) * et)%Q) in *.
    assert (0 <= k1)%Q.
    { subst k1. assert (0 <= R * (1 + ep))%Q by nra.
      assert (0 <= R * (1 + ep) * (1 + ep))%Q by nra. nra. }
    set (k2 := ((1 + ep) * (1 + ep) * et)%Q) in *.
    assert (0 <= k2)%Q.
    { subst k2. assert (0 <= (1 + ep) * (1 + ep))%Q by nra. nra. }
    assert (F * k1 <= F * dq * k1)%Q by nra.
    assert (dq * k2 <= dm * k2)%Q by nra.
    set (k0 := (R * (1 + ep) * ((1 + ep) * (1 + ep)))%Q) in *.
    set (y := (F * dq)%Q) in *.
    assert (E2 : (y * (k0 + k1) + et * ((1 + ep) * (1 + ep) * dm + (1 + ep) * et + 1) ==
                  y * k0 + y * k1 + dm * k2 + ((1 + ep) * et * et + et))%Q)
      by (subst k2; ring).
    assert (E3 : (R * (1 + ep) * (1 + ep) * et == k1)%Q) by reflexivity.
    rewrite E2. lra. }
  assert (HT63 : (T < inject_Z (2 ^ 63))%Q).
  { set (d62 := inject_Z (2 ^ 62)) in *. set (d63 := inject_Z (2 ^ 63)) in *.
    assert (F * dq <= d62)%Q by nra.
    assert (F * dq * c1 <= d62 * c1)%Q by nra. lra. }
  pose proof (to_int64_finite T _ FX HP HT0 HT63) as Hj.
  set (j := F64.to_int64 (F64.mul (F64.mul r factor) (F64.of_int duration))) in *.
  destruct (Qlt_le_dec T 1) as [Hsmall|Hbig].
  - assert (Hz : Z.abs j = 0).
    { assert (Hlt : (inject_Z (Z.abs j) < inject_Z 1)%Q)
        by (change (inject_Z 1) with 1%Q; lra).
      rewrite <- Zlt_Qlt in Hlt. lia. }
    rewrite Hz. change (inject_Z 0) with 0%Q.
    assert (0 <= F * dq)%Q by nra. nra.
  - set (y := (F * dq)%Q) in *.
    assert (0 <= y)%Q by (subst y; nra).
    assert (Hy : (1 # 4 <= y)%Q) by nra.
    assert (c2 <= 4 * c2 * y)%Q by nra.
    assert (T <= y * (c1 + 4 * c2))%Q by nra.
    assert (y * (c1 + 4 * c2) <= y * (1 + (1 # 562949953421312)))%Q by nra.
    assert (Ey : ((1 + (1 # 562949953421312)) * F * dq ==
                  y * (1 + (1 # 562949953421312)))%Q) by (subst y; ring).
    rewrite Ey. lra.
Qed.

(** With a factor below 1 the candidate has the sign of the duration. *)
Lemma Jitter_candidate_tame src duration maxFactor q :
  let f := Xrand.jitterFactor maxFactor in
  let B := ((1 + (1 # 562949953421312)) * float_value f
            * inject_Z (Z.abs duration))%Q in
  let c := Jitter_candidate src duration f q in
  duration <> 0 -> Z.abs duration <= 2 ^ 62 ->
  finite f -> ((1 + (1 # 562949953421312)) * float_value f < 1)%Q ->
  (inject_Z duration - B <= inject_Z c <= inject_Z duration + B)%Q /\
  (0 < duration -> 0 < c) /\ (duration < 0 -> c < 0).
Proof.
  intros f B c Hd0 Hd Ff HF1.
  destruct (jitterFactor_positive maxFactor) as [HF Hf]. fold f in HF, Hf.
  assert (HFle : (float_value f <= 1)%Q) by lra.
  pose proof (jitterOf_tame duration f (Float64_at src q)
                Hd0 Hd Ff HF Hf HFle (Float64_at_unit src q)) as Hj.
  fold B in Hj. subst c. unfold Jitter_candidate.
  set (j := Xrand.jitterOf duration f (Float64_at src q)) in *.
  assert (Hd1 : (1 <= inject_Z (Z.abs duration))%Q)
    by (change 1%Q with (inject_Z 1); rewrite <- Zle_Qle; lia).
  assert (HB : (B < inject_Z (Z.abs duration))%Q).
  { subst B. set (x := ((1 + (1 # 562949953421312)) * float_value f)%Q) in *.
    set (y := inject_Z (Z.abs duration)) in *.
    assert (0 <= x)%Q by (subst x; nra). nra. }
  assert (Hlt : Z.abs j < Z.abs duration).
  { rewrite Zlt_Qlt. lra. }
  rewrite wrap_id by (unfold Int64.in_range, Int64.min_int, Int64.max_int; lia).
  split; [|split; lia].
  rewrite inject_Z_plus.
  assert (Habs : (- inject_Z (Z.abs j) <= inject_Z j <= inject_Z (Z.abs j))%Q).
  { rewrite <- inject_Z_opp, <- !Zle_Qle. lia. }
  lra.
Qed.

(** X12. For a duration [0 < d <= 2^62] and a finite factor [f] with
    [(1 + 2^-49) * f < 1], such as the default factor 0.2, [Jitter] calls
    [Float64] once: it returns the candidate of the first draw that
    [Float64] keeps, that is of the first draw below [2^63 - 512], and
    leaves the generator just after that draw.  That candidate is positive
    and lies within [(1 + 2^-49) * f * d] of [d]. *)
Theorem Jitter_one_call (globalRand : Source) (duration : Z)
    (maxFactor : list F64.float64) (fuel pos q : nat) :
  let f := Xrand.jitterFactor maxFactor in
  let B := ((1 + (1 # 562949953421312)) * float_value f * inject_Z duration)%Q in
  0 < duration <= 2 ^ 62 ->
  finite f -> ((1 + (1 # 562949953421312)) * float_value f < 1)%Q ->
  (pos <= q)%nat ->
  (forall p, (pos <= p < q)%nat -> 2 ^ 63 - 512 <= MathRand.src_Int63 globalRand p) ->
  MathRand.src_Int63 globalRand q < 2 ^ 63 - 512 ->
  (q - pos + 2 <= fuel)%nat ->
  exists v,
    Xrand.Jitter globalRand fuel duration maxFactor pos = Ok v (S q) /\
    v = Jitter_candidate globalRand duration f q /\
    0 < v /\
    (inject_Z duration - B <= inject_Z v <= inject_Z duration + B)%Q.
Proof.
  intros f B Hd Ff HF1 Hq Hrej Hacc Hfuel.
  destruct (Jitter_candidate_tame globalRand duration maxFactor q
              ltac:(lia) ltac:(lia) Ff HF1) as (Hb & Hpos & _).
  fold f in Hb, Hpos. rewrite Z.abs_eq in Hb by lia. fold B in Hb.
  exists (Jitter_candidate globalRand duration f q).
  split; [|split; [reflexivity|split; [apply Hpos; lia|exact Hb]]].
  unfold Xrand.Jitter. fold f.
  apply Jitter_loop_first;
    [lia|exact Hq| |apply Float64_kept, Hacc|apply Hpos; lia|lia].
  intros p Hp. left. apply Float64_retried, Hrej, Hp.
Qed.

Lemma Jitter_one_call_witness :
  exists v,
    Xrand.Jitter (stream_of [2 ^ 63 - 1; 2 ^ 63 - 1024]) 3 2000000000 [] 0%nat
      = Ok v 2%nat /\
    v = Jitter_candidate (stream_of [2 ^ 63 - 1; 2 ^ 63 - 1024]) 2000000000
          Xrand.defaultJitterFactor 1 /\
    0 < v /\
    (inject_Z 2000000000
     - (1 + (1 # 562949953421312)) * float_value Xrand.defaultJitterFactor
       * inject_Z 2000000000 <= inject_Z v <=
     inject_Z 2000000000
     + (1 + (1 # 562949953421312)) * float_value Xrand.defaultJitterFactor
       * inject_Z 2000000000)%Q.
Proof.
  apply (Jitter_one_call (stream_of [2 ^ 63 - 1; 2 ^ 63 - 1024]) 2000000000 [] 3 0 1).
  - lia.
  - exact I.
  - vm_compute. reflexivity.
  - lia.
  - intros p Hp. assert (p = 0%nat) as -> by lia. vm_compute. discriminate.
  - vm_compute. reflexivity.
  - lia.
Defined.

(** X13. For a negative duration [-2^62 <= d < 0] and a finite factor [f]
    with [(1 + 2^-49) * f < 1], such as the default factor, [Jitter] never
    returns: every candidate is negative, for every stream, so the loop is
    still running when any iteration budget is used up. *)
Theorem Jitter_negative_never_returns (globalRand : Source) (duration : Z)
    (maxFactor : list F64.float64) :
  let f := Xrand.jitterFactor maxFactor in
  - 2 ^ 62 <= duration < 0 ->
  finite f -> ((1 + (1 # 562949953421312)) * float_value f < 1)%Q ->
  (forall q, Jitter_candidate globalRand duration f q < 0) /\
  forall fuel pos, Xrand.Jitter globalRand fuel duration maxFactor pos = Diverge.
Proof.
  intros f Hd Ff HF1.
  assert (Hneg : forall q, Jitter_candidate globalRand duration f q < 0).
  { intros q.
    destruct (Jitter_candidate_tame globalRand duration maxFactor q
                ltac:(lia) ltac:(lia) Ff HF1) as (_ & _ & H).
    apply H. lia. }
  split; [exact Hneg|].
  intros fuel pos. unfold Xrand.Jitter. fold f.
  apply Jitter_loop_never; [lia|]. intros p _. right. specialize (Hneg p). lia.
Qed.

Lemma Jitter_negative_never_returns_witness :
  Jitter_candidate lcg (-1000) Xrand.defaultJitterFactor 0 < 0 /\
  forall fuel pos, Xrand.Jitter lcg fuel (-1000) [] pos = Diverge.
Proof.
  destruct (Jitter_negative_never_returns lcg (-1000) []) as [H1 H2];
    [lia | exact I | vm_compute; reflexivity |].
  split; [apply H1 | exact H2].
Defined.

(** X14. When [(1 + 2^-49) * f * d < 1] for the duration [d > 0] and the
    finite factor [f] in use, as for [d <= 4ns] with the default factor, the
    jitter is truncated to zero: [Jitter] returns [d] itself, after the
    first draw that [Float64] keeps, that is the first draw below
    [2^63 - 512]. *)
Theorem Jitter_small_duration (globalRand : Source) (duration : Z)
    (maxFactor : list F64.float64) (fuel pos q : nat) :
  let f := Xrand.jitterFactor maxFactor in
  0 < duration <= 2 ^ 62 -> finite f ->
  ((1 + (1 # 562949953421312)) * float_value f * inject_Z duration < 1)%Q ->
  (pos <= q)%nat ->
  (forall p, (pos <= p < q)%nat -> 2 ^ 63 - 512 <= MathRand.src_Int63 globalRand p) ->
  MathRand.src_Int63 globalRand q < 2 ^ 63 - 512 ->
  (q - pos + 2 <= fuel)%nat ->
  Xrand.Jitter globalRand fuel duration maxFactor pos = Ok duration (S q).
Proof.
  intros f Hd Ff Hsmall Hq Hrej Hacc Hfuel.
  destruct (jitterFactor_positive maxFactor) as [HF _]. fold f in HF.
  assert (Hd1 : (1 <= inject_Z duration)%Q)
    by (change 1%Q with (inject_Z 1); rewrite <- Zle_Qle; lia).
  assert (HF1 : ((1 + (1 # 562949953421312)) * float_value f < 1)%Q).
  { set (x := ((1 + (1 # 562949953421312)) * float_value f)%Q) in *.
    set (y := inject_Z duration) in *.
    assert (0 <= x)%Q by (subst x; nra). nra. }
  destruct (Jitter_candidate_tame globalRand duration maxFactor q
              ltac:(lia) ltac:(lia) Ff HF1) as ((Hlo & Hhi) & Hpos & _).
  fold f in Hlo, Hhi, Hpos. rewrite Z.abs_eq in Hlo, Hhi by lia.
  set (c := Jitter_candidate globalRand duration f q) in *.
  assert (Ec : c = duration).
  { set (B := ((1 + (1 # 562949953421312)) * float_value f * inject_Z duration)%Q) in *.
    assert (H1 : (inject_Z (duration - 1) < inject_Z c)%Q).
    { unfold Z.sub. rewrite inject_Z_plus, inject_Z_opp.
      change (inject_Z 1) with 1%Q. lra. }
    assert (H2 : (inject_Z c < inject_Z (duration + 1))%Q).
    { rewrite inject_Z_plus. change (inject_Z 1) with 1%Q. lra. }
    rewrite <- Zlt_Qlt in H1, H2. lia. }
  unfold Xrand.Jitter. fold f.
  pose proof (Jitter_loop_first globalRand duration f fuel pos q 0) as H.
  fold c in H. rewrite Ec in H.
  apply H; [lia|exact Hq| |apply Float64_kept, Hacc|lia|lia].
  intros p Hp. left. apply Float64_retried, Hrej, Hp.
Qed.

Lemma Jitter_small_duration_witness :
  Xrand.Jitter (stream_of [2 ^ 63 - 1]) 3 4 [] 0%nat = Ok 4 2%nat.
Proof.
  apply (Jitter_small_duration (stream_of [2 ^ 63 - 1]) 4 [] 3 0 1).
  - lia.
  - exact I.
  - vm_compute. reflexivity.
  - lia.
  - intros p Hp. assert (p = 0%nat) as -> by lia. vm_compute. discriminate.
  - vm_compute. reflexivity.
  - lia.
Defined.

(** ** getRandSeed: what the mask discards *)

Lemma byte_val_inj x y : byte_val x = byte_val y -> x = y.
Proof.
  unfold byte_val. intros E. apply N2Z.inj in E.
  pose proof (Byte.of_to_N x) as Hx. pose proof (Byte.of_to_N y) as Hy.
  rewrite E in Hx. rewrite Hx in Hy. injection Hy as ->. reflexivity.
Qed.

Lemma mod_cons a x M :
  0 <= a < 256 -> 0 < M -> (a + 256 * x) mod (256 * M) = a + 256 * (x mod M).
Proof.
  intros Ha HM. symmetry.
  pose proof (Z.div_mod x M ltac:(lia)) as Hx.
  pose proof (Z.mod_pos_bound x M HM) as Hb.
  apply (Z.mod_unique_pos _ _ (x / M)); [nia|].
  rewrite Hx at 1. ring.
Qed.

Lemma cons_inj a b x y :
  0 <= a < 256 -> 0 <= b < 256 -> a + 256 * x = b + 256 * y -> a = b /\ x = y.
Proof. lia. Qed.

(** X15. Two successful reads of the secure source give the same seed
    exactly when they agree on the first seven bytes and on the low seven
    bits of the eighth: the mask discards the top bit of the last byte and
    nothing else. *)
Theorem getRandSeed_same_seed (b0 b1 b2 b3 b4 b5 b6 b7 : Byte.byte)
    (c0 c1 c2 c3 c4 c5 c6 c7 : Byte.byte) (now now' : Z) :
  Xrand.getRandSeed (Xrand.ReadOk [# b0; b1; b2; b3; b4; b5; b6; b7]) now =
  Xrand.getRandSeed (Xrand.ReadOk [# c0; c1; c2; c3; c4; c5; c6; c7]) now' <->
  b0 = c0 /\ b1 = c1 /\ b2 = c2 /\ b3 = c3 /\ b4 = c4 /\ b5 = c5 /\ b6 = c6 /\
  byte_val b7 mod 128 = byte_val c7 mod 128.
Proof.
  unfold Xrand.getRandSeed. rewrite !LittleEndian_Uint64_value.
  assert (Hseed : forall l : vec Byte.byte 8,
    Int64.wrap (Z.land (le_value (vec_to_list l)) (2 ^ 63 - 1)) =
    le_value (vec_to_list l) mod 2 ^ 63).
  { intros l. change (2 ^ 63 - 1) with (Z.ones 63). rewrite Z.land_ones by lia.
    apply wrap_id. unfold Int64.in_range, Int64.min_int, Int64.max_int.
    pose proof (Z.mod_pos_bound (le_value (vec_to_list l)) (2 ^ 63)). lia. }
  rewrite !Hseed. cbn [vec_to_list le_value fold_right].
  pose proof (byte_val_range b0). pose proof (byte_val_range b1).
  pose proof (byte_val_range b2). pose proof (byte_val_range b3).
  pose proof (byte_val_range b4). pose proof (byte_val_range b5).
  pose proof (byte_val_range b6). pose proof (byte_val_range b7).
  pose proof (byte_val_range c0). pose proof (byte_val_range c1).
  pose proof (byte_val_range c2). pose proof (byte_val_range c3).
  pose proof (byte_val_range c4). pose proof (byte_val_range c5).
  pose proof (byte_val_range c6). pose proof (byte_val_range c7).
  replace (2 ^ 63)
    with (256 * (256 * (256 * (256 * (256 * (256 * (256 * 128)))))))
    by reflexivity.
  rewrite !Z.add_0_r.
  rewrite !mod_cons by lia.
  pose proof (Z.mod_pos_bound (byte_val b7) 128 ltac:(lia)).
  pose proof (Z.mod_pos_bound (byte_val c7) 128 ltac:(lia)).
  split.
  - intros E. injection E as E.
    repeat (apply cons_inj in E; [|lia|lia];
            let E0 := fresh "E0" in destruct E as [E0 E];
            apply byte_val_inj in E0).
    repeat (split; [assumption|]). exact E.
  - intros (-> & -> & -> & -> & -> & -> & -> & E). rewrite E. reflexivity.
Qed.

(** ** lockedSource: every draw is handed out once *)

Section LockedFacts.
Import LockedSource.

Lemma omap_insert_same {A B} (f : A -> option B) (l : list A) i t t' :
  l !! i = Some t -> f t = f t' -> omap f (<[i := t']> l) = omap f l.
Proof.
  revert i. induction l as [|x l IH]; intros [|i] Hi E; try discriminate.
  - injection Hi as ->. cbn. rewrite E. reflexivity.
  - cbn. specialize (IH i Hi E).
    destruct (f x); [f_equal; exact IH|exact IH].
Qed.

Lemma omap_insert_new {A B} (f : A -> option B) (l : list A) i t t' q :
  l !! i = Some t -> f t = None -> f t' = Some q ->
  omap f (<[i := t']> l) ≡ₚ q :: omap f l.
Proof.
  revert i. induction l as [|x l IH]; intros [|i] Hi E E'; try discriminate.
  - injection Hi as ->. cbn. rewrite E, E'. reflexivity.
  - cbn. specialize (IH i Hi E E'). destruct (f x) as [y|]; [|exact IH].
    etransitivity; [apply Permutation_cons; [reflexivity|exact IH]|].
    apply Permutation_swap.
Qed.

Lemma invariant_start pos n : invariant pos (start pos n).
Proof.
  unfold invariant, start. cbn [locked next goroutines].
  split; [lia|]. split.
  - rewrite Nat.sub_diag. cbn [seq].
    induction n as [|n IH]; [reflexivity|exact IH].
  - intros j t' Hj. apply lookup_replicate in Hj as [-> _]. reflexivity.
Qed.

Lemma invariant_step pos s i s' :
  invariant pos s -> step_of s i = Some s' -> invariant pos s'.
Proof.
  intros (Hle & Hperm & Hlock) Hstep. unfold step_of in Hstep.
  destruct (goroutines s !! i) as [t|] eqn:Hi; [|discriminate].
  assert (Hlen : (i < length (goroutines s))%nat)
    by (apply lookup_lt_is_Some; eauto).
  assert (Hholder : locked s = true -> in_critical t = true ->
            (forall seen, t = AtWrite seen -> seen = next s) /\
            forall j t', j <> i -> goroutines s !! j = Some t' ->
                         in_critical t' = false).
  { intros El Hc. rewrite El in Hlock.
    destruct Hlock as (i0 & t0 & Hi0 & Hc0 & Hseen & Hothers).
    destruct (decide (i = i0)) as [->|Hne].
    - rewrite Hi0 in Hi. injection Hi as ->. split; assumption.
    - rewrite (Hothers i t Hne Hi) in Hc. discriminate. }
  assert (Hfree : locked s = false -> in_critical t = false).
  { intros El. rewrite El in Hlock. apply (Hlock i t Hi). }
  destruct t as [| |seen|q|q]; try discriminate.
  - (* Lock *)
    destruct (locked s) eqn:El; [discriminate|]. injection Hstep as <-.
    unfold invariant. cbn [locked next goroutines].
    split; [exact Hle|]. split.
    + rewrite (omap_insert_same drawn _ i AtLock AtRead Hi eq_refl). exact Hperm.
    + exists i, AtRead. split; [apply list_lookup_insert_eq; exact Hlen|].
      split; [reflexivity|]. split; [intros seen E; discriminate|].
      intros j t' Hj Hl. rewrite list_lookup_insert_ne in Hl by auto.
      apply (Hlock j t' Hl).
  - (* the draw reads the state *)
    injection Hstep as <-.
    destruct (locked s) eqn:El; [|specialize (Hfree eq_refl); discriminate].
    destruct (Hholder eq_refl eq_refl) as [_ Hothers].
    unfold invariant. cbn [locked next goroutines].
    split; [exact Hle|]. split.
    + rewrite (omap_insert_same drawn _ i AtRead (AtWrite (next s)) Hi eq_refl).
      exact Hperm.
    + exists i, (AtWrite (next s)).
      split; [apply list_lookup_insert_eq; exact Hlen|].
      split; [reflexivity|]. split; [intros seen E; injection E as <-; reflexivity|].
      intros j t' Hj Hl. rewrite list_lookup_insert_ne in Hl by auto.
      apply (Hothers j t' Hj Hl).
  - (* the draw writes the state *)
    injection Hstep as <-.
    destruct (locked s) eqn:El; [|specialize (Hfree eq_refl); discriminate].
    destruct (Hholder eq_refl eq_refl) as [Hseen Hothers].
    specialize (Hseen seen eq_refl). subst seen.
    unfold invariant. cbn [locked next goroutines].
    split; [lia|]. split.
    + rewrite (omap_insert_new drawn _ i (AtWrite (next s)) (AtUnlock (next s))
                 (next s) Hi eq_refl eq_refl).
      rewrite Hperm.
      replace (S (next s) - pos)%nat with (S (next s - pos)) by lia.
      rewrite seq_S. replace (pos + (next s - pos))%nat with (next s) by lia.
      apply Permutation_cons_append.
    + exists i, (AtUnlock (next s)).
      split; [apply list_lookup_insert_eq; exact Hlen|].
      split; [reflexivity|]. split; [intros seen E; discriminate|].
      intros j t' Hj Hl. rewrite list_lookup_insert_ne in Hl by auto.
      apply (Hothers j t' Hj Hl).
  - (* Unlock *)
    injection Hstep as <-.
    destruct (locked s) eqn:El; [|specialize (Hfree eq_refl); discriminate].
    destruct (Hholder eq_refl eq_refl) as [_ Hothers].
    unfold invariant. cbn [locked next goroutines].
    split; [exact Hle|]. split.
    + rewrite (omap_insert_same drawn _ i (AtUnlock q) (Returned q) Hi eq_refl).
      exact Hperm.
    + intros j t' Hl. destruct (decide (j = i)) as [->|Hne].
      * rewrite list_lookup_insert_eq in Hl by exact Hlen.
        injection Hl as <-. reflexivity.
      * rewrite list_lookup_insert_ne in Hl by auto.
        apply (Hothers j t' Hne Hl).
Qed.

Lemma step_length s i s' :
  step_of s i = Some s' -> length (goroutines s') = length (goroutines s).
Proof.
  unfold step_of. destruct (goroutines s !! i) as [[| |seen|q|q]|]; try discriminate.
  - destruct (locked s); [discriminate|]. intros [= <-]. apply length_insert.
  - intros [= <-]. apply length_insert.
  - intros [= <-]. apply length_insert.
  - intros [= <-]. apply length_insert.
Qed.

Lemma invariant_run pos schedule : forall s s',
  invariant pos s -> run s schedule = Some s' ->
  invariant pos s' /\ length (goroutines s') = length (goroutines s).
Proof.
  induction schedule as [|i rest IH]; intros s s' Hinv Hrun; cbn [run] in Hrun.
  - injection Hrun as <-. split; [exact Hinv|reflexivity].
  - destruct (step_of s i) as [s1|] eqn:Hstep; [|discriminate].
    destruct (IH s1 s' (invariant_step pos s i s1 Hinv Hstep) Hrun) as [H1 H2].
    split; [exact H1|]. rewrite H2. apply (step_length s i s1 Hstep).
Qed.

Lemma omap_drawn_returned l :
  Forall (fun t => has_returned t = true) l -> length (omap drawn l) = length l.
Proof.
  induction 1 as [|t l Ht _ IH]; [reflexivity|].
  destruct t; try discriminate. cbn. rewrite IH. reflexivity.
Qed.

(** X16. However the goroutines that call [lockedSource.Int63] are
    scheduled, once all [n] of them have returned the lock is free, the
    generator has advanced by exactly [n] draws, and the positions they drew
    at are those [n] positions, each handed out once: no draw is lost and
    none is returned twice. *)
Theorem lockedSource_each_draw_once (pos n : nat) (schedule : list nat) (s : state) :
  run (start pos n) schedule = Some s ->
  Forall (fun t => has_returned t = true) (goroutines s) ->
  locked s = false /\ next s = (pos + n)%nat /\
  omap drawn (goroutines s) ≡ₚ seq pos n.
Proof.
  intros Hrun Hall.
  destruct (invariant_run pos schedule _ _ (invariant_start pos n) Hrun)
    as [(Hle & Hperm & Hlock) Hlen].
  cbn [start goroutines] in Hlen. rewrite length_replicate in Hlen.
  assert (Hn : (next s - pos = n)%nat).
  { apply Permutation_length in Hperm.
    rewrite omap_drawn_returned, length_seq in Hperm by exact Hall. lia. }
  split; [|split; [lia|rewrite <- Hn; exact Hperm]].
  destruct (locked s); [|reflexivity].
  destruct Hlock as (i & t & Hi & Hc & _).
  rewrite Forall_lookup in Hall. specialize (Hall i t Hi).
  destruct t; discriminate.
Qed.

Lemma lockedSource_each_draw_once_witness :
  run (start 5 2) [1; 1; 1; 1; 0; 0; 0; 0]%nat
    = Some (State false 7 [Returned 6; Returned 5]) /\
  omap drawn [Returned 6; Returned 5] ≡ₚ seq 5 2.
Proof.
  assert (E : run (start 5 2) [1; 1; 1; 1; 0; 0; 0; 0]%nat
              = Some (State false 7 [Returned 6; Returned 5])) by reflexivity.
  split; [exact E|].
  apply (lockedSource_each_draw_once 5 2 _ _ E).
  repeat constructor.
Defined.

(** X17. In every state that the goroutines calling [lockedSource.Int63]
    can reach, at most one goroutine is between [Lock] and [Unlock], the
    lock is held exactly when one is, and as long as some goroutine has not
    returned some goroutine can take a step: the calls never deadlock. *)
Theorem lockedSource_exclusive (pos n : nat) (schedule : list nat) (s : state) :
  run (start pos n) schedule = Some s ->
  (forall i j ti tj,
     goroutines s !! i = Some ti -> goroutines s !! j = Some tj ->
     in_critical ti = true -> in_critical tj = true -> i = j) /\
  (locked s = true <->
   exists i t, goroutines s !! i = Some t /\ in_critical t = true) /\
  ((exists i t, goroutines s !! i = Some t /\ has_returned t = false) ->
   exists i s', step_of s i = Some s').
Proof.
  intros Hrun.
  destruct (invariant_run pos schedule _ _ (invariant_start pos n) Hrun)
    as [(Hle & Hperm & Hlock) _].
  destruct (locked s) eqn:El.
  - destruct Hlock as (i0 & t0 & Hi0 & Hc0 & _ & Hothers).
    split; [|split].
    + intros i j ti tj Hi Hj Hci Hcj.
      destruct (decide (i = i0)) as [->|Hne];
        [|rewrite (Hothers i ti Hne Hi) in Hci; discriminate].
      destruct (decide (j = i0)) as [->|Hne];
        [reflexivity|rewrite (Hothers j tj Hne Hj) in Hcj; discriminate].
    + split; [intros _; exists i0, t0; auto|reflexivity].
    + intros _. exists i0. unfold step_of. rewrite Hi0.
      destruct t0; try discriminate; eauto.
  - split; [|split].
    + intros i j ti tj Hi Hj Hci Hcj.
      rewrite (Hlock i ti Hi) in Hci. discriminate.
    + split; [discriminate|]. intros (i & t & Hi & Hc).
      rewrite (Hlock i t Hi) in Hc. discriminate.
    + intros (i & t & Hi & Hr). exists i. unfold step_of. rewrite Hi, El.
      pose proof (Hlock i t Hi) as Hc.
      destruct t; try discriminate; eauto.
Qed.

Lemma lockedSource_exclusive_witness :
  run (start 5 2) [1; 1]%nat = Some (State true 5 [AtLock; AtWrite 5]) /\
  exists i s', step_of (State true 5 [AtLock; AtWrite 5]) i = Some s'.
Proof.
  assert (E : run (start 5 2) [1; 1]%nat = Some (State true 5 [AtLock; AtWrite 5]))
    by reflexivity.
  split; [exact E|].
  apply (lockedSource_exclusive 5 2 _ _ E).
  exists 0%nat, AtLock. split; reflexivity.
Defined.

End LockedFacts.
